(** * tree-core: the dependency graph engine (dependencyGraph.ts)

    A shallow embedding of the functions of [src/dependencyGraph.ts] (the
    graph engine, the manifest parser and the directory scan) and of the
    types of [src/types.ts].  What lies outside the repository (the file
    system, [path], [RegExp], the manifest reader) enters as parameters.

    JavaScript's [Map] and [Set] iterate in insertion order, and the order
    is observable here (the build order returned by [topologicalSort], the
    record order written by [serializeGraph]).  A [Set<string>] is therefore
    a list of strings in insertion order and a [Map<string, V>] an
    association list in insertion order; the run-time guarantee that a key
    or an element occurs once is the predicate [Set_ok] / [Map_ok].

    Calls of the logger are left out: the sink is a collaborator that returns
    nothing.  The size of the JavaScript call stack is not modelled. *)

From Stdlib Require Import Ascii String List Bool Arith Lia Relations
  Permutation.
Import ListNotations.
Open Scope string_scope.
Open Scope list_scope.

(* ================================================================== *)
(** ** Insertion-ordered sets and maps *)
(* ================================================================== *)

Definition JSet := list string.
Definition JMap (V : Type) := list (string * V).

(** [s.has(x)] *)
Definition set_has (x : string) (s : JSet) : bool :=
  existsb (String.eqb x) s.

(** [s.add(x)]: a new element goes last, a present one leaves [s] as it is. *)
Definition set_add (x : string) (s : JSet) : JSet :=
  if set_has x s then s else s ++ [x].

(** [s.delete(x)] *)
Definition set_delete (x : string) (s : JSet) : JSet :=
  filter (fun y => negb (String.eqb x y)) s.

(** [new Set(array)] *)
Definition set_of_list (l : list string) : JSet :=
  fold_left (fun s x => set_add x s) l [].

(** [m.get(k)] *)
Fixpoint map_get {V} (k : string) (m : JMap V) : option V :=
  match m with
  | [] => None
  | (k', v) :: m' => if String.eqb k k' then Some v else map_get k m'
  end.

(** [m.has(k)] *)
Definition map_has {V} (k : string) (m : JMap V) : bool :=
  match map_get k m with Some _ => true | None => false end.

(** [m.set(k, v)]: a present key keeps its place and takes the new value,
    a new key goes last. *)
Fixpoint map_set {V} (k : string) (v : V) (m : JMap V) : JMap V :=
  match m with
  | [] => [(k, v)]
  | (k', v') :: m' =>
      if String.eqb k k' then (k, v) :: m' else (k', v') :: map_set k v m'
  end.

(** [m.keys()] and [m.values()] *)
Definition map_keys {V} (m : JMap V) : list string := map fst m.
Definition map_values {V} (m : JMap V) : list V := map snd m.

(** [m.get(k) || new Set()] *)
Definition get_or_empty (k : string) (m : JMap JSet) : JSet :=
  match map_get k m with Some s => s | None => [] end.

Definition Set_ok (s : JSet) : Prop := NoDup s.
Definition Map_ok {V} (m : JMap V) : Prop := NoDup (map_keys m).

(** Equality of sets and of maps of sets up to iteration order. *)
Definition Set_equiv (s1 s2 : JSet) : Prop := forall x, In x s1 <-> In x s2.
Definition Map_equiv (m1 m2 : JMap JSet) : Prop :=
  forall k,
    match map_get k m1, map_get k m2 with
    | Some s1, Some s2 => Set_equiv s1 s2
    | None, None => True
    | _, _ => False
    end.

(* ================================================================== *)
(** ** types.ts *)
(* ================================================================== *)

Record PackageInfo := {
  name : string;
  version : string;
  path : string;
  dependencies : JSet;
  devDependencies : JSet;
  localDependencies : JSet
}.

Record DependencyGraph := {
  packages : JMap PackageInfo;
  edges : JMap JSet;
  reverseEdges : JMap JSet
}.

Record SerializedPackage := {
  ser_name : string;
  ser_version : string;
  ser_path : string;
  ser_dependencies : list string
}.

Record SerializedGraph := {
  ser_packages : list SerializedPackage;
  ser_edges : list (string * list string)
}.

(* ================================================================== *)
(** ** buildReverseGraph *)
(* ================================================================== *)

(** The body of the inner loop: [if (!reverse.has(dep)) reverse.set(dep, new
    Set()); reverse.get(dep)!.add(pkg)].  The set stored at [dep] is mutated
    in place, so the entry keeps its position.  The [None] branch stands for
    the non-null assertion; [add_dependent_get] shows it is never taken. *)
Definition add_dependent (pkg : string) (reverse : JMap JSet) (dep : string)
  : JMap JSet :=
  let reverse1 :=
    if map_has dep reverse then reverse else map_set dep [] reverse in
  match map_get dep reverse1 with
  | Some s => map_set dep (set_add pkg s) reverse1
  | None => reverse1
  end.

(** One round of the outer loop, [for (const [pkg, deps] of edges)]. *)
Definition reverse_step (reverse : JMap JSet) (entry : string * JSet)
  : JMap JSet :=
  let (pkg, deps) := entry in fold_left (add_dependent pkg) deps reverse.

Definition buildReverseGraph (edges : JMap JSet) : JMap JSet :=
  fold_left reverse_step edges [].

(** [(source, target)] is a forward pair of [E]: the loops
    [for (const [pkg, deps] of edges) for (const dep of deps)] reach it. *)
Definition forward_pair (E : JMap JSet) (source target : string) : Prop :=
  exists deps, In (source, deps) E /\ In target deps.

(** No key is mapped to an empty set. *)
Definition no_empty_set (R : JMap JSet) : Prop :=
  forall t s, map_get t R = Some s -> s <> [].

(** [R] is the exact transpose of [E]: membership mirrors the forward pairs
    and no key is mapped to an empty set. *)
Definition transpose_of (E R : JMap JSet) : Prop :=
  (forall source target,
      In source (get_or_empty target R) <-> forward_pair E source target) /\
  no_empty_set R.

(* ================================================================== *)
(** ** Control: code that may throw, loops, recursion depth *)
(* ================================================================== *)

(** What a call does: it returns, or it throws [new Error(message)].  The
    two recursive closures ([visit], [traverse]) recurse on a natural number
    that bounds the depth of the JavaScript call stack; [OutOfFuel] is the
    model's answer when that bound is too small, and the theorems show that
    the bound used by the entry points is never too small. *)
Inductive outcome (A : Type) : Type :=
| Returns (a : A)
| Throws (message : string)
| OutOfFuel.
Arguments Returns {A} a.
Arguments Throws {A} message.
Arguments OutOfFuel {A}.

(** [for (const x of l) body(x)] over a state, leaving at the first throw. *)
Fixpoint for_each {St : Type} (body : string -> St -> outcome St)
  (l : list string) (st : St) : outcome St :=
  match l with
  | [] => Returns st
  | x :: l' =>
      match body x st with
      | Returns st' => for_each body l' st'
      | Throws m => Throws m
      | OutOfFuel => OutOfFuel
      end
  end.

(* ================================================================== *)
(** ** topologicalSort *)
(* ================================================================== *)

(** The three variables captured by the closure [visit]. *)
Record SortState := {
  visited : JSet;
  visiting : JSet;
  result : list string
}.

Definition cycle_message (packageName : string) : string :=
  ("Circular dependency detected involving package: " ++ packageName)%string.

Fixpoint visit (fuel : nat) (edges : JMap JSet) (packageName : string)
  (st : SortState) : outcome SortState :=
  match fuel with
  | O => OutOfFuel
  | S fuel' =>
      if set_has packageName (visited st) then Returns st
      else if set_has packageName (visiting st)
      then Throws (cycle_message packageName)
      else
        let st1 := {| visited := visited st;
                      visiting := set_add packageName (visiting st);
                      result := result st |} in
        let deps := get_or_empty packageName edges in
        match for_each (visit fuel' edges) deps st1 with
        | Returns st2 =>
            Returns {| visited := set_add packageName (visited st2);
                       visiting := set_delete packageName (visiting st2);
                       result := result st2 ++ [packageName] |}
        | Throws m => Throws m
        | OutOfFuel => OutOfFuel
        end
  end.

Definition sort_init : SortState :=
  {| visited := []; visiting := []; result := [] |}.

(** Depth bound handed to [visit]: one more than the number of entries of
    [edges]. *)
Definition sort_fuel (graph : DependencyGraph) : nat :=
  S (length (edges graph)).

(** The body of the root loop: [if (!visited.has(packageName))
    visit(packageName)]. *)
Definition visit_root (fuel : nat) (edges : JMap JSet) (packageName : string)
  (st : SortState) : outcome SortState :=
  if set_has packageName (visited st) then Returns st
  else visit fuel edges packageName st.

Definition topologicalSort (graph : DependencyGraph) : outcome (list string) :=
  match for_each (visit_root (sort_fuel graph) (edges graph))
          (map_keys (packages graph)) sort_init with
  | Returns st => Returns (result st)
  | Throws m => Throws m
  | OutOfFuel => OutOfFuel
  end.

(** [a -> b] is a forward edge as [visit] reads it: [b] is in
    [edges.get(a) || new Set()]. *)
Definition edge (E : JMap JSet) (a b : string) : Prop :=
  In b (get_or_empty a E).

(** One or more steps, and zero or more steps, along [edge]. *)
Definition reaches (E : JMap JSet) : string -> string -> Prop :=
  clos_trans string (edge E).
Definition reaches_refl (E : JMap JSet) : string -> string -> Prop :=
  clos_refl_trans string (edge E).

(** No name is one or more steps away from itself. *)
Definition acyclic (E : JMap JSet) : Prop := forall x, ~ reaches E x x.

(** Every forward-edge target, as [visit] reads the edges, is a node key. *)
Definition targets_known (graph : DependencyGraph) : Prop :=
  forall a b, edge (edges graph) a b -> In b (map_keys (packages graph)).

(** [b] occurs in [l] at a position strictly before an occurrence of [a]. *)
Definition appears_before (b a : string) (l : list string) : Prop :=
  exists l1 l2 l3, l = l1 ++ b :: l2 ++ a :: l3.

(** Read from the end of the result: every name is pushed after all of its
    forward-edge targets. *)
Fixpoint deps_first (E : JMap JSet) (rev_result : list string) : Prop :=
  match rev_result with
  | [] => True
  | a :: earlier =>
      (forall b, edge E a b -> In b earlier) /\ deps_first E earlier
  end.

(** Every forward pair, as the loops of [validateGraph] enumerate them, ends
    at a node. *)
Definition targets_are_nodes (graph : DependencyGraph) : Prop :=
  forall source target,
    forward_pair (edges graph) source target ->
    In target (map_keys (packages graph)).

(** What holds of the closure's variables between calls of [visit]: the
    names in [visited] are the names in [result], none twice, each after its
    forward-edge targets. *)
Definition sort_inv (E : JMap JSet) (st : SortState) : Prop :=
  (forall x, In x (visited st) <-> In x (result st)) /\
  NoDup (result st) /\
  deps_first E (rev (result st)).

(** A returning call of [visit x] from [st] to [st']. *)
Definition visit_post (E : JMap JSet) (x : string) (st st' : SortState)
  : Prop :=
  sort_inv E st' /\
  visiting st' = visiting st /\
  incl (visited st) (visited st') /\
  In x (visited st') /\
  (forall y, In y (visited st') -> In y (visiting st) -> In y (visited st)) /\
  (forall y, In y (visited st') -> In y (visited st) \/ reaches_refl E x y).

(** A returning loop over [l] from [st] to [st']. *)
Definition loop_post (E : JMap JSet) (l : list string) (st st' : SortState)
  : Prop :=
  sort_inv E st' /\
  visiting st' = visiting st /\
  incl (visited st) (visited st') /\
  (forall d, In d l -> In d (visited st')) /\
  (forall y, In y (visited st') -> In y (visiting st) -> In y (visited st)) /\
  (forall y, In y (visited st') ->
             In y (visited st) \/ exists d, In d l /\ reaches_refl E d y).

(* ================================================================== *)
(** ** findAllDependents *)
(* ================================================================== *)

(** The two sets captured by the closure [traverse].  [fd_trace] is not a
    variable of the source: it logs, in order, the names for which the body
    of [traverse] ran past its guard, and nothing reads it. *)
Record TraverseState := {
  fd_dependents : JSet;
  fd_visited : JSet;
  fd_trace : list string
}.

(** [dependents.add(dependent)] *)
Definition note_dependent (dependent : string) (st : TraverseState)
  : TraverseState :=
  {| fd_dependents := set_add dependent (fd_dependents st);
     fd_visited := fd_visited st;
     fd_trace := fd_trace st |}.

Fixpoint traverse (fuel : nat) (reverseEdges : JMap JSet) (pkg : string)
  (st : TraverseState) : outcome TraverseState :=
  match fuel with
  | O => OutOfFuel
  | S fuel' =>
      if set_has pkg (fd_visited st) then Returns st
      else
        let st1 := {| fd_dependents := fd_dependents st;
                      fd_visited := set_add pkg (fd_visited st);
                      fd_trace := fd_trace st ++ [pkg] |} in
        let directDependents := get_or_empty pkg reverseEdges in
        for_each
          (fun dependent s =>
             traverse fuel' reverseEdges dependent (note_dependent dependent s))
          directDependents st1
  end.

Definition traverse_init : TraverseState :=
  {| fd_dependents := []; fd_visited := []; fd_trace := [] |}.

(** Depth bound handed to [traverse]: one more than the number of entries
    of [reverseEdges]. *)
Definition traverse_fuel (graph : DependencyGraph) : nat :=
  S (length (reverseEdges graph)).

Definition findAllDependents (packageName : string) (graph : DependencyGraph)
  : outcome JSet :=
  match traverse (traverse_fuel graph) (reverseEdges graph)
          packageName traverse_init with
  | Returns st => Returns (fd_dependents st)
  | Throws m => Throws m
  | OutOfFuel => OutOfFuel
  end.

(** Names of [keys] not yet in [marked]: the quantity that shrinks along
    every chain of nested calls of [visit] and of [traverse]. *)
Definition unmarked (keys : list string) (marked : JSet) : nat :=
  length (filter (fun k => negb (set_has k marked)) keys).

(** Every direct dependent of [v] has been recorded and entered. *)
Definition closed_at (R : JMap JSet) (st : TraverseState) (v : string)
  : Prop :=
  forall w, edge R v w -> In w (fd_dependents st) /\ In w (fd_visited st).

(** A returning call of [traverse pkg] from [st] to [st']. *)
Definition traverse_post (R : JMap JSet) (pkg : string)
  (st st' : TraverseState) : Prop :=
  incl (fd_visited st) (fd_visited st') /\
  incl (fd_dependents st) (fd_dependents st') /\
  In pkg (fd_visited st') /\
  (forall v, In v (fd_visited st') ->
             In v (fd_visited st) \/ closed_at R st' v) /\
  (forall d, In d (fd_dependents st') ->
             In d (fd_dependents st) \/ reaches R pkg d).

(** A returning loop over the direct dependents [l]. *)
Definition traverse_loop_post (R : JMap JSet) (l : list string)
  (st st' : TraverseState) : Prop :=
  incl (fd_visited st) (fd_visited st') /\
  incl (fd_dependents st) (fd_dependents st') /\
  (forall d, In d l -> In d (fd_dependents st') /\ In d (fd_visited st')) /\
  (forall v, In v (fd_visited st') ->
             In v (fd_visited st) \/ closed_at R st' v) /\
  (forall x, In x (fd_dependents st') ->
             In x (fd_dependents st) \/
             exists d, In d l /\ (x = d \/ reaches R d x)).

(** The log agrees with [visited], and no name is in it twice. *)
Definition trace_inv (st : TraverseState) : Prop :=
  fd_trace st = fd_visited st /\ NoDup (fd_visited st).

(* ================================================================== *)
(** ** serializeGraph, deserializeGraph *)
(* ================================================================== *)

Definition serializeGraph (graph : DependencyGraph) : SerializedGraph :=
  {| ser_packages :=
       map (fun pkg => {| ser_name := name pkg;
                          ser_version := version pkg;
                          ser_path := path pkg;
                          ser_dependencies := dependencies pkg |})
           (map_values (packages graph));
     ser_edges :=
       map (fun entry : string * JSet => let (pkg, deps) := entry in (pkg, deps))
           (edges graph) |}.

Definition restore_package (pkg : SerializedPackage) : PackageInfo :=
  {| name := ser_name pkg;
     version := ser_version pkg;
     path := ser_path pkg;
     dependencies := set_of_list (ser_dependencies pkg);
     devDependencies := [];
     localDependencies := [] |}.

Definition deserializeGraph (serialized : SerializedGraph) : DependencyGraph :=
  let packages :=
    fold_left (fun packages pkg =>
                 map_set (ser_name pkg) (restore_package pkg) packages)
              (ser_packages serialized) [] in
  let edges :=
    fold_left (fun edges (entry : string * list string) =>
                 let (pkg, deps) := entry in
                 map_set pkg (set_of_list deps) edges)
              (ser_edges serialized) [] in
  {| packages := packages;
     edges := edges;
     reverseEdges := buildReverseGraph edges |}.

(** Every package sits in the node map under its own name. *)
Definition keyed_by_name (graph : DependencyGraph) : Prop :=
  forall k pkg, In (k, pkg) (packages graph) -> name pkg = k.

(** The run-time shape of the [Map]s and [Set]s of a graph. *)
Definition Graph_ok (graph : DependencyGraph) : Prop :=
  Map_ok (packages graph) /\
  Map_ok (edges graph) /\
  (forall k deps, In (k, deps) (edges graph) -> Set_ok deps).

(** What [deserializeGraph] rebuilds from the record [serializeGraph] wrote
    for [pkg]. *)
Definition reload_package (pkg : PackageInfo) : PackageInfo :=
  {| name := name pkg;
     version := version pkg;
     path := path pkg;
     dependencies := set_of_list (dependencies pkg);
     devDependencies := [];
     localDependencies := [] |}.

(** The conditions of the disk-to-memory-to-disk round trip. *)
Definition checkpoint_distinct (serialized : SerializedGraph) : Prop :=
  NoDup (map ser_name (ser_packages serialized)) /\
  NoDup (map fst (ser_edges serialized)) /\
  (forall pkg, In pkg (ser_packages serialized) ->
               NoDup (ser_dependencies pkg)) /\
  (forall entry, In entry (ser_edges serialized) -> NoDup (snd entry)).

(** What every graph made by this module satisfies, by [buildDependencyGraph]
    or by [deserializeGraph]. *)
Definition made_by_module (graph : DependencyGraph) : Prop :=
  Graph_ok graph /\
  keyed_by_name graph /\
  transpose_of (edges graph) (reverseEdges graph).

(* ================================================================== *)
(** ** validateGraph *)
(* ================================================================== *)

Definition missing_message (pkg dep : string) : string :=
  ("Package " ++ pkg ++ " depends on " ++ dep ++ " which doesn't exist")%string.

Record ValidationResult := {
  valid : bool;
  errors : list string
}.

(** The first loop nest of [validateGraph]. *)
Definition check_targets (graph : DependencyGraph) : list string :=
  fold_left
    (fun errors (entry : string * JSet) =>
       let (pkg, deps) := entry in
       fold_left
         (fun errors dep =>
            if map_has dep (packages graph) then errors
            else errors ++ [missing_message pkg dep])
         deps errors)
    (edges graph) [].

Definition validateGraph (graph : DependencyGraph) : outcome ValidationResult :=
  let errors := check_targets graph in
  match topologicalSort graph with
  | Returns _ =>
      Returns {| valid := Nat.eqb (length errors) 0; errors := errors |}
  | Throws message =>
      let errors := errors ++ [message] in
      Returns {| valid := Nat.eqb (length errors) 0; errors := errors |}
  | OutOfFuel => OutOfFuel
  end.

(** The forward pairs in the order the first loop nest meets them. *)
Definition forward_pairs (E : JMap JSet) : list (string * string) :=
  flat_map (fun entry : string * JSet =>
              map (fun dep => (fst entry, dep)) (snd entry)) E.

(** The forward pairs whose target is not a key of the node map, in loop
    order. *)
Definition missing_targets (graph : DependencyGraph)
  : list (string * string) :=
  filter (fun p => negb (map_has (snd p) (packages graph)))
         (forward_pairs (edges graph)).

(** [pre ++ part ++ post = whole] for some [pre], [post]. *)
Definition mentions (whole part : string) : Prop :=
  exists pre post, whole = (pre ++ part ++ post)%string.

(* ================================================================== *)
(** ** matchesPattern, shouldExclude, scanForPackageJsonFiles *)
(* ================================================================== *)

(** [s.replace(/c/g, by)] for a single literal character [c]. *)
Fixpoint replace_char (c : ascii) (by_ : string) (s : string) : string :=
  match s with
  | EmptyString => EmptyString
  | String a rest =>
      if Ascii.eqb a c then (by_ ++ replace_char c by_ rest)%string
      else String a (replace_char c by_ rest)
  end.

(** [s.replace(/\*\*/g, '.*')]: the pairs of stars are taken from the left,
    without overlap. *)
Fixpoint replace_double_star (s : string) : string :=
  match s with
  | EmptyString => EmptyString
  | String a rest =>
      match rest with
      | EmptyString => String a EmptyString
      | String b rest' =>
          if Ascii.eqb a "*"%char && Ascii.eqb b "*"%char
          then (".*" ++ replace_double_star rest')%string
          else String a (replace_double_star rest)
      end
  end.

(** The source of the regular expression [matchesPattern] builds, between
    [^] and [$]: the five [replace] calls in their order. *)
Definition regexPattern (pattern : string) : string :=
  replace_char "."%char "\."
    (replace_char "?"%char "."
       (replace_char "*"%char "[^/]*"
          (replace_double_star
             (replace_char "\"%char "\\" pattern)))).

(** [a || b] on calls that may throw: [b] is not evaluated when [a] is
    true or throws. *)
Definition or_else (a b : outcome bool) : outcome bool :=
  match a with
  | Returns false => b
  | other => other
  end.

(** [l.some(f)] for an [f] that may throw. *)
Fixpoint some_pattern (f : string -> outcome bool) (l : list string)
  : outcome bool :=
  match l with
  | [] => Returns false
  | x :: l' =>
      match f x with
      | Returns false => some_pattern f l'
      | other => other
      end
  end.

Section Scanner.

(** What the run time and the file system provide: [new RegExp(source)]
    ([inl] the [test] method of the compiled expression, [inr] the message
    of the [SyntaxError]), [path.basename], [path.dirname],
    [path.relative(process.cwd(), .)], [path.join], [fs.access] ([true]
    when it resolves) and [fs.readdir(., {withFileTypes: true})] (the names
    with [isDirectory()], or [inr] the error it rejects with). *)
Variable compileRegExp : string -> (string -> bool) + string.
Variable basename : string -> string.
Variable dirname : string -> string.
Variable relative : string -> string.
Variable join : string -> string -> string.
Variable access : string -> bool.
Variable readdir : string -> list (string * bool) + string.

Definition matchesPattern (filePath pattern : string) : outcome bool :=
  match compileRegExp ("^" ++ regexPattern pattern ++ "$")%string with
  | inr message => Throws message
  | inl test => Returns (test filePath || test (basename filePath))
  end.

Definition shouldExclude (packageJsonPath : string)
  (excludedPatterns : list string) : outcome bool :=
  match excludedPatterns with
  | [] => Returns false
  | _ =>
      let relativePath := relative packageJsonPath in
      some_pattern
        (fun pattern =>
           or_else (matchesPattern packageJsonPath pattern)
             (or_else (matchesPattern relativePath pattern)
                (or_else (matchesPattern (dirname packageJsonPath) pattern)
                   (matchesPattern (dirname relativePath) pattern))))
        excludedPatterns
  end.

(** [try { await fs.access(p); if (!shouldExclude(p, patterns))
    packageJsonPaths.push(p) } catch {}]: a rejected [access] and an error
    thrown by [shouldExclude] both end in the empty [catch]. *)
Definition try_candidate (excludedPatterns : list string) (p : string)
  (packageJsonPaths : list string) : list string :=
  if access p then
    match shouldExclude p excludedPatterns with
    | Returns false => packageJsonPaths ++ [p]
    | _ => packageJsonPaths
    end
  else packageJsonPaths.

Definition scanForPackageJsonFiles (directory : string)
  (excludedPatterns : list string) : outcome (list string) :=
  let packageJsonPaths :=
    try_candidate excludedPatterns (join directory "package.json") [] in
  match readdir directory with
  | inr error => Throws error
  | inl entries =>
      Returns
        (fold_left
           (fun packageJsonPaths (entry : string * bool) =>
              if snd entry then
                try_candidate excludedPatterns
                  (join (join directory (fst entry)) "package.json")
                  packageJsonPaths
              else packageJsonPaths)
           entries packageJsonPaths)
  end.

(** The manifests the scan looks for: the one of [directory] itself, then
    one per directory entry, in the order of [readdir]. *)
Definition candidates (directory : string) (entries : list (string * bool))
  : list string :=
  join directory "package.json"
  :: map (fun entry : string * bool =>
            join (join directory (fst entry)) "package.json")
         (filter (fun entry : string * bool => snd entry) entries).

(** A candidate is kept when it is there and [shouldExclude] answers
    [false]. *)
Definition kept (excludedPatterns : list string) (p : string) : bool :=
  access p &&
  match shouldExclude p excludedPatterns with
  | Returns false => true
  | _ => false
  end.

End Scanner.

(** [c] does not occur in [s]. *)
Definition absent (c : ascii) (s : string) : Prop :=
  forall pre post, s <> (pre ++ String c post)%string.

(** Every occurrence of [c] in [s] comes right after [g]. *)
Definition preceded_by (c : ascii) (g : string) (s : string) : Prop :=
  forall pre post,
    s = (pre ++ String c post)%string ->
    exists pre', pre = (pre' ++ g)%string.

(** The five [replace] calls of [matchesPattern] read as one pass over the
    pattern from the left: a backslash gives two, a pair of stars gives an
    escaped dot and [[^/]*], a star that is left gives [[^/]*], [?] and [.]
    give an escaped dot, and any other character is copied. *)
Fixpoint rewrite_glob (s : string) : string :=
  match s with
  | EmptyString => EmptyString
  | String a rest =>
      if Ascii.eqb a "*"%char then
        match rest with
        | EmptyString => "[^/]*"
        | String b rest' =>
            if Ascii.eqb b "*"%char
            then ("\.[^/]*" ++ rewrite_glob rest')%string
            else ("[^/]*" ++ rewrite_glob rest)%string
        end
      else if Ascii.eqb a "\"%char then ("\\" ++ rewrite_glob rest)%string
      else if Ascii.eqb a "?"%char then ("\." ++ rewrite_glob rest)%string
      else if Ascii.eqb a "."%char then ("\." ++ rewrite_glob rest)%string
      else String a (rewrite_glob rest)
  end.

(* ================================================================== *)
(** ** parsePackageJson, buildDependencyGraph *)
(* ================================================================== *)

(** The validated manifest as [parsePackageJson] reads it: [name] and
    [version] when present, and for each dependency field that is set the
    list [Object.keys(packageJson[depType])]. *)
Record PackageJson := {
  pj_name : option string;
  pj_version : option string;
  pj_dependencies : option (list string);
  pj_devDependencies : option (list string);
  pj_peerDependencies : option (list string);
  pj_optionalDependencies : option (list string)
}.

(** JavaScript truthiness of an optional string: [undefined] and the empty
    string are falsy. *)
Definition truthy (s : option string) : option string :=
  match s with
  | Some EmptyString => None
  | other => other
  end.

(** One round of the loop over [depTypes]; the pair is
    [(dependencies, devDependencies)]. *)
Definition collect (isDev : bool) (field : option (list string))
  (acc : JSet * JSet) : JSet * JSet :=
  match field with
  | None => acc
  | Some keys =>
      fold_left
        (fun (acc : JSet * JSet) dep =>
           (set_add dep (fst acc),
            if isDev then set_add dep (snd acc) else snd acc))
        keys acc
  end.

(** First loop of the second pass: [localDeps] and [edgesSet] receive the
    same names in the same order. *)
Definition local_pass (packages : JMap PackageInfo) (info : PackageInfo)
  : JSet * JSet :=
  fold_left
    (fun (acc : JSet * JSet) dep =>
       if map_has dep packages
       then (set_add dep (fst acc), set_add dep (snd acc))
       else acc)
    (dependencies info) ([], []).

(** [packageInfo.localDependencies = localDeps] *)
Definition with_localDependencies (info : PackageInfo) (localDeps : JSet)
  : PackageInfo :=
  {| name := name info;
     version := version info;
     path := path info;
     dependencies := dependencies info;
     devDependencies := devDependencies info;
     localDependencies := localDeps |}.

(** The second pass.  The loop walks the entries of [packages] and assigns
    to a field of the object stored at the current key: the store is
    threaded through the loop and the assignment is a [map_set] at that key,
    which leaves the key set and the order alone. *)
Definition second_pass (packages : JMap PackageInfo)
  : JMap PackageInfo * JMap JSet :=
  fold_left
    (fun (acc : JMap PackageInfo * JMap JSet)
         (entry : string * PackageInfo) =>
       let (packageName, packageInfo) := entry in
       let (localDeps, edgesSet) := local_pass packages packageInfo in
       (map_set packageName
          (with_localDependencies packageInfo localDeps) (fst acc),
        map_set packageName edgesSet (snd acc)))
    packages (packages, []).

(** What the second pass leaves at a node, and the edge set it records. *)
Definition localized (P : JMap PackageInfo) (info : PackageInfo)
  : PackageInfo :=
  with_localDependencies info (fst (local_pass P info)).
Definition edge_set (P : JMap PackageInfo) (info : PackageInfo) : JSet :=
  snd (local_pass P info).

Section Builder.

(** The collaborators outside this repository: reading, parsing and
    validating a manifest ([storage.readFile], [safeJsonParse],
    [validatePackageJson]; [inr message] when one of them throws), and
    [path.dirname]. *)
Variable loadPackageJson : string -> PackageJson + string.
Variable dirname : string -> string.

Definition parsePackageJson (packageJsonPath : string)
  : outcome PackageInfo :=
  match loadPackageJson packageJsonPath with
  | inr message => Throws message
  | inl packageJson =>
      match truthy (pj_name packageJson) with
      | None =>
          Throws ("Package at " ++ packageJsonPath
                  ++ " has no name field")%string
      | Some pkgName =>
          let sets :=
            collect false (pj_optionalDependencies packageJson)
              (collect false (pj_peerDependencies packageJson)
                 (collect true (pj_devDependencies packageJson)
                    (collect false (pj_dependencies packageJson)
                       ([], [])))) in
          Returns
            {| name := pkgName;
               version := match truthy (pj_version packageJson) with
                          | Some v => v
                          | None => "0.0.0"
                          end;
               path := dirname packageJsonPath;
               dependencies := fst sets;
               devDependencies := snd sets;
               localDependencies := [] |}
      end
  end.

(** The first pass: parse every manifest, later names overwrite. *)
Fixpoint first_pass (packageJsonPaths : list string)
  (packages : JMap PackageInfo) : outcome (JMap PackageInfo) :=
  match packageJsonPaths with
  | [] => Returns packages
  | packageJsonPath :: rest =>
      match parsePackageJson packageJsonPath with
      | Returns packageInfo =>
          first_pass rest (map_set (name packageInfo) packageInfo packages)
      | Throws m => Throws m
      | OutOfFuel => OutOfFuel
      end
  end.

Definition buildDependencyGraph (packageJsonPaths : list string)
  : outcome DependencyGraph :=
  match first_pass packageJsonPaths [] with
  | Returns packages0 =>
      let (packages, edges) := second_pass packages0 in
      Returns {| packages := packages;
                 edges := edges;
                 reverseEdges := buildReverseGraph edges |}
  | Throws m => Throws m
  | OutOfFuel => OutOfFuel
  end.

End Builder.

(* ================================================================== *)
(** ** Graphs of the test suite and of the scenarios *)
(* ================================================================== *)

(** [createMockGraph] of tests/dependencyGraph.test.ts; [structure] lists
    the properties of the object in the order of [Object.keys]. *)
Definition createMockGraph (structure : list (string * list string))
  : DependencyGraph :=
  let maps :=
    fold_left
      (fun (acc : JMap PackageInfo * JMap JSet)
           (entry : string * list string) =>
         let (pkgName, deps) := entry in
         (map_set pkgName
            {| name := pkgName;
               version := "1.0.0";
               path := ("/fake/path/" ++ pkgName)%string;
               dependencies := set_of_list deps;
               devDependencies := [];
               localDependencies := set_of_list deps |} (fst acc),
          map_set pkgName (set_of_list deps) (snd acc)))
      structure ([], []) in
  {| packages := fst maps;
     edges := snd maps;
     reverseEdges := buildReverseGraph (snd maps) |}.

(** [{a: [], b: [a], c: [a, b]}] *)
Definition graph_abc : DependencyGraph :=
  createMockGraph [("a", []); ("b", ["a"]); ("c", ["a"; "b"])].

(** [{a: [b], b: [a]}] *)
Definition graph_cycle : DependencyGraph :=
  createMockGraph [("a", ["b"]); ("b", ["a"])].

(** [{a: [nonexistent]}], the graph of 'should detect missing
    dependencies'. *)
Definition graph_missing : DependencyGraph :=
  createMockGraph [("a", ["nonexistent"])].

(** A checkpoint with one package [b] and an edge pair whose source [a] is
    not among the packages, and the graph restored from it. *)
Definition checkpoint_stray : SerializedGraph :=
  {| ser_packages := [ {| ser_name := "b"; ser_version := "1.0.0";
                          ser_path := "/ws/b"; ser_dependencies := [] |} ];
     ser_edges := [("a", ["b"])] |}.
Definition graph_stray : DependencyGraph := deserializeGraph checkpoint_stray.

(** A checkpoint with the packages [p], [a] and [b], where [a] and [b]
    depend on each other and [p] depends on [q], a name that is no package
    and has an edge pair to itself; and the graph restored from it. *)
Definition checkpoint_outsider : SerializedGraph :=
  {| ser_packages :=
       [ {| ser_name := "p"; ser_version := "1.0.0";
            ser_path := "/ws/p"; ser_dependencies := ["q"] |};
         {| ser_name := "a"; ser_version := "1.0.0";
            ser_path := "/ws/a"; ser_dependencies := ["b"] |};
         {| ser_name := "b"; ser_version := "1.0.0";
            ser_path := "/ws/b"; ser_dependencies := ["a"] |} ];
     ser_edges := [("p", ["q"]); ("q", ["q"]); ("a", ["b"]); ("b", ["a"])] |}.
Definition graph_outsider : DependencyGraph :=
  deserializeGraph checkpoint_outsider.

(** A graph value whose only package is stored under a key that is not its
    name, and one whose [reverseEdges] was not derived from [edges]. *)
Definition graph_misfiled : DependencyGraph :=
  {| packages := [("x", {| name := "y"; version := "1.0.0"; path := "/ws/y";
                           dependencies := []; devDependencies := [];
                           localDependencies := [] |})];
     edges := [];
     reverseEdges := [] |}.
Definition graph_underived : DependencyGraph :=
  {| packages := (packages graph_abc);
     edges := (edges graph_abc);
     reverseEdges := [] |}.

(** A workspace of two manifests, [/ws/app] depending on [lib] and on the
    published [lodash], and [/ws/lib]. *)
Definition demo_load (packageJsonPath : string) : PackageJson + string :=
  if String.eqb packageJsonPath "/ws/app/package.json" then
    inl {| pj_name := Some "app"; pj_version := Some "2.1.0";
           pj_dependencies := Some ["lib"; "lodash"];
           pj_devDependencies := Some ["vitest"];
           pj_peerDependencies := None;
           pj_optionalDependencies := None |}
  else if String.eqb packageJsonPath "/ws/lib/package.json" then
    inl {| pj_name := Some "lib"; pj_version := None;
           pj_dependencies := None;
           pj_devDependencies := Some ["vitest"];
           pj_peerDependencies := None;
           pj_optionalDependencies := None |}
  else inr "ENOENT".
Definition demo_dirname (p : string) : string :=
  if String.eqb p "/ws/app/package.json" then "/ws/app"
  else if String.eqb p "/ws/lib/package.json" then "/ws/lib"
  else p.
Definition demo_paths : list string :=
  ["/ws/app/package.json"; "/ws/lib/package.json"].

(** [{pkg-a: [], pkg-b: [pkg-a], pkg-c: [pkg-a, pkg-b]}], the graph of
    'should round-trip correctly', and its checkpoint. *)
Definition graph_roundtrip : DependencyGraph :=
  createMockGraph
    [("pkg-a", []); ("pkg-b", ["pkg-a"]); ("pkg-c", ["pkg-a"; "pkg-b"])].
Definition checkpoint_roundtrip : SerializedGraph :=
  serializeGraph graph_roundtrip.

(** The graph built from the demo workspace. *)
Definition demo_app : PackageInfo :=
  {| name := "app"; version := "2.1.0"; path := "/ws/app";
     dependencies := ["lib"; "lodash"; "vitest"];
     devDependencies := ["vitest"];
     localDependencies := ["lib"] |}.
Definition demo_lib : PackageInfo :=
  {| name := "lib"; version := "0.0.0"; path := "/ws/lib";
     dependencies := ["vitest"];
     devDependencies := ["vitest"];
     localDependencies := [] |}.
Definition demo_graph : DependencyGraph :=
  {| packages := [("app", demo_app); ("lib", demo_lib)];
     edges := [("app", ["lib"]); ("lib", [])];
     reverseEdges := [("lib", ["app"])] |}.

(** [MockGraphPatterns] of the test suite. *)
Definition pattern_linear4 : DependencyGraph :=
  createMockGraph
    [("package-0", []); ("package-1", ["package-0"]);
     ("package-2", ["package-1"]); ("package-3", ["package-2"])].
Definition pattern_diamond : DependencyGraph :=
  createMockGraph
    [("package-a", []); ("package-b", ["package-a"]);
     ("package-c", ["package-a"]); ("package-d", ["package-b"; "package-c"])].
Definition pattern_circular : DependencyGraph :=
  createMockGraph
    [("package-a", ["package-b"]); ("package-b", ["package-c"]);
     ("package-c", ["package-a"])].
Definition pattern_complex : DependencyGraph :=
  createMockGraph
    [("package-a", []); ("package-b", ["package-a"]);
     ("package-c", ["package-a"]); ("package-d", ["package-b"]);
     ("package-e", ["package-c"]); ("package-f", ["package-d"; "package-e"])].

(** The last element of [l] that satisfies [f]. *)
Fixpoint find_last {A : Type} (f : A -> bool) (l : list A) : option A :=
  match l with
  | [] => None
  | x :: l' =>
      match find_last f l' with
      | Some y => Some y
      | None => if f x then Some x else None
      end
  end.

(** A checkpoint that names [pkg] twice, with different versions, and lists
    one dependency twice. *)
Definition checkpoint_repeats : SerializedGraph :=
  {| ser_packages :=
       [ {| ser_name := "pkg"; ser_version := "1.0.0"; ser_path := "/old";
            ser_dependencies := ["x"; "y"; "x"] |};
         {| ser_name := "other"; ser_version := "0.1.0"; ser_path := "/o";
            ser_dependencies := [] |};
         {| ser_name := "pkg"; ser_version := "2.0.0"; ser_path := "/new";
            ser_dependencies := ["z"; "z"] |} ];
     ser_edges := [("pkg", ["other"]); ("pkg", ["other"; "other"])] |}.

(** [Object.keys(packageJson[depType])] of a field, nothing when the field
    is not set. *)
Definition field_keys (field : option (list string)) : list string :=
  match field with Some keys => keys | None => [] end.

(** A workspace in which two manifests declare the name [dup]: [/ws/a]
    first, [/ws/b] second; [/ws/c] depends on [dup]; [/ws/bad] has no
    name. *)
Definition clash_load (packageJsonPath : string) : PackageJson + string :=
  if String.eqb packageJsonPath "/ws/a/package.json" then
    inl {| pj_name := Some "dup"; pj_version := Some "1.0.0";
           pj_dependencies := Some ["left-pad"];
           pj_devDependencies := None;
           pj_peerDependencies := None;
           pj_optionalDependencies := None |}
  else if String.eqb packageJsonPath "/ws/b/package.json" then
    inl {| pj_name := Some "dup"; pj_version := Some "2.0.0";
           pj_dependencies := None;
           pj_devDependencies := None;
           pj_peerDependencies := Some ["c"];
           pj_optionalDependencies := None |}
  else if String.eqb packageJsonPath "/ws/c/package.json" then
    inl {| pj_name := Some "c"; pj_version := Some "";
           pj_dependencies := Some ["dup"];
           pj_devDependencies := None;
           pj_peerDependencies := None;
           pj_optionalDependencies := Some ["dup"; "fsevents"] |}
  else if String.eqb packageJsonPath "/ws/bad/package.json" then
    inl {| pj_name := Some ""; pj_version := Some "1.0.0";
           pj_dependencies := None;
           pj_devDependencies := None;
           pj_peerDependencies := None;
           pj_optionalDependencies := None |}
  else inr "ENOENT: no such file or directory".
Definition clash_paths : list string :=
  ["/ws/a/package.json"; "/ws/c/package.json"; "/ws/b/package.json"].

(** [path.dirname] on the manifests of the clash workspace. *)
Definition clash_dirname (p : string) : string :=
  if String.eqb p "/ws/a/package.json" then "/ws/a"
  else if String.eqb p "/ws/b/package.json" then "/ws/b"
  else if String.eqb p "/ws/c/package.json" then "/ws/c"
  else p.

(** What the builder makes of the clash workspace. *)
Definition clash_dup : PackageInfo :=
  {| name := "dup"; version := "2.0.0"; path := "/ws/b";
     dependencies := ["c"]; devDependencies := [];
     localDependencies := ["c"] |}.
Definition clash_c : PackageInfo :=
  {| name := "c"; version := "0.0.0"; path := "/ws/c";
     dependencies := ["dup"; "fsevents"]; devDependencies := [];
     localDependencies := ["dup"] |}.
Definition clash_graph : DependencyGraph :=
  {| packages := [("dup", clash_dup); ("c", clash_c)];
     edges := [("dup", ["c"]); ("c", ["dup"])];
     reverseEdges := [("c", ["dup"]); ("dup", ["c"])] |}.

(** The demo workspace on disk: [/ws] holds the directories [app], [lib]
    and [docs] and a file; [app] and [lib] have a manifest. *)
Definition demo_join (a b : string) : string := (a ++ "/" ++ b)%string.
Definition demo_access (p : string) : bool :=
  String.eqb p "/ws/app/package.json" || String.eqb p "/ws/lib/package.json".
Definition demo_readdir (directory : string)
  : list (string * bool) + string :=
  if String.eqb directory "/ws"
  then inl [("app", true); ("README.md", false); ("lib", true); ("docs", true)]
  else inr "ENOENT: no such file or directory, scandir".
(** A run time that refuses every expression. *)
Definition refuse_all (source : string) : (string -> bool) + string :=
  inr "Invalid regular expression".

(* ================================================================== *)
(** * Proofs *)
(* ================================================================== *)

(* ================================================================== *)
(** ** Facts about sets and maps *)
(* ================================================================== *)

Lemma set_has_true x s : set_has x s = true <-> In x s.
Proof.
  unfold set_has. rewrite existsb_exists. split.
  - intros [y [Hy He]]. apply String.eqb_eq in He. now subst.
  - intros H. exists x. split; [assumption | apply String.eqb_refl].
Qed.

Lemma set_has_false x s : set_has x s = false <-> ~ In x s.
Proof.
  rewrite <- set_has_true. destruct (set_has x s); split; congruence.
Qed.

Lemma set_add_In x y s : In y (set_add x s) <-> In y s \/ y = x.
Proof.
  unfold set_add. destruct (set_has x s) eqn:E.
  - apply set_has_true in E. split; [auto | intros [H | ->]; assumption].
  - rewrite in_app_iff. simpl. intuition congruence.
Qed.

Lemma set_add_NoDup x s : NoDup s -> NoDup (set_add x s).
Proof.
  intros H. unfold set_add. destruct (set_has x s) eqn:E; [assumption |].
  apply set_has_false in E.
  apply NoDup_app; [assumption | constructor; [intros [] | constructor] |].
  intros y Hy [<- | []]. contradiction.
Qed.

Lemma set_add_absent x s : ~ In x s -> set_add x s = s ++ [x].
Proof.
  intros H. unfold set_add. apply set_has_false in H. now rewrite H.
Qed.

Lemma set_delete_absent x s : ~ In x s -> set_delete x s = s.
Proof.
  unfold set_delete. induction s as [| y s IH]; simpl; intros H; [reflexivity |].
  destruct (String.eqb_spec x y) as [-> | Hn]; simpl.
  - exfalso. apply H. now left.
  - f_equal. apply IH. intros Hi. apply H. now right.
Qed.

Lemma set_delete_add x s : ~ In x s -> set_delete x (set_add x s) = s.
Proof.
  intros H. rewrite (set_add_absent _ _ H). unfold set_delete.
  rewrite filter_app. simpl. rewrite String.eqb_refl. simpl.
  rewrite app_nil_r. now apply set_delete_absent.
Qed.

Lemma set_of_list_acc l : forall acc,
  NoDup (acc ++ l) -> fold_left (fun s x => set_add x s) l acc = acc ++ l.
Proof.
  induction l as [| x l IH]; simpl; intros acc H.
  - now rewrite app_nil_r.
  - rewrite set_add_absent.
    + replace (acc ++ x :: l) with ((acc ++ [x]) ++ l)
        by (rewrite <- app_assoc; reflexivity).
      apply IH. rewrite <- app_assoc. exact H.
    + apply NoDup_remove_2 in H. intros Hi. apply H. apply in_or_app. now left.
Qed.

Lemma set_of_list_NoDup l : NoDup l -> set_of_list l = l.
Proof. intros H. unfold set_of_list. now rewrite set_of_list_acc. Qed.

Lemma map_get_set_eq {V} k (v : V) m : map_get k (map_set k v m) = Some v.
Proof.
  induction m as [| [k' v'] m IH]; simpl.
  - now rewrite String.eqb_refl.
  - destruct (String.eqb_spec k k') as [-> | Hn]; simpl.
    + now rewrite String.eqb_refl.
    + apply String.eqb_neq in Hn. now rewrite Hn.
Qed.

Lemma map_get_set_neq {V} k k' (v : V) m :
  k <> k' -> map_get k' (map_set k v m) = map_get k' m.
Proof.
  intros Hn. induction m as [| [k0 v0] m IH]; simpl.
  - apply not_eq_sym, String.eqb_neq in Hn. now rewrite Hn.
  - destruct (String.eqb_spec k k0) as [-> | Hk]; simpl.
    + apply not_eq_sym, String.eqb_neq in Hn. now rewrite Hn.
    + destruct (String.eqb k' k0); [reflexivity | exact IH].
Qed.

Lemma map_get_In {V} k (v : V) m : map_get k m = Some v -> In (k, v) m.
Proof.
  induction m as [| [k' v'] m IH]; simpl; [discriminate |].
  destruct (String.eqb_spec k k') as [-> | Hn].
  - intros [= ->]. now left.
  - intros H. right. now apply IH.
Qed.

Lemma map_get_None {V} k (m : JMap V) :
  map_get k m = None <-> ~ In k (map_keys m).
Proof.
  induction m as [| [k' v'] m IH]; simpl.
  - intuition.
  - destruct (String.eqb_spec k k') as [-> | Hn].
    + split; [discriminate | intros H; exfalso; apply H; now left].
    + rewrite IH. intuition congruence.
Qed.

Lemma In_map_get {V} k (v : V) m :
  Map_ok m -> In (k, v) m -> map_get k m = Some v.
Proof.
  unfold Map_ok. induction m as [| [k' v'] m IH]; simpl; [intros _ [] |].
  intros Hnd [[= -> ->] | Hin].
  - now rewrite String.eqb_refl.
  - inversion Hnd as [| ? ? Hni Hnd']; subst.
    destruct (String.eqb_spec k k') as [-> | Hn].
    + exfalso. apply Hni. change k' with (fst (k', v)). now apply in_map.
    + now apply IH.
Qed.

Lemma map_has_true {V} k (m : JMap V) :
  map_has k m = true <-> In k (map_keys m).
Proof.
  unfold map_has. destruct (map_get k m) eqn:E.
  - split; [intros _ | reflexivity].
    apply map_get_In in E. change k with (fst (k, v)). now apply in_map.
  - apply map_get_None in E. split; [discriminate | contradiction].
Qed.

Lemma map_set_keys_present {V} k (v : V) m :
  In k (map_keys m) -> map_keys (map_set k v m) = map_keys m.
Proof.
  induction m as [| [k' v'] m IH]; simpl; [intros [] |].
  destruct (String.eqb_spec k k') as [-> | Hn]; simpl; [reflexivity |].
  intros [He | Hin]; [congruence | f_equal; now apply IH].
Qed.

Lemma map_set_absent {V} k (v : V) m :
  ~ In k (map_keys m) -> map_set k v m = m ++ [(k, v)].
Proof.
  induction m as [| [k' v'] m IH]; simpl; intros H; [reflexivity |].
  destruct (String.eqb_spec k k') as [-> | Hn].
  - exfalso. apply H. now left.
  - f_equal. apply IH. intros Hi. apply H. now right.
Qed.

Lemma map_set_Map_ok {V} k (v : V) m : Map_ok m -> Map_ok (map_set k v m).
Proof.
  unfold Map_ok. intros H. destruct (in_dec string_dec k (map_keys m)) as [Hi | Hn].
  - now rewrite map_set_keys_present.
  - rewrite map_set_absent by assumption. unfold map_keys. rewrite map_app. simpl.
    apply NoDup_app; [assumption | constructor; [intros [] | constructor] |].
    intros y Hy [<- | []]. contradiction.
Qed.

Lemma get_or_empty_In k x m :
  In x (get_or_empty k m) <-> exists s, map_get k m = Some s /\ In x s.
Proof.
  unfold get_or_empty. destruct (map_get k m) as [s |].
  - split; [intros H; now exists s | intros [s' [[= <-] H]]; exact H].
  - split; [intros [] | intros [s' [[=] _]]].
Qed.

(* ================================================================== *)
(** ** buildReverseGraph is the transpose *)
(* ================================================================== *)

Lemma add_dependent_get pkg R dep t :
  map_get t (add_dependent pkg R dep) =
  if String.eqb dep t then Some (set_add pkg (get_or_empty dep R))
  else map_get t R.
Proof.
  unfold add_dependent, map_has, get_or_empty.
  destruct (map_get dep R) as [s |] eqn:Hd.
  - rewrite Hd. destruct (String.eqb_spec dep t) as [<- | Hn].
    + apply map_get_set_eq.
    + now apply map_get_set_neq.
  - rewrite map_get_set_eq. destruct (String.eqb_spec dep t) as [<- | Hn].
    + apply map_get_set_eq.
    + now rewrite !map_get_set_neq.
Qed.

Lemma add_dependent_members pkg R dep t s :
  In s (get_or_empty t (add_dependent pkg R dep)) <->
  In s (get_or_empty t R) \/ (t = dep /\ s = pkg).
Proof.
  unfold get_or_empty at 1. rewrite add_dependent_get.
  destruct (String.eqb_spec dep t) as [<- | Hn].
  - rewrite set_add_In. intuition.
  - fold (get_or_empty t R). intuition congruence.
Qed.

Lemma add_dependent_no_empty pkg R dep :
  no_empty_set R -> no_empty_set (add_dependent pkg R dep).
Proof.
  intros H t s. rewrite add_dependent_get.
  destruct (String.eqb dep t); [| apply H].
  intros [= <-] He.
  assert (Hin : In pkg (set_add pkg (get_or_empty dep R)))
    by (apply set_add_In; now right).
  rewrite He in Hin. destruct Hin.
Qed.

Lemma inner_loop_members pkg deps : forall R t s,
  In s (get_or_empty t (fold_left (add_dependent pkg) deps R)) <->
  In s (get_or_empty t R) \/ (s = pkg /\ In t deps).
Proof.
  induction deps as [| d deps IH]; simpl; intros R t s.
  - intuition.
  - rewrite IH, add_dependent_members. intuition.
Qed.

Lemma inner_loop_no_empty pkg deps : forall R,
  no_empty_set R -> no_empty_set (fold_left (add_dependent pkg) deps R).
Proof.
  induction deps as [| d deps IH]; simpl; intros R H; [exact H |].
  apply IH. now apply add_dependent_no_empty.
Qed.

Lemma outer_loop_members E : forall R t s,
  In s (get_or_empty t (fold_left reverse_step E R)) <->
  In s (get_or_empty t R) \/ forward_pair E s t.
Proof.
  unfold forward_pair.
  induction E as [| [pkg deps] E IH]; simpl; intros R t s.
  - split; [auto | intros [H | [deps [[] _]]]; exact H].
  - rewrite IH, inner_loop_members. split.
    + intros [[H | [-> H]] | [deps' [H1 H2]]].
      * now left.
      * right. exists deps. auto.
      * right. exists deps'. auto.
    + intros [H | [deps' [[[= <- <-] | H1] H2]]].
      * left. now left.
      * left. right. auto.
      * right. exists deps'. auto.
Qed.

Lemma outer_loop_no_empty E : forall R,
  no_empty_set R -> no_empty_set (fold_left reverse_step E R).
Proof.
  induction E as [| [pkg deps] E IH]; simpl; intros R H; [exact H |].
  apply IH. now apply inner_loop_no_empty.
Qed.

Lemma buildReverseGraph_transpose_of E : transpose_of E (buildReverseGraph E).
Proof.
  split.
  - intros s t. unfold buildReverseGraph.
    rewrite outer_loop_members. simpl. intuition.
  - apply outer_loop_no_empty. intros t s [=].
Qed.

(** Two transposes of the same forward edges are the same map of sets. *)
Lemma transpose_of_unique E R1 R2 :
  transpose_of E R1 -> transpose_of E R2 -> Map_equiv R1 R2.
Proof.
  intros [H1 N1] [H2 N2] k.
  assert (Hm : forall x, In x (get_or_empty k R1) <-> In x (get_or_empty k R2))
    by (intros x; now rewrite H1, H2).
  unfold get_or_empty in Hm.
  destruct (map_get k R1) as [s1 |] eqn:E1, (map_get k R2) as [s2 |] eqn:E2.
  - exact Hm.
  - destruct s1 as [| x s1]; [now apply (N1 k []) |].
    apply (Hm x). now left.
  - destruct s2 as [| x s2]; [now apply (N2 k []) |].
    apply (Hm x). now left.
  - exact I.
Qed.

(** C7.  [buildReverseGraph(E)] is the exact transpose of [E]: [source] is
    in the set stored at [target] exactly when [(source, target)] is a
    forward pair of [E]; a name without dependents has no entry; and no
    entry holds an empty set. *)
Theorem buildReverseGraph_exact_transpose (E : JMap JSet) :
  (forall source target,
      (exists s, map_get target (buildReverseGraph E) = Some s /\ In source s)
      <-> forward_pair E source target) /\
  (forall target,
      (forall source, ~ forward_pair E source target) ->
      map_get target (buildReverseGraph E) = None) /\
  (forall target s,
      map_get target (buildReverseGraph E) = Some s -> s <> []).
Proof.
  destruct (buildReverseGraph_transpose_of E) as [Hm Hn].
  split; [| split].
  - intros source target. rewrite <- get_or_empty_In. apply Hm.
  - intros target Hnone.
    destruct (map_get target (buildReverseGraph E)) as [s |] eqn:Hg;
      [| reflexivity].
    destruct s as [| x s]; [now apply Hn in Hg |].
    exfalso. apply (Hnone x), Hm. unfold get_or_empty. rewrite Hg. now left.
  - exact Hn.
Qed.

(* ================================================================== *)
(** ** Loops *)
(* ================================================================== *)

Lemma for_each_frame {St : Type} (body : string -> St -> outcome St)
  (R : St -> St -> Prop) :
  (forall st, R st st) ->
  (forall a b c, R a b -> R b c -> R a c) ->
  forall l,
    (forall x st st', In x l -> body x st = Returns st' -> R st st') ->
    forall st st', for_each body l st = Returns st' -> R st st'.
Proof.
  intros Hrefl Htrans. induction l as [| x l IH]; simpl; intros Hb st st' H.
  - injection H as <-. apply Hrefl.
  - destruct (body x st) as [st1 | m |] eqn:Hx; try discriminate.
    apply Htrans with st1.
    + apply (Hb x); [now left | exact Hx].
    + apply IH; [| exact H]. intros y s s' Hy. apply Hb. now right.
Qed.

(** A loop that throws returned from a prefix and threw at the next name. *)
Lemma for_each_Throws {St : Type} (body : string -> St -> outcome St) l :
  forall st m, for_each body l st = Throws m ->
  exists l1 x l2 st1,
    l = l1 ++ x :: l2 /\ for_each body l1 st = Returns st1 /\
    body x st1 = Throws m.
Proof.
  induction l as [| x l IH]; simpl; intros st m H; [discriminate |].
  destruct (body x st) as [st1 | m' |] eqn:Hx; try discriminate.
  - destruct (IH _ _ H) as (l1 & y & l2 & s & -> & H1 & H2).
    exists (x :: l1), y, l2, s. simpl. rewrite Hx. auto.
  - injection H as <-. exists [], x, l, st. auto.
Qed.

Lemma for_each_OutOfFuel {St : Type} (body : string -> St -> outcome St) l :
  forall st, for_each body l st = OutOfFuel ->
  exists l1 x l2 st1,
    l = l1 ++ x :: l2 /\ for_each body l1 st = Returns st1 /\
    body x st1 = OutOfFuel.
Proof.
  induction l as [| x l IH]; simpl; intros st H; [discriminate |].
  destruct (body x st) as [st1 | m' |] eqn:Hx; try discriminate.
  - destruct (IH _ H) as (l1 & y & l2 & s & -> & H1 & H2).
    exists (x :: l1), y, l2, s. simpl. rewrite Hx. auto.
  - exists [], x, l, st. auto.
Qed.

(* ================================================================== *)
(** ** The depth measure *)
(* ================================================================== *)

Lemma unmarked_mono keys m1 m2 :
  incl m1 m2 -> unmarked keys m2 <= unmarked keys m1.
Proof.
  intros Hi. unfold unmarked. induction keys as [| k keys IH]; simpl; [lia |].
  destruct (set_has k m2) eqn:H2; simpl.
  - destruct (set_has k m1); simpl; lia.
  - assert (H1 : set_has k m1 = false).
    { apply set_has_false. intros H. apply set_has_false in H2. auto. }
    rewrite H1. simpl. lia.
Qed.

Lemma unmarked_add_lt keys x marked :
  In x keys -> ~ In x marked ->
  unmarked keys (set_add x marked) < unmarked keys marked.
Proof.
  intros Hk Hm. unfold unmarked.
  induction keys as [| k keys IH]; simpl; [destruct Hk |].
  assert (Hle : unmarked keys (set_add x marked) <= unmarked keys marked).
  { apply unmarked_mono. intros y Hy. apply set_add_In. now left. }
  unfold unmarked in Hle.
  destruct Hk as [-> | Hk].
  - assert (H1 : set_has x (set_add x marked) = true)
      by (apply set_has_true, set_add_In; now right).
    apply set_has_false in Hm. rewrite H1, Hm. simpl. lia.
  - specialize (IH Hk).
    destruct (set_has k marked) eqn:H2; simpl.
    + assert (H1 : set_has k (set_add x marked) = true).
      { apply set_has_true, set_add_In. left. now apply set_has_true. }
      rewrite H1. simpl. exact IH.
    + destruct (set_has k (set_add x marked)); simpl; lia.
Qed.

Lemma unmarked_nil keys : unmarked keys [] = length keys.
Proof.
  unfold unmarked. induction keys as [| k keys IH]; simpl; [reflexivity |].
  f_equal. exact IH.
Qed.

Lemma get_or_empty_key x d (E : JMap JSet) :
  In d (get_or_empty x E) -> In x (map_keys E).
Proof.
  unfold get_or_empty. destruct (map_get x E) eqn:H; [| intros []].
  intros _. apply map_get_In in H. change x with (fst (x, j)). now apply in_map.
Qed.

(* ================================================================== *)
(** ** visit: what a returning call leaves behind *)
(* ================================================================== *)

Lemma visit_frame E fuel : forall x st st',
  visit fuel E x st = Returns st' ->
  visiting st' = visiting st /\ incl (visited st) (visited st').
Proof.
  induction fuel as [| fuel IH]; simpl; intros x st st' H; [discriminate |].
  destruct (set_has x (visited st)) eqn:Hv.
  - injection H as <-. split; [reflexivity | apply incl_refl].
  - destruct (set_has x (visiting st)) eqn:Hg; [discriminate |].
    destruct (for_each _ _ _) as [st2 | |] eqn:Hl; try discriminate.
    injection H as <-. simpl.
    apply (for_each_frame _
             (fun a b => visiting b = visiting a /\
                         incl (visited a) (visited b))) in Hl.
    + simpl in Hl. destruct Hl as [Hl1 Hl2]. split.
      * rewrite Hl1. apply set_delete_add. now apply set_has_false.
      * intros y Hy. apply set_add_In. left. now apply Hl2.
    + intros s. split; [reflexivity | apply incl_refl].
    + intros a b c [H1 H2] [H3 H4]. split; [congruence |].
      eapply incl_tran; eassumption.
    + intros y s s' _. apply IH.
Qed.

Lemma visit_root_frame E fuel x st st' :
  visit_root fuel E x st = Returns st' ->
  visiting st' = visiting st /\ incl (visited st) (visited st').
Proof.
  unfold visit_root. destruct (set_has x (visited st)).
  - intros [= <-]. split; [reflexivity | apply incl_refl].
  - apply visit_frame.
Qed.

Lemma loop_visiting (body : string -> SortState -> outcome SortState) l :
  (forall x st st', body x st = Returns st' -> visiting st' = visiting st) ->
  forall st st', for_each body l st = Returns st' ->
                 visiting st' = visiting st.
Proof.
  intros Hb st st'.
  apply (for_each_frame body (fun a b => visiting b = visiting a)).
  - reflexivity.
  - congruence.
  - intros x s s' _. apply Hb.
Qed.

Lemma loop_spec E (body : string -> SortState -> outcome SortState) :
  (forall x st st',
      sort_inv E st -> body x st = Returns st' -> visit_post E x st st') ->
  forall l st st',
    sort_inv E st -> for_each body l st = Returns st' -> loop_post E l st st'.
Proof.
  intros Hb. induction l as [| d l IH]; simpl; intros st st' Hinv H.
  - injection H as <-.
    refine (conj Hinv (conj eq_refl (conj (incl_refl _) (conj _ (conj _ _))))).
    + intros d [].
    + auto.
    + intros y Hy. now left.
  - destruct (body d st) as [sm | |] eqn:Hd; try discriminate.
    destruct (Hb _ _ _ Hinv Hd) as (Hi1 & Hg1 & Hs1 & Hx1 & Hp1 & Hr1).
    destruct (IH _ _ Hi1 H) as (Hi2 & Hg2 & Hs2 & Hx2 & Hp2 & Hr2).
    refine (conj Hi2 (conj _ (conj _ (conj _ (conj _ _))))).
    + congruence.
    + eapply incl_tran; eassumption.
    + intros d' [<- | Hd']; auto.
    + intros y Hy Hg. apply Hp1; [| exact Hg].
      apply Hp2; [exact Hy | congruence].
    + intros y Hy. destruct (Hr2 y Hy) as [Hm | (d' & Hd' & Hr)].
      * destruct (Hr1 y Hm) as [Ho | Hr]; [now left |].
        right. exists d. split; [now left | exact Hr].
      * right. exists d'. split; [now right | exact Hr].
Qed.

Lemma visit_spec E fuel : forall x st st',
  sort_inv E st -> visit fuel E x st = Returns st' -> visit_post E x st st'.
Proof.
  induction fuel as [| fuel IH]; simpl; intros x st st' Hinv H; [discriminate |].
  destruct (set_has x (visited st)) eqn:Hv.
  - injection H as <-. apply set_has_true in Hv.
    refine (conj Hinv (conj eq_refl (conj (incl_refl _) (conj Hv (conj _ _)))));
      auto.
  - destruct (set_has x (visiting st)) eqn:Hg; [discriminate |].
    destruct (for_each _ _ _) as [st2 | |] eqn:Hl; try discriminate.
    injection H as <-.
    apply set_has_false in Hv, Hg.
    apply (loop_spec E _ IH) in Hl; [| exact Hinv].
    destruct Hl as ((Ha & Hn & Hf) & Hg2 & Hs2 & Hx2 & Hp2 & Hr2).
    simpl in Hg2, Hs2, Hp2, Hr2.
    assert (Hx : ~ In x (visited st2)).
    { intros Hc. apply Hv, Hp2; [exact Hc |]. apply set_add_In. now right. }
    unfold visit_post, sort_inv. simpl.
    refine (conj (conj _ (conj _ _)) (conj _ (conj _ (conj _ (conj _ _))))).
    + intros y. rewrite set_add_In, in_app_iff. simpl. rewrite Ha. intuition.
    + apply NoDup_app; [exact Hn | constructor; [intros [] | constructor] |].
      intros y Hy [<- | []]. apply Hx, Ha, Hy.
    + rewrite rev_app_distr. simpl. split; [| exact Hf].
      intros b Hb. apply in_rev. rewrite rev_involutive. apply Ha, Hx2, Hb.
    + rewrite Hg2. now apply set_delete_add.
    + intros y Hy. apply set_add_In. left. now apply Hs2.
    + apply set_add_In. now right.
    + intros y Hy Hyg. apply set_add_In in Hy. destruct Hy as [Hy | ->].
      * apply Hp2; [exact Hy |]. apply set_add_In. now left.
      * contradiction.
    + intros y Hy. apply set_add_In in Hy. destruct Hy as [Hy | ->].
      * destruct (Hr2 y Hy) as [Ho | (d & Hd & Hr)]; [now left |].
        right. eapply rt_trans; [apply rt_step; exact Hd | exact Hr].
      * right. apply rt_refl.
Qed.

Lemma visit_root_spec E fuel x st st' :
  sort_inv E st -> visit_root fuel E x st = Returns st' ->
  visit_post E x st st'.
Proof.
  unfold visit_root. intros Hinv. destruct (set_has x (visited st)) eqn:Hv.
  - intros [= <-]. apply set_has_true in Hv.
    refine (conj Hinv (conj eq_refl (conj (incl_refl _) (conj Hv (conj _ _)))));
      auto.
  - now apply visit_spec.
Qed.

Lemma sort_init_inv E : sort_inv E sort_init.
Proof.
  unfold sort_inv, sort_init. simpl.
  split; [reflexivity | split; [constructor | exact I]].
Qed.

(* ================================================================== *)
(** ** visit: the depth bound is enough *)
(* ================================================================== *)

Lemma visit_fuel E fuel : forall x st,
  unmarked (map_keys E) (visiting st) < fuel ->
  visit fuel E x st <> OutOfFuel.
Proof.
  induction fuel as [| fuel IH]; simpl; intros x st Hm; [lia |].
  destruct (set_has x (visited st)); [discriminate |].
  destruct (set_has x (visiting st)) eqn:Hg; [discriminate |].
  destruct (for_each _ _ _) as [st2 | |] eqn:Hl; try discriminate.
  exfalso.
  apply for_each_OutOfFuel in Hl.
  destruct Hl as (l1 & d & l2 & sd & Hdeps & Hl1 & Hd).
  apply (loop_visiting (visit fuel E)) in Hl1;
    [| intros y s s' Hy; now apply visit_frame in Hy].
  simpl in Hl1.
  apply (IH d sd); [| exact Hd].
  rewrite Hl1.
  assert (Hk : In x (map_keys E)).
  { apply (get_or_empty_key x d). rewrite Hdeps. apply in_elt. }
  apply set_has_false in Hg.
  pose proof (unmarked_add_lt (map_keys E) x (visiting st) Hk Hg). lia.
Qed.

Lemma root_loop_visiting E fuel l st st' :
  for_each (visit_root fuel E) l st = Returns st' ->
  visiting st' = visiting st.
Proof.
  apply loop_visiting. intros x s s' H. now apply visit_root_frame in H.
Qed.

Lemma topologicalSort_fuel graph : topologicalSort graph <> OutOfFuel.
Proof.
  unfold topologicalSort.
  destruct (for_each _ _ _) as [st | m |] eqn:Hl; try discriminate.
  exfalso. apply for_each_OutOfFuel in Hl.
  destruct Hl as (l1 & k & l2 & sk & _ & Hl1 & Hk).
  apply root_loop_visiting in Hl1. simpl in Hl1.
  unfold visit_root in Hk. destruct (set_has k (visited sk)); [discriminate |].
  revert Hk. apply visit_fuel. rewrite Hl1, unmarked_nil.
  unfold sort_fuel, map_keys. rewrite length_map. lia.
Qed.

(** A longer bound changes nothing once the call has an answer. *)
Lemma for_each_more {St : Type} (b1 b2 : string -> St -> outcome St) l :
  (forall x st r, b1 x st = r -> r <> OutOfFuel -> b2 x st = r) ->
  forall st r, for_each b1 l st = r -> r <> OutOfFuel ->
               for_each b2 l st = r.
Proof.
  intros Hb. induction l as [| x l IH]; simpl; intros st r H Hr; [exact H |].
  destruct (b1 x st) as [s1 | m |] eqn:Hx.
  - rewrite (Hb x st (Returns s1) Hx) by discriminate. now apply IH.
  - rewrite (Hb x st (Throws m) Hx) by discriminate. exact H.
  - congruence.
Qed.

Lemma visit_more_fuel E fuel : forall x st r,
  visit fuel E x st = r -> r <> OutOfFuel ->
  forall fuel', fuel <= fuel' -> visit fuel' E x st = r.
Proof.
  induction fuel as [| fuel IH]; simpl; intros x st r H Hr;
    [congruence |].
  intros [| fuel'] Hle; [lia |]. simpl.
  destruct (set_has x (visited st)); [exact H |].
  destruct (set_has x (visiting st)); [exact H |].
  destruct (for_each (visit fuel E) _ _) as [s2 | m |] eqn:Hl.
  - rewrite (for_each_more (visit fuel E) (visit fuel' E) _) with (r := Returns s2);
      [exact H | | exact Hl | discriminate].
    intros y s r' Hy Hr'. apply (IH _ _ _ Hy Hr'). lia.
  - rewrite (for_each_more (visit fuel E) (visit fuel' E) _) with (r := Throws m);
      [exact H | | exact Hl | discriminate].
    intros y s r' Hy Hr'. apply (IH _ _ _ Hy Hr'). lia.
  - congruence.
Qed.

(** The outcome of the sort does not depend on the bound, from [sort_fuel]
    upwards. *)
Lemma topologicalSort_any_fuel graph fuel :
  sort_fuel graph <= fuel ->
  match for_each (visit_root fuel (edges graph))
          (map_keys (packages graph)) sort_init with
  | Returns st => Returns (result st)
  | Throws m => Throws m
  | OutOfFuel => OutOfFuel
  end = topologicalSort graph.
Proof.
  intros Hle. pose proof (topologicalSort_fuel graph) as Hf.
  unfold topologicalSort in *.
  destruct (for_each (visit_root (sort_fuel graph) (edges graph)) _ _)
    as [st | m |] eqn:Hl; [| | congruence].
  - rewrite (for_each_more (visit_root (sort_fuel graph) (edges graph))
               (visit_root fuel (edges graph)) _)
      with (r := Returns st); [reflexivity | | exact Hl | discriminate].
    intros x s r. unfold visit_root. destruct (set_has x (visited s)); auto.
    intros Hx Hr. now apply (visit_more_fuel _ _ _ _ _ Hx Hr).
  - rewrite (for_each_more (visit_root (sort_fuel graph) (edges graph))
               (visit_root fuel (edges graph)) _)
      with (r := Throws m); [reflexivity | | exact Hl | discriminate].
    intros x s r. unfold visit_root. destruct (set_has x (visited s)); auto.
    intros Hx Hr. now apply (visit_more_fuel _ _ _ _ _ Hx Hr).
Qed.

(* ================================================================== *)
(** ** visit: a throw names a package on a cycle *)
(* ================================================================== *)

Lemma visit_Throws E fuel : forall x st m,
  (forall v, In v (visiting st) -> reaches E v x) ->
  visit fuel E x st = Throws m ->
  exists y, m = cycle_message y /\ reaches E y y.
Proof.
  induction fuel as [| fuel IH]; simpl; intros x st m Hp H; [discriminate |].
  destruct (set_has x (visited st)); [discriminate |].
  destruct (set_has x (visiting st)) eqn:Hg.
  - injection H as <-. exists x. split; [reflexivity |].
    apply Hp. now apply set_has_true.
  - destruct (for_each _ _ _) as [st2 | m' |] eqn:Hl; try discriminate.
    injection H as ->.
    apply for_each_Throws in Hl.
    destruct Hl as (l1 & d & l2 & sd & Hdeps & Hl1 & Hd).
    apply (loop_visiting (visit fuel E)) in Hl1;
      [| intros y s s' Hy; now apply visit_frame in Hy].
    simpl in Hl1.
    apply (IH d sd m); [| exact Hd].
    assert (Hxd : edge E x d) by (unfold edge; rewrite Hdeps; apply in_elt).
    intros v Hv. rewrite Hl1 in Hv. apply set_add_In in Hv.
    destruct Hv as [Hv | ->].
    + eapply t_trans; [apply Hp, Hv | apply t_step, Hxd].
    + apply t_step, Hxd.
Qed.

Lemma topologicalSort_Throws graph m :
  topologicalSort graph = Throws m ->
  exists y, m = cycle_message y /\ reaches (edges graph) y y.
Proof.
  unfold topologicalSort.
  destruct (for_each _ _ _) as [st | m' |] eqn:Hl; try discriminate.
  intros [= ->]. apply for_each_Throws in Hl.
  destruct Hl as (l1 & k & l2 & sk & _ & Hl1 & Hk).
  apply root_loop_visiting in Hl1. simpl in Hl1.
  unfold visit_root in Hk. destruct (set_has k (visited sk)); [discriminate |].
  apply visit_Throws in Hk; [exact Hk |].
  rewrite Hl1. intros v [].
Qed.

(* ================================================================== *)
(** ** The returned order *)
(* ================================================================== *)

Lemma deps_first_suffix E p : forall l,
  deps_first E (p ++ l) -> deps_first E l.
Proof.
  induction p as [| a p IH]; simpl; intros l H; [exact H |].
  apply IH, H.
Qed.

Lemma deps_first_before E r a b :
  deps_first E (rev r) -> In a r -> edge E a b -> appears_before b a r.
Proof.
  intros Hd Ha Hab. apply in_split in Ha. destruct Ha as (l1 & l2 & ->).
  rewrite rev_app_distr in Hd. simpl in Hd. rewrite <- app_assoc in Hd.
  apply deps_first_suffix in Hd. simpl in Hd. destruct Hd as [Hd _].
  specialize (Hd b Hab). apply in_rev in Hd. apply in_split in Hd.
  destruct Hd as (m1 & m2 & ->).
  exists m1, m2, l2. rewrite <- app_assoc. reflexivity.
Qed.

Lemma deps_first_reaches E l :
  deps_first E l ->
  forall a b, reaches E a b -> forall p q, l = p ++ a :: q -> In b q.
Proof.
  intros Hd a b Hr. apply clos_trans_t1n in Hr.
  induction Hr as [a b Hab | a c b Hac Hcb IH]; intros p q Hl.
  - subst l. apply deps_first_suffix in Hd. destruct Hd as [H _]. now apply H.
  - pose proof Hd as Hd'. rewrite Hl in Hd'.
    apply deps_first_suffix in Hd'. destruct Hd' as [H _].
    specialize (H c Hac). apply in_split in H. destruct H as (q1 & q2 & ->).
    assert (Hb : In b q2).
    { apply (IH (p ++ a :: q1) q2). rewrite Hl, <- app_assoc. reflexivity. }
    apply in_or_app. right. now right.
Qed.

Lemma appears_before_In b a l : appears_before b a l -> In b l /\ In a l.
Proof.
  intros (l1 & l2 & l3 & ->). split.
  - apply in_elt.
  - apply in_or_app. right. right. apply in_elt.
Qed.

(** What a returned order always satisfies, whatever the graph. *)
Lemma topologicalSort_Returns graph r :
  topologicalSort graph = Returns r ->
  NoDup r /\
  (forall k, In k (map_keys (packages graph)) -> In k r) /\
  deps_first (edges graph) (rev r) /\
  (forall y, In y r ->
     exists k, In k (map_keys (packages graph)) /\
               reaches_refl (edges graph) k y).
Proof.
  unfold topologicalSort.
  destruct (for_each _ _ _) as [st | m |] eqn:Hl; try discriminate.
  intros [= <-].
  apply (loop_spec (edges graph)) in Hl.
  - destruct Hl as ((Ha & Hn & Hf) & _ & _ & Hx & _ & Hr).
    split; [exact Hn |]. split; [| split; [exact Hf |]].
    + intros k Hk. apply Ha, Hx, Hk.
    + intros y Hy. apply Ha in Hy. destruct (Hr y Hy) as [[] | H]. exact H.
  - intros x s s'. apply visit_root_spec.
  - apply sort_init_inv.
Qed.

Lemma topologicalSort_Returns_before graph r A B :
  topologicalSort graph = Returns r ->
  In A r -> edge (edges graph) A B -> appears_before B A r.
Proof.
  intros H HA HAB. apply topologicalSort_Returns in H.
  destruct H as (_ & _ & Hf & _). now apply (deps_first_before (edges graph)).
Qed.

Lemma topologicalSort_Returns_no_cycle graph r x :
  topologicalSort graph = Returns r ->
  In x r -> ~ reaches (edges graph) x x.
Proof.
  intros H Hx Hc. apply topologicalSort_Returns in H.
  destruct H as (Hn & _ & Hf & _).
  apply in_split in Hx. destruct Hx as (l1 & l2 & ->).
  assert (Hin : In x (rev l1)).
  { apply (deps_first_reaches _ _ Hf x x Hc (rev l2)).
    rewrite rev_app_distr. simpl. now rewrite <- app_assoc. }
  apply NoDup_remove_2 in Hn. apply Hn, in_or_app. left. now apply in_rev.
Qed.

Lemma reaches_refl_known graph :
  targets_known graph ->
  forall a y, reaches_refl (edges graph) a y ->
              In a (map_keys (packages graph)) ->
              In y (map_keys (packages graph)).
Proof.
  intros Ht a y Hr. induction Hr as [a b Hab | a | a b c _ IH1 _ IH2]; auto.
  intros _. now apply (Ht a).
Qed.

Lemma acyclic_by_rank E (rank : string -> nat) :
  (forall a b, edge E a b -> rank b < rank a) -> acyclic E.
Proof.
  intros Hrank x Hx.
  assert (H : forall a b, reaches E a b -> rank b < rank a).
  { intros a b Hr. induction Hr as [a b Hab | a b c _ IH1 _ IH2].
    - now apply Hrank.
    - lia. }
  specialize (H x x Hx). lia.
Qed.

Lemma cycle_message_inj y z : cycle_message y = cycle_message z -> y = z.
Proof. unfold cycle_message. simpl. intros H. now injection H. Qed.

Lemma reaches_first_edge E a b : reaches E a b -> exists y, edge E a y.
Proof.
  intros H. induction H as [a b Hab | a b c _ IH1 _ _]; [now exists b | exact IH1].
Qed.

Lemma reaches_last_edge E a b : reaches E a b -> exists y, edge E y b.
Proof.
  intros H. induction H as [a b Hab | a b c _ _ _ IH2]; [now exists a | exact IH2].
Qed.

Lemma visit_Throws_reach E fuel : forall x st m k,
  reaches_refl E k x ->
  visit fuel E x st = Throws m ->
  exists y, m = cycle_message y /\ reaches_refl E k y.
Proof.
  induction fuel as [| fuel IH]; simpl; intros x st m k Hk H; [discriminate |].
  destruct (set_has x (visited st)); [discriminate |].
  destruct (set_has x (visiting st)).
  - injection H as <-. now exists x.
  - destruct (for_each _ _ _) as [st2 | m' |] eqn:Hl; try discriminate.
    injection H as ->. apply for_each_Throws in Hl.
    destruct Hl as (l1 & d & l2 & sd & Hdeps & _ & Hd).
    apply (IH d sd m k); [| exact Hd].
    eapply rt_trans; [exact Hk |]. apply rt_step.
    unfold edge. rewrite Hdeps. apply in_elt.
Qed.

Lemma topologicalSort_Throws_reach graph m :
  topologicalSort graph = Throws m ->
  exists k y, In k (map_keys (packages graph)) /\
              reaches_refl (edges graph) k y /\
              reaches (edges graph) y y /\
              m = cycle_message y.
Proof.
  intros H. destruct (topologicalSort_Throws _ _ H) as (y & Hm & Hy).
  unfold topologicalSort in H.
  destruct (for_each _ _ _) as [st | m' |] eqn:Hl; try discriminate.
  injection H as ->. apply for_each_Throws in Hl.
  destruct Hl as (l1 & k & l2 & sk & Hkeys & _ & Hk).
  unfold visit_root in Hk. destruct (set_has k (visited sk)); [discriminate |].
  apply (visit_Throws_reach _ _ _ _ _ k (rt_refl _ _ k)) in Hk.
  destruct Hk as (y' & Hm' & Hr). rewrite Hm in Hm'.
  apply cycle_message_inj in Hm'. subst y'.
  exists k, y. repeat split; auto. rewrite Hkeys. apply in_elt.
Qed.

(* ================================================================== *)
(** ** topologicalSort: the claims *)
(* ================================================================== *)

(** Splits a hypothesis [edge E a b] over a literal [E] into its cases. *)
Ltac edge_cases H :=
  unfold edge, get_or_empty in H; simpl in H;
  repeat match type of H with
         | context [String.eqb ?a ?s] =>
             destruct (String.eqb_spec a s); [subst a |]; simpl in H
         end;
  repeat match type of H with
         | _ \/ _ => destruct H as [H | H]
         | False => destruct H
         end;
  try subst.

(** C1, as the code has it.  For a graph whose forward edges have no cycle
    and whose edge targets are all node keys, [topologicalSort] returns a
    sequence that holds exactly the keys of [graph.packages], each once (a
    permutation of [packages.keys()]), and for every edge [A -> B] whose
    source [A] is a key of [graph.packages], [B] comes strictly before
    [A]. *)
Theorem topologicalSort_acyclic_order (graph : DependencyGraph) :
  acyclic (edges graph) ->
  targets_known graph ->
  exists r,
    topologicalSort graph = Returns r /\
    NoDup r /\
    (forall k, In k r <-> In k (map_keys (packages graph))) /\
    (forall k, In k (map_keys (packages graph)) ->
               count_occ string_dec r k = 1) /\
    (Map_ok (packages graph) -> Permutation (map_keys (packages graph)) r) /\
    (forall A B, In A (map_keys (packages graph)) ->
                 edge (edges graph) A B -> appears_before B A r).
Proof.
  intros Hac Htk.
  destruct (topologicalSort graph) as [r | m |] eqn:Hs.
  - exists r. split; [reflexivity |].
    destruct (topologicalSort_Returns _ _ Hs) as (Hn & Hk & Hf & Hr).
    assert (Hsame : forall k, In k r <-> In k (map_keys (packages graph))).
    { intros k. split; [| apply Hk].
      intros Hy. destruct (Hr k Hy) as (k0 & Hk0 & Hreach).
      now apply (reaches_refl_known graph Htk k0). }
    split; [exact Hn |]. split; [exact Hsame |]. split; [| split].
    + intros k Hin. apply NoDup_count_occ'; auto.
    + intros Hok. apply NoDup_Permutation; [exact Hok | exact Hn |].
      intros k. symmetry. apply Hsame.
    + intros A B HA HAB.
      apply (topologicalSort_Returns_before graph); auto.
  - exfalso. apply topologicalSort_Throws in Hs.
    destruct Hs as (y & _ & Hy). now apply (Hac y).
  - exfalso. now apply (topologicalSort_fuel graph).
Qed.

Lemma graph_abc_acyclic : acyclic (edges graph_abc).
Proof.
  apply (acyclic_by_rank _
           (fun s => if String.eqb s "c" then 2
                     else if String.eqb s "b" then 1 else 0)).
  intros a b H. edge_cases H; simpl; lia.
Qed.

Lemma graph_abc_targets_known : targets_known graph_abc.
Proof. intros a b H. edge_cases H; simpl; auto. Qed.

Lemma topologicalSort_acyclic_order_witness :
  exists r,
    topologicalSort graph_abc = Returns r /\
    NoDup r /\
    (forall k, In k r <-> In k (map_keys (packages graph_abc))) /\
    (forall k, In k (map_keys (packages graph_abc)) ->
               count_occ string_dec r k = 1) /\
    (Map_ok (packages graph_abc) ->
     Permutation (map_keys (packages graph_abc)) r) /\
    (forall A B, In A (map_keys (packages graph_abc)) ->
                 edge (edges graph_abc) A B -> appears_before B A r).
Proof.
  apply (topologicalSort_acyclic_order graph_abc).
  - exact graph_abc_acyclic.
  - exact graph_abc_targets_known.
Defined.

(** C1 as stated fails on the graph restored from [checkpoint_stray]: its
    forward edges have no cycle and the only target, [b], is a node key; the
    sort returns [["b"]]; [a -> b] is an edge of [graph.edges], and [b] does
    not come before [a] in the result, because [a] is not in it. *)
Lemma topologicalSort_stray_source_counterexample :
  acyclic (edges graph_stray) /\
  targets_known graph_stray /\
  topologicalSort graph_stray = Returns ["b"] /\
  edge (edges graph_stray) "a" "b" /\
  ~ appears_before "b" "a" ["b"].
Proof.
  split; [| split; [| split; [| split]]].
  - apply (acyclic_by_rank _ (fun s => if String.eqb s "a" then 1 else 0)).
    intros a b H. edge_cases H; simpl; lia.
  - intros a b H. edge_cases H; simpl; auto.
  - reflexivity.
  - unfold edge. simpl. now left.
  - intros H. apply appears_before_In in H. destruct H as [_ [H | []]].
    discriminate.
Qed.

(** C2, as the code has it.  When some package of the graph lies on a
    cycle of forward edges, [topologicalSort] throws "Circular dependency
    detected involving package: " followed by a name that lies on a cycle
    of forward edges and that some package reaches in zero or more steps;
    the name is a package when every edge target is one; and
    [validateGraph] returns, with [valid = false] and that same message
    among its errors. *)
Theorem cyclic_graph_is_reported (graph : DependencyGraph) (x : string) :
  In x (map_keys (packages graph)) ->
  reaches (edges graph) x x ->
  exists y,
    topologicalSort graph
    = Throws ("Circular dependency detected involving package: " ++ y)%string /\
    reaches (edges graph) y y /\
    (exists k, In k (map_keys (packages graph)) /\
               reaches_refl (edges graph) k y) /\
    (targets_known graph -> In y (map_keys (packages graph))) /\
    exists v, validateGraph graph = Returns v /\
              valid v = false /\
              In ("Circular dependency detected involving package: " ++ y)%string
                 (errors v).
Proof.
  intros Hx Hc.
  destruct (topologicalSort graph) as [r | m |] eqn:Hs.
  - exfalso. apply (topologicalSort_Returns_no_cycle graph r x Hs); auto.
    apply topologicalSort_Returns in Hs. now apply Hs.
  - destruct (topologicalSort_Throws_reach _ _ Hs) as (k & y & Hk & Hky & Hyy & ->).
    exists y. split; [reflexivity |]. split; [exact Hyy |].
    split; [now exists k |]. split.
    + intros Ht. destruct (reaches_last_edge _ _ _ Hyy) as [z Hz].
      now apply (Ht z y).
    + unfold validateGraph. rewrite Hs.
      eexists. split; [reflexivity |]. simpl. split.
      * rewrite length_app. simpl. apply Nat.eqb_neq. lia.
      * apply in_or_app. right. now left.
  - exfalso. now apply (topologicalSort_fuel graph).
Qed.

Lemma graph_cycle_reaches : reaches (edges graph_cycle) "a" "a".
Proof.
  apply t_trans with "b"; apply t_step; unfold edge; simpl; now left.
Qed.

Lemma cyclic_graph_is_reported_witness :
  exists y,
    topologicalSort graph_cycle
    = Throws ("Circular dependency detected involving package: " ++ y)%string /\
    reaches (edges graph_cycle) y y /\
    (exists k, In k (map_keys (packages graph_cycle)) /\
               reaches_refl (edges graph_cycle) k y) /\
    (targets_known graph_cycle -> In y (map_keys (packages graph_cycle))) /\
    exists v, validateGraph graph_cycle = Returns v /\
              valid v = false /\
              In ("Circular dependency detected involving package: " ++ y)%string
                 (errors v).
Proof.
  apply (cyclic_graph_is_reported graph_cycle "a").
  - simpl. now left.
  - exact graph_cycle_reaches.
Defined.

(** C2 as stated fails on the graph restored from [checkpoint_outsider]:
    the packages [a] and [b] lie on the cycle [a -> b -> a] of forward
    edges, a cycle among the nodes; the sort starts at [p], goes to [q] and
    meets [q] again, so its error names [q]; and [q] is no key of the node
    map, and the only name reached from [q] is [q], so it is on no cycle
    that holds a node. *)
Lemma topologicalSort_names_outsider_counterexample :
  In "a" (map_keys (packages graph_outsider)) /\
  In "b" (map_keys (packages graph_outsider)) /\
  edge (edges graph_outsider) "a" "b" /\
  edge (edges graph_outsider) "b" "a" /\
  topologicalSort graph_outsider
  = Throws "Circular dependency detected involving package: q" /\
  ~ In "q" (map_keys (packages graph_outsider)) /\
  (forall n, reaches (edges graph_outsider) "q" n -> n = "q").
Proof.
  split; [simpl; auto |]. split; [simpl; auto |].
  split; [unfold edge; simpl; now left |].
  split; [unfold edge; simpl; now left |].
  split; [reflexivity |]. split.
  - simpl. intros [H | [H | [H | []]]]; discriminate.
  - intros n H. remember "q" as u eqn:Hu.
    induction H as [u v Huv | u v w _ IH1 _ IH2].
    + subst u. unfold edge in Huv. simpl in Huv. now destruct Huv as [<- | []].
    + specialize (IH1 Hu). subst v. now apply IH2.
Qed.

(** C8, as the code has it.  [visit] calls itself on every member of
    [edges.get(packageName)] without asking whether it is a node.  So when
    a node [A] has an edge to a name [T] that is not a key of the node map,
    every order the sort returns contains [T], before [A]; and when [T] has
    no entry of its own in [edges], the sort never fails with the cycle
    error naming [T]. *)
Theorem topologicalSort_visits_missing_target
  (graph : DependencyGraph) (A T : string) :
  In A (map_keys (packages graph)) ->
  edge (edges graph) A T ->
  ~ In T (map_keys (packages graph)) ->
  (forall r, topologicalSort graph = Returns r ->
             In T r /\ appears_before T A r) /\
  (map_get T (edges graph) = None ->
   forall m, topologicalSort graph = Throws m -> m <> cycle_message T).
Proof.
  intros HA HAT _. split.
  - intros r Hs.
    assert (Hb : appears_before T A r).
    { apply (topologicalSort_Returns_before graph); auto.
      apply topologicalSort_Returns in Hs. now apply Hs. }
    split; [apply (appears_before_In _ _ _ Hb) | exact Hb].
  - intros Hnone m Hs Hm. apply topologicalSort_Throws in Hs.
    destruct Hs as (y & -> & Hy). apply cycle_message_inj in Hm. subst y.
    apply clos_trans_t1n in Hy.
    assert (He : forall b, ~ edge (edges graph) T b).
    { intros b. unfold edge, get_or_empty. now rewrite Hnone. }
    destruct Hy as [b Hb | b c Hb _]; now apply (He b).
Qed.

Lemma topologicalSort_visits_missing_target_witness :
  (forall r, topologicalSort graph_missing = Returns r ->
             In "nonexistent" r /\ appears_before "nonexistent" "a" r) /\
  (map_get "nonexistent" (edges graph_missing) = None ->
   forall m, topologicalSort graph_missing = Throws m ->
             m <> cycle_message "nonexistent").
Proof.
  apply (topologicalSort_visits_missing_target graph_missing "a" "nonexistent").
  - simpl. now left.
  - unfold edge. simpl. now left.
  - simpl. intros [H | []]. discriminate.
Defined.

(** C8 as stated fails on the graph of the test 'should detect missing
    dependencies': [a] has an edge to [nonexistent], which is not a key of
    the node map, and the sort returns [["nonexistent"; "a"]]: the missing
    target was visited and is in the result. *)
Lemma topologicalSort_missing_target_counterexample :
  edge (edges graph_missing) "a" "nonexistent" /\
  ~ In "nonexistent" (map_keys (packages graph_missing)) /\
  topologicalSort graph_missing = Returns ["nonexistent"; "a"] /\
  In "nonexistent" ["nonexistent"; "a"].
Proof.
  split; [| split; [| split]].
  - unfold edge. simpl. now left.
  - simpl. intros [H | []]. discriminate.
  - reflexivity.
  - now left.
Qed.

(* ================================================================== *)
(** ** validateGraph *)
(* ================================================================== *)

Lemma string_append_assoc (a b c : string) :
  ((a ++ b) ++ c = a ++ (b ++ c))%string.
Proof. induction a as [| ch a IH]; simpl; [reflexivity | now rewrite IH]. Qed.

Lemma missing_message_mentions pkg dep :
  mentions (missing_message pkg dep) pkg /\
  mentions (missing_message pkg dep) dep.
Proof.
  unfold mentions, missing_message. split.
  - exists "Package ", (" depends on " ++ dep ++ " which doesn't exist")%string.
    reflexivity.
  - exists ("Package " ++ pkg ++ " depends on ")%string, " which doesn't exist".
    simpl. now rewrite string_append_assoc.
Qed.

Lemma forward_pairs_In E s t :
  In (s, t) (forward_pairs E) <-> forward_pair E s t.
Proof.
  unfold forward_pairs, forward_pair. rewrite in_flat_map. split.
  - intros ([pkg deps] & Hin & Hp). simpl in Hp. apply in_map_iff in Hp.
    destruct Hp as (d & [= <- <-] & Hd). now exists deps.
  - intros (deps & Hin & Hd). exists (s, deps). split; [exact Hin |].
    simpl. apply in_map_iff. now exists t.
Qed.

Lemma missing_targets_In graph s t :
  In (s, t) (missing_targets graph) <->
  forward_pair (edges graph) s t /\ ~ In t (map_keys (packages graph)).
Proof.
  unfold missing_targets. rewrite filter_In, forward_pairs_In. simpl.
  rewrite negb_true_iff, <- map_has_true.
  destruct (map_has t (packages graph)); intuition congruence.
Qed.

Lemma check_inner (P : JMap PackageInfo) pkg deps : forall errs,
  fold_left
    (fun errors dep =>
       if map_has dep P then errors else errors ++ [missing_message pkg dep])
    deps errs =
  errs ++ map (fun p => missing_message (fst p) (snd p))
              (filter (fun p => negb (map_has (snd p) P))
                      (map (fun dep => (pkg, dep)) deps)).
Proof.
  induction deps as [| d deps IH]; simpl; intros errs.
  - now rewrite app_nil_r.
  - rewrite IH. destruct (map_has d P); simpl; [reflexivity |].
    now rewrite <- app_assoc.
Qed.

Lemma check_outer (P : JMap PackageInfo) E : forall errs,
  fold_left
    (fun errors (entry : string * JSet) =>
       let (pkg, deps) := entry in
       fold_left
         (fun errors dep =>
            if map_has dep P then errors
            else errors ++ [missing_message pkg dep])
         deps errors)
    E errs =
  errs ++ map (fun p => missing_message (fst p) (snd p))
              (filter (fun p => negb (map_has (snd p) P)) (forward_pairs E)).
Proof.
  induction E as [| [pkg deps] E IH]; simpl; intros errs.
  - now rewrite app_nil_r.
  - rewrite IH, check_inner, filter_app, map_app, <- app_assoc. reflexivity.
Qed.

Lemma check_targets_missing graph :
  check_targets graph =
  map (fun p => missing_message (fst p) (snd p)) (missing_targets graph).
Proof. unfold check_targets. now rewrite check_outer. Qed.

(** C5.  [validateGraph] always returns.  Its error list is, in loop
    order, one message per forward pair whose target is not a key of the
    node map, built from the source and the target and mentioning both,
    followed by at most one message, the one thrown by [topologicalSort];
    and [valid] is [true] exactly when the list is empty. *)
Theorem validateGraph_report (graph : DependencyGraph) :
  exists v cycleErrors,
    validateGraph graph = Returns v /\
    errors v =
      map (fun p => missing_message (fst p) (snd p)) (missing_targets graph)
      ++ cycleErrors /\
    (forall source target,
        In (source, target) (missing_targets graph) <->
        forward_pair (edges graph) source target /\
        ~ In target (map_keys (packages graph))) /\
    (forall source target,
        mentions (missing_message source target) source /\
        mentions (missing_message source target) target) /\
    length cycleErrors <= 1 /\
    (forall e, In e cycleErrors -> topologicalSort graph = Throws e) /\
    (cycleErrors = [] -> exists r, topologicalSort graph = Returns r) /\
    (valid v = true <-> errors v = []).
Proof.
  unfold validateGraph. rewrite check_targets_missing.
  destruct (topologicalSort graph) as [r | m |] eqn:Hs.
  - eexists. exists []. split; [reflexivity |]. simpl.
    split; [now rewrite app_nil_r |].
    split; [apply missing_targets_In |].
    split; [apply missing_message_mentions |].
    split; [lia |]. split; [intros e [] |]. split; [intros _; now exists r |].
    rewrite Nat.eqb_eq. apply length_zero_iff_nil.
  - eexists. exists [m]. split; [reflexivity |]. simpl.
    split; [reflexivity |].
    split; [apply missing_targets_In |].
    split; [apply missing_message_mentions |].
    split; [lia |]. split; [intros e [<- | []]; reflexivity |].
    split; [discriminate |].
    rewrite Nat.eqb_eq. apply length_zero_iff_nil.
  - exfalso. now apply (topologicalSort_fuel graph).
Qed.

(* ================================================================== *)
(** ** traverse *)
(* ================================================================== *)

Lemma closed_at_mono R st st' v :
  incl (fd_visited st) (fd_visited st') ->
  incl (fd_dependents st) (fd_dependents st') ->
  closed_at R st v -> closed_at R st' v.
Proof.
  intros Hv Hd Hc w Hw. destruct (Hc w Hw) as [H1 H2]. split; auto.
Qed.

Lemma traverse_loop_spec R
  (T : string -> TraverseState -> outcome TraverseState) :
  (forall x st st', T x st = Returns st' -> traverse_post R x st st') ->
  forall l st st',
    for_each (fun d s => T d (note_dependent d s)) l st = Returns st' ->
    traverse_loop_post R l st st'.
Proof.
  intros HT. induction l as [| d l IH]; simpl; intros st st' H.
  - injection H as <-.
    refine (conj (incl_refl _) (conj (incl_refl _) (conj _ (conj _ _)))).
    + intros d [].
    + intros v Hv. now left.
    + intros x Hx. now left.
  - destruct (T d (note_dependent d st)) as [sm | |] eqn:Hd; try discriminate.
    apply HT in Hd. destruct Hd as (Hv1 & Hd1 & Hin1 & Hc1 & Hs1).
    simpl in Hv1, Hd1, Hc1, Hs1.
    destruct (IH _ _ H) as (Hv2 & Hd2 & Hin2 & Hc2 & Hs2).
    assert (Hdd : In d (fd_dependents sm)).
    { apply Hd1, set_add_In. now right. }
    refine (conj _ (conj _ (conj _ (conj _ _)))).
    + eapply incl_tran; eassumption.
    + intros x Hx. apply Hd2, Hd1, set_add_In. now left.
    + intros d' [<- | Hd']; [split; auto | now apply Hin2].
    + intros v Hv. destruct (Hc2 v Hv) as [Hm | Hcl]; [| now right].
      destruct (Hc1 v Hm) as [Ho | Hcl]; [now left | right].
      now apply (closed_at_mono R sm).
    + intros x Hx. destruct (Hs2 x Hx) as [Hm | (d' & Hd' & Hr)].
      * destruct (Hs1 x Hm) as [Ho | Hr].
        -- apply set_add_In in Ho. destruct Ho as [Ho | ->]; [now left |].
           right. exists d. split; [now left | now left].
        -- right. exists d. split; [now left | now right].
      * right. exists d'. split; [now right | exact Hr].
Qed.

Lemma traverse_spec R fuel : forall pkg st st',
  traverse fuel R pkg st = Returns st' -> traverse_post R pkg st st'.
Proof.
  induction fuel as [| fuel IH]; simpl; intros pkg st st' H; [discriminate |].
  destruct (set_has pkg (fd_visited st)) eqn:Hv.
  - injection H as <-. apply set_has_true in Hv.
    refine (conj (incl_refl _) (conj (incl_refl _) (conj Hv (conj _ _)))).
    + intros v Hin. now left.
    + intros d Hd. now left.
  - apply (traverse_loop_spec R _ (IH)) in H.
    destruct H as (Hv2 & Hd2 & Hin2 & Hc2 & Hs2). simpl in Hv2, Hd2, Hc2, Hs2.
    refine (conj _ (conj Hd2 (conj _ (conj _ _)))).
    + intros x Hx. apply Hv2, set_add_In. now left.
    + apply Hv2, set_add_In. now right.
    + intros v Hin. destruct (Hc2 v Hin) as [Hm | Hcl]; [| now right].
      apply set_add_In in Hm. destruct Hm as [Hm | ->]; [now left | right].
      intros w Hw. now apply Hin2.
    + intros d Hd. destruct (Hs2 d Hd) as [Ho | (d' & Hd' & [-> | Hr])].
      * now left.
      * right. apply t_step. exact Hd'.
      * right. eapply t_trans; [apply t_step; exact Hd' | exact Hr].
Qed.

Lemma for_each_inv {St : Type} (body : string -> St -> outcome St)
  (I : St -> Prop) l :
  (forall x st st', I st -> body x st = Returns st' -> I st') ->
  forall st st', I st -> for_each body l st = Returns st' -> I st'.
Proof.
  intros Hb. induction l as [| x l IH]; simpl; intros st st' Hi H.
  - now injection H as <-.
  - destruct (body x st) as [s1 | |] eqn:Hx; try discriminate.
    apply (IH s1); [| exact H]. now apply (Hb x st).
Qed.

Lemma traverse_trace R fuel : forall pkg st st',
  trace_inv st -> traverse fuel R pkg st = Returns st' -> trace_inv st'.
Proof.
  induction fuel as [| fuel IH]; simpl; intros pkg st st' Hi H; [discriminate |].
  destruct (set_has pkg (fd_visited st)) eqn:Hv.
  - now injection H as <-.
  - revert H. apply for_each_inv.
    + intros d s s' Hs. apply IH. exact Hs.
    + destruct Hi as [Ht Hn]. apply set_has_false in Hv.
      split; simpl.
      * rewrite Ht. symmetry. now apply set_add_absent.
      * now apply set_add_NoDup.
Qed.

Lemma traverse_no_throw R fuel : forall pkg st m,
  traverse fuel R pkg st <> Throws m.
Proof.
  induction fuel as [| fuel IH]; simpl; intros pkg st m; [discriminate |].
  destruct (set_has pkg (fd_visited st)); [discriminate |].
  intros H. apply for_each_Throws in H.
  destruct H as (l1 & d & l2 & sd & _ & _ & Hd). now apply IH in Hd.
Qed.

Lemma traverse_enough_fuel R fuel : forall pkg st,
  unmarked (map_keys R) (fd_visited st) < fuel ->
  traverse fuel R pkg st <> OutOfFuel.
Proof.
  induction fuel as [| fuel IH]; simpl; intros pkg st Hm; [lia |].
  destruct (set_has pkg (fd_visited st)) eqn:Hv; [discriminate |].
  intros H. apply for_each_OutOfFuel in H.
  destruct H as (l1 & d & l2 & sd & Hl & Hl1 & Hd).
  apply (traverse_loop_spec R _ (traverse_spec R fuel)) in Hl1.
  destruct Hl1 as (Hinc & _). simpl in Hinc.
  apply (IH d (note_dependent d sd)); [| exact Hd]. simpl.
  assert (Hk : In pkg (map_keys R)).
  { apply (get_or_empty_key pkg d). rewrite Hl. apply in_elt. }
  apply set_has_false in Hv.
  pose proof (unmarked_add_lt (map_keys R) pkg (fd_visited st) Hk Hv).
  pose proof (unmarked_mono (map_keys R) _ _ Hinc). lia.
Qed.

Lemma for_each_ext_Returns {St : Type}
  (b1 b2 : string -> St -> outcome St) l :
  (forall x st st', b1 x st = Returns st' -> b2 x st = Returns st') ->
  forall st st', for_each b1 l st = Returns st' ->
                 for_each b2 l st = Returns st'.
Proof.
  intros Hb. induction l as [| x l IH]; simpl; intros st st' H; [exact H |].
  destruct (b1 x st) as [s1 | |] eqn:Hx; try discriminate.
  rewrite (Hb _ _ _ Hx). now apply IH.
Qed.

Lemma traverse_more_fuel R fuel : forall pkg st st',
  traverse fuel R pkg st = Returns st' ->
  forall fuel', fuel <= fuel' -> traverse fuel' R pkg st = Returns st'.
Proof.
  induction fuel as [| fuel IH]; simpl; intros pkg st st' H; [discriminate |].
  intros [| fuel'] Hle; [lia |]. simpl.
  destruct (set_has pkg (fd_visited st)); [exact H |].
  revert H. apply for_each_ext_Returns.
  intros d s s' Hd. apply (IH _ _ _ Hd). lia.
Qed.

Lemma traverse_init_Returns R pkg fuel :
  length R < fuel -> exists st, traverse fuel R pkg traverse_init = Returns st.
Proof.
  intros Hf. destruct (traverse fuel R pkg traverse_init) as [st | m |] eqn:H.
  - now exists st.
  - now apply traverse_no_throw in H.
  - apply traverse_enough_fuel in H; [destruct H |].
    simpl. rewrite unmarked_nil. unfold map_keys. now rewrite length_map.
Qed.

(** From the empty sets, the recorded dependents are the names one or more
    [reverseEdges] steps away. *)
Lemma traverse_init_reaches R fuel pkg st :
  traverse fuel R pkg traverse_init = Returns st ->
  forall d, In d (fd_dependents st) <-> reaches R pkg d.
Proof.
  intros H. apply traverse_spec in H.
  destruct H as (_ & _ & Hin & Hc & Hs). simpl in Hc, Hs.
  assert (Hcl : forall v, In v (fd_visited st) -> closed_at R st v).
  { intros v Hv. destruct (Hc v Hv) as [[] | H]. exact H. }
  intros d. split.
  - intros Hd. destruct (Hs d Hd) as [[] | H]. exact H.
  - intros Hr. apply clos_trans_tn1 in Hr.
    assert (Hboth : In d (fd_dependents st) /\ In d (fd_visited st)).
    { induction Hr as [d Hd | d e Hde _ IH].
      - now apply (Hcl pkg).
      - destruct IH as [_ IH]. now apply (Hcl d). }
    apply Hboth.
Qed.

(* ================================================================== *)
(** ** findAllDependents: the claims *)
(* ================================================================== *)

Lemma findAllDependents_traverse packageName graph :
  exists st,
    traverse (traverse_fuel graph) (reverseEdges graph) packageName
      traverse_init = Returns st /\
    findAllDependents packageName graph = Returns (fd_dependents st).
Proof.
  destruct (traverse_init_Returns (reverseEdges graph) packageName
              (traverse_fuel graph)) as [st Hst].
  - unfold traverse_fuel. lia.
  - exists st. split; [exact Hst |]. unfold findAllDependents. now rewrite Hst.
Qed.

(** C4, as the code has it.  [findAllDependents(name, graph)] returns
    exactly the names that are one or more [reverseEdges] steps away from
    [name].  [name] itself is in the result exactly when such a path leads
    back to it, that is when [name] lies on a cycle.  When [name] has no
    entry in [reverseEdges], or an empty one, the result is empty; this is
    the case of every name that is not a node, in a graph whose forward
    pairs all end at nodes and whose [reverseEdges] is the transpose of its
    [edges].  No error is raised. *)
Theorem findAllDependents_reachable
  (packageName : string) (graph : DependencyGraph) :
  exists ds,
    findAllDependents packageName graph = Returns ds /\
    (forall d, In d ds <-> reaches (reverseEdges graph) packageName d) /\
    (In packageName ds <->
     reaches (reverseEdges graph) packageName packageName) /\
    (get_or_empty packageName (reverseEdges graph) = [] -> ds = []) /\
    (targets_are_nodes graph ->
     transpose_of (edges graph) (reverseEdges graph) ->
     ~ In packageName (map_keys (packages graph)) ->
     ds = []).
Proof.
  destruct (findAllDependents_traverse packageName graph) as (st & Ht & Hf).
  pose proof (traverse_init_reaches _ _ _ _ Ht) as Hr.
  exists (fd_dependents st). split; [exact Hf |]. split; [exact Hr |].
  split; [apply Hr |].
  assert (Hempty : get_or_empty packageName (reverseEdges graph) = [] ->
                   fd_dependents st = []).
  { intros Hnone. destruct (fd_dependents st) as [| d ds]; [reflexivity |].
    exfalso. assert (Hd : reaches (reverseEdges graph) packageName d)
      by (apply Hr; now left).
    apply clos_trans_t1n in Hd.
    destruct Hd as [w Hw | w z Hw _]; unfold edge in Hw; rewrite Hnone in Hw;
      destruct Hw. }
  split; [exact Hempty |].
  intros Htn [Htr _] Hunknown. apply Hempty.
  destruct (get_or_empty packageName (reverseEdges graph)) as [| s l] eqn:Hg;
    [reflexivity |].
  exfalso. apply Hunknown, (Htn s). apply Htr. rewrite Hg. now left.
Qed.

(** C4 as stated fails on [{a: [b], b: [a]}]: the dependents of [a] are
    [b] and, through [b], [a] itself. *)
Lemma findAllDependents_self_counterexample :
  findAllDependents "a" graph_cycle = Returns ["b"; "a"] /\
  In "a" ["b"; "a"].
Proof. split; [reflexivity | right; now left]. Qed.

(** The two scenarios of the specification: an isolated node has no
    dependents, and in the chain [a <- b <- c <- d] the dependents of [a]
    are [b], [c] and [d]; an unknown name has none. *)
Example findAllDependents_scenarios :
  findAllDependents "c" graph_abc = Returns [] /\
  findAllDependents "a"
    (createMockGraph [("a", []); ("b", ["a"]); ("c", ["b"]); ("d", ["c"])])
  = Returns ["b"; "c"; "d"] /\
  findAllDependents "package-d" graph_abc = Returns [].
Proof. repeat split. Qed.

(** A name that is not a node has dependents all the same when an edge
    points at it: in [{a: [nonexistent]}], [a] depends on it. *)
Example findAllDependents_missing_target :
  findAllDependents "nonexistent" graph_missing = Returns ["a"].
Proof. reflexivity. Qed.

(** C9.  [findAllDependents] terminates on every graph, cyclic or not: with
    any depth bound above the number of entries of [reverseEdges] the
    traversal returns, always the same state, and that is the state
    [findAllDependents] reads its result from.  The body of [traverse] ran
    at most once for each name (the log has no repetition and is the final
    [visited]), a call on a name already in [visited] changes nothing, and
    [traverse] never throws. *)
Theorem findAllDependents_terminates
  (packageName : string) (graph : DependencyGraph) :
  exists st,
    (forall fuel, length (reverseEdges graph) < fuel ->
       traverse fuel (reverseEdges graph) packageName traverse_init
       = Returns st) /\
    findAllDependents packageName graph = Returns (fd_dependents st) /\
    NoDup (fd_trace st) /\
    fd_trace st = fd_visited st /\
    (forall fuel pkg s,
       In pkg (fd_visited s) ->
       traverse (S fuel) (reverseEdges graph) pkg s = Returns s) /\
    (forall fuel pkg s m,
       traverse fuel (reverseEdges graph) pkg s <> Throws m).
Proof.
  destruct (findAllDependents_traverse packageName graph) as (st & Ht & Hf).
  exists st.
  assert (Hall : forall fuel, length (reverseEdges graph) < fuel ->
            traverse fuel (reverseEdges graph) packageName traverse_init
            = Returns st).
  { intros fuel Hlt.
    destruct (traverse_init_Returns (reverseEdges graph) packageName fuel Hlt)
      as [st' Hst'].
    destruct (Nat.le_ge_cases fuel (traverse_fuel graph)) as [Hle | Hge].
    - apply (traverse_more_fuel _ _ _ _ _ Hst') in Hle. congruence.
    - now apply (traverse_more_fuel _ _ _ _ _ Ht). }
  assert (Hinv : trace_inv st).
  { apply (traverse_trace _ _ _ traverse_init _) in Ht; [exact Ht |].
    split; [reflexivity | constructor]. }
  destruct Hinv as [Htr Hnd].
  split; [exact Hall |]. split; [exact Hf |].
  split; [now rewrite Htr |]. split; [exact Htr |]. split.
  - intros fuel pkg s Hin. simpl. apply set_has_true in Hin. now rewrite Hin.
  - intros fuel pkg s m. apply traverse_no_throw.
Qed.

(* ================================================================== *)
(** ** serializeGraph and deserializeGraph *)
(* ================================================================== *)

(** Closes [NoDup] of a literal list of strings. *)
Ltac nodup_literal :=
  repeat (constructor; [simpl; intuition discriminate |]); constructor.

Lemma fold_map_set_distinct {A V : Type}
  (f : JMap V -> A -> JMap V) (kv : A -> string * V) :
  (forall m a, f m a = map_set (fst (kv a)) (snd (kv a)) m) ->
  forall l acc,
    NoDup (map_keys acc ++ map (fun a => fst (kv a)) l) ->
    fold_left f l acc = acc ++ map kv l.
Proof.
  intros Hf. induction l as [| a l IH]; simpl; intros acc Hn.
  - now rewrite app_nil_r.
  - rewrite Hf, map_set_absent.
    + rewrite IH.
      * rewrite <- app_assoc. simpl. now destruct (kv a).
      * unfold map_keys. rewrite map_app, <- app_assoc. exact Hn.
    + apply NoDup_remove_2 in Hn. intros Hi. apply Hn, in_or_app. now left.
Qed.

Lemma map_get_map_values {V W : Type} (g : V -> W) k (m : JMap V) :
  map_get k (map (fun e => (fst e, g (snd e))) m) =
  option_map g (map_get k m).
Proof.
  induction m as [| [k' v] m IH]; simpl; [reflexivity |].
  destruct (String.eqb k k'); [reflexivity | exact IH].
Qed.

Lemma deserialize_serialize_packages graph :
  Map_ok (packages graph) -> keyed_by_name graph ->
  packages (deserializeGraph (serializeGraph graph)) =
  map (fun e => (fst e, reload_package (snd e))) (packages graph).
Proof.
  intros Hok Hkey. unfold deserializeGraph, serializeGraph. simpl.
  rewrite (fold_map_set_distinct _
             (fun pkg => (ser_name pkg, restore_package pkg)))
    by reflexivity || (simpl; unfold map_values; rewrite !map_map; simpl;
                       unfold Map_ok, map_keys in Hok;
                       erewrite map_ext_in; [exact Hok |];
                       intros [k p] Hin; simpl; now apply Hkey).
  simpl. unfold map_values. rewrite !map_map. apply map_ext_in.
  intros [k p] Hin. simpl. unfold restore_package, reload_package. simpl.
  now rewrite (Hkey k p Hin).
Qed.

Lemma deserialize_serialize_edges graph :
  Map_ok (edges graph) ->
  (forall k deps, In (k, deps) (edges graph) -> Set_ok deps) ->
  edges (deserializeGraph (serializeGraph graph)) = edges graph.
Proof.
  intros Hok Hsets. unfold deserializeGraph, serializeGraph. simpl.
  rewrite (fold_map_set_distinct _
             (fun entry : string * list string =>
                (fst entry, set_of_list (snd entry)))).
  - simpl. rewrite map_map. rewrite <- (map_id (edges graph)) at 2.
    apply map_ext_in. intros [k deps] Hin. simpl.
    now rewrite (set_of_list_NoDup deps (Hsets k deps Hin)).
  - intros m [k deps]. reflexivity.
  - simpl. rewrite map_map. unfold Map_ok, map_keys in Hok.
    erewrite map_ext; [exact Hok |]. now intros [k deps].
Qed.

(** C3, as the code has it.  Let [G] be a graph that stores every package
    under its own name and whose [reverseEdges] is the transpose of its
    [edges].  Then [deserializeGraph(serializeGraph(G))] has the same
    package keys in the same order, each package with the same name, version
    and path; its [edges] is [G.edges]; its [reverseEdges] is
    [buildReverseGraph(G.edges)], which holds the same sets under the same
    keys as [G.reverseEdges] and is [G.reverseEdges] itself when that was
    built by [buildReverseGraph]; and every restored package has empty
    [devDependencies] and [localDependencies]. *)
Theorem deserialize_serialize_roundtrip (graph : DependencyGraph) :
  Graph_ok graph ->
  keyed_by_name graph ->
  transpose_of (edges graph) (reverseEdges graph) ->
  let restored := deserializeGraph (serializeGraph graph) in
  map_keys (packages restored) = map_keys (packages graph) /\
  (forall k pkg,
      map_get k (packages graph) = Some pkg ->
      exists pkg',
        map_get k (packages restored) = Some pkg' /\
        name pkg' = name pkg /\
        version pkg' = version pkg /\
        path pkg' = path pkg) /\
  edges restored = edges graph /\
  Map_equiv (reverseEdges restored) (reverseEdges graph) /\
  (reverseEdges graph = buildReverseGraph (edges graph) ->
   reverseEdges restored = reverseEdges graph) /\
  (forall k pkg',
      map_get k (packages restored) = Some pkg' ->
      devDependencies pkg' = [] /\ localDependencies pkg' = []).
Proof.
  intros (Hp & He & Hs) Hkey Htr restored.
  assert (HP : packages restored =
               map (fun e => (fst e, reload_package (snd e))) (packages graph))
    by now apply deserialize_serialize_packages.
  assert (HE : edges restored = edges graph)
    by now apply deserialize_serialize_edges.
  assert (HR : reverseEdges restored = buildReverseGraph (edges graph)).
  { rewrite <- HE. reflexivity. }
  split; [| split; [| split; [| split; [| split]]]].
  - rewrite HP. unfold map_keys. rewrite map_map. reflexivity.
  - intros k pkg Hg. exists (reload_package pkg).
    rewrite HP, map_get_map_values, Hg. simpl. auto.
  - exact HE.
  - rewrite HR. apply (transpose_of_unique (edges graph)); [| exact Htr].
    apply buildReverseGraph_transpose_of.
  - intros Hd. now rewrite HR.
  - intros k pkg'. rewrite HP, map_get_map_values.
    destruct (map_get k (packages graph)); simpl; [| discriminate].
    intros [= <-]. simpl. auto.
Qed.

Lemma graph_roundtrip_ok : Graph_ok graph_roundtrip.
Proof.
  split; [| split].
  - unfold Map_ok. simpl. nodup_literal.
  - unfold Map_ok. simpl. nodup_literal.
  - intros k deps H. unfold Set_ok. simpl in H.
    repeat (destruct H as [H | H]; [injection H as <- <-; nodup_literal |]).
    destruct H.
Qed.

Lemma graph_roundtrip_keyed : keyed_by_name graph_roundtrip.
Proof.
  intros k pkg H. simpl in H.
  repeat (destruct H as [H | H]; [now injection H as <- <- |]).
  destruct H.
Qed.

Lemma deserialize_serialize_roundtrip_witness :
  let restored := deserializeGraph (serializeGraph graph_roundtrip) in
  map_keys (packages restored) = map_keys (packages graph_roundtrip) /\
  (forall k pkg,
      map_get k (packages graph_roundtrip) = Some pkg ->
      exists pkg',
        map_get k (packages restored) = Some pkg' /\
        name pkg' = name pkg /\
        version pkg' = version pkg /\
        path pkg' = path pkg) /\
  edges restored = edges graph_roundtrip /\
  Map_equiv (reverseEdges restored) (reverseEdges graph_roundtrip) /\
  (reverseEdges graph_roundtrip = buildReverseGraph (edges graph_roundtrip) ->
   reverseEdges restored = reverseEdges graph_roundtrip) /\
  (forall k pkg',
      map_get k (packages restored) = Some pkg' ->
      devDependencies pkg' = [] /\ localDependencies pkg' = []).
Proof.
  apply (deserialize_serialize_roundtrip graph_roundtrip).
  - exact graph_roundtrip_ok.
  - exact graph_roundtrip_keyed.
  - exact (buildReverseGraph_transpose_of (edges graph_roundtrip)).
Defined.

(** C3 as stated fails on graph values that the type [DependencyGraph]
    admits: on [graph_misfiled] the restored package key is the package's
    name, ["y"], not the original key ["x"]; on [graph_underived] the
    restored [reverseEdges] is rebuilt from [edges] and is not the (empty)
    [reverseEdges] of the original. *)
Lemma deserialize_serialize_counterexample :
  map_keys (packages (deserializeGraph (serializeGraph graph_misfiled)))
    = ["y"] /\
  map_keys (packages graph_misfiled) = ["x"] /\
  reverseEdges (deserializeGraph (serializeGraph graph_underived))
    = [("a", ["b"; "c"]); ("b", ["c"])] /\
  reverseEdges graph_underived = [].
Proof. repeat split. Qed.

(** C10.  For a checkpoint whose package names are pairwise distinct,
    whose edge-pair keys are pairwise distinct and whose name lists have no
    repetition, [serializeGraph(deserializeGraph(S))] is the checkpoint
    itself: the same records in the same order. *)
Theorem serialize_deserialize_roundtrip (serialized : SerializedGraph) :
  checkpoint_distinct serialized ->
  serializeGraph (deserializeGraph serialized) = serialized.
Proof.
  intros (Hn & He & Hd & Hl). destruct serialized as [pkgs es]. simpl in *.
  unfold serializeGraph, deserializeGraph. simpl.
  rewrite (fold_map_set_distinct _
             (fun pkg => (ser_name pkg, restore_package pkg)))
    by (reflexivity || exact Hn).
  rewrite (fold_map_set_distinct _
             (fun entry : string * list string =>
                (fst entry, set_of_list (snd entry))));
    [| intros m [k deps]; reflexivity | exact He].
  simpl. unfold map_values. rewrite !map_map. f_equal.
  - rewrite <- (map_id pkgs) at 2. apply map_ext_in.
    intros [n v p ds] Hin. simpl. f_equal.
    apply set_of_list_NoDup. exact (Hd _ Hin).
  - rewrite <- (map_id es) at 2. apply map_ext_in.
    intros [k deps] Hin. simpl. f_equal.
    apply set_of_list_NoDup. exact (Hl _ Hin).
Qed.

Lemma checkpoint_roundtrip_distinct : checkpoint_distinct checkpoint_roundtrip.
Proof.
  split; [| split; [| split]].
  - simpl. nodup_literal.
  - simpl. nodup_literal.
  - intros pkg H. simpl in H.
    repeat (destruct H as [H | H]; [subst pkg; simpl; nodup_literal |]).
    destruct H.
  - intros entry H. simpl in H.
    repeat (destruct H as [H | H]; [subst entry; simpl; nodup_literal |]).
    destruct H.
Qed.

Lemma serialize_deserialize_roundtrip_witness :
  serializeGraph (deserializeGraph checkpoint_roundtrip) = checkpoint_roundtrip.
Proof.
  apply (serialize_deserialize_roundtrip checkpoint_roundtrip).
  exact checkpoint_roundtrip_distinct.
Defined.

(* ================================================================== *)
(** ** buildDependencyGraph *)
(* ================================================================== *)

Lemma local_pass_acc (P : JMap PackageInfo) deps : forall acc : JSet * JSet,
  fst acc = snd acc ->
  let r := fold_left
             (fun (acc : JSet * JSet) dep =>
                if map_has dep P
                then (set_add dep (fst acc), set_add dep (snd acc))
                else acc)
             deps acc in
  fst r = snd r /\
  (forall d, In d (fst r) <->
             In d (fst acc) \/ (In d deps /\ In d (map_keys P))).
Proof.
  induction deps as [| x deps IH]; simpl; intros acc Heq.
  - split; [exact Heq |]. intros d. intuition.
  - destruct (map_has x P) eqn:Hx.
    + destruct (IH (set_add x (fst acc), set_add x (snd acc))) as [H1 H2];
        [simpl; now rewrite Heq |].
      split; [exact H1 |]. intros d. rewrite H2. simpl. rewrite set_add_In.
      apply map_has_true in Hx. intuition (subst; auto).
    + destruct (IH acc Heq) as [H1 H2]. split; [exact H1 |].
      intros d. rewrite H2.
      assert (Hn : ~ In x (map_keys P)).
      { rewrite <- map_has_true. congruence. }
      intuition (subst; auto). contradiction.
Qed.

Lemma local_pass_spec P info :
  fst (local_pass P info) = snd (local_pass P info) /\
  (forall d, In d (fst (local_pass P info)) <->
             In d (dependencies info) /\ In d (map_keys P)).
Proof.
  destruct (local_pass_acc P (dependencies info) ([], []) eq_refl) as [H1 H2].
  split; [exact H1 |]. intros d. unfold local_pass. rewrite H2. simpl.
  intuition.
Qed.

Lemma map_set_middle {V} k (v v0 : V) l1 l2 :
  ~ In k (map_keys l1) ->
  map_set k v (l1 ++ (k, v0) :: l2) = l1 ++ (k, v) :: l2.
Proof.
  induction l1 as [| [k' v'] l1 IH]; simpl; intros H.
  - now rewrite String.eqb_refl.
  - destruct (String.eqb_spec k k') as [-> | Hn].
    + exfalso. apply H. now left.
    + f_equal. apply IH. intros Hi. apply H. now right.
Qed.

Lemma second_pass_loop (P : JMap PackageInfo) todo : forall done,
  Map_ok (done ++ todo) ->
  fold_left
    (fun (acc : JMap PackageInfo * JMap JSet)
         (entry : string * PackageInfo) =>
       let (packageName, packageInfo) := entry in
       let (localDeps, edgesSet) := local_pass P packageInfo in
       (map_set packageName
          (with_localDependencies packageInfo localDeps) (fst acc),
        map_set packageName edgesSet (snd acc)))
    todo
    (map (fun e => (fst e, localized P (snd e))) done ++ todo,
     map (fun e => (fst e, edge_set P (snd e))) done)
  = (map (fun e => (fst e, localized P (snd e))) (done ++ todo),
     map (fun e => (fst e, edge_set P (snd e))) (done ++ todo)).
Proof.
  induction todo as [| [k info] todo IH]; intros done Hok.
  - simpl. now rewrite !app_nil_r.
  - simpl fold_left. destruct (local_pass P info) as [localDeps edgesSet] eqn:Hl.
    assert (Hk : ~ In k (map_keys done)).
    { unfold Map_ok, map_keys in Hok. rewrite map_app in Hok. simpl in Hok.
      apply NoDup_remove_2 in Hok. intros Hi. apply Hok, in_or_app. now left. }
    simpl fst. simpl snd.
    rewrite map_set_middle
      by (unfold map_keys in *; rewrite map_map; simpl; exact Hk).
    rewrite map_set_absent
      by (unfold map_keys in *; rewrite map_map; simpl; exact Hk).
    replace (done ++ (k, info) :: todo) with ((done ++ [(k, info)]) ++ todo)
      by (rewrite <- app_assoc; reflexivity).
    rewrite <- IH by (rewrite <- app_assoc; exact Hok).
    f_equal. rewrite !map_app. simpl. unfold localized, edge_set.
    rewrite Hl. simpl. rewrite <- app_assoc. reflexivity.
Qed.

Lemma second_pass_spec P :
  Map_ok P ->
  second_pass P =
  (map (fun e => (fst e, localized P (snd e))) P,
   map (fun e => (fst e, edge_set P (snd e))) P).
Proof. intros Hok. exact (second_pass_loop P P [] Hok). Qed.

Lemma first_pass_Map_ok load dirname paths : forall acc P,
  Map_ok acc ->
  first_pass load dirname paths acc = Returns P -> Map_ok P.
Proof.
  induction paths as [| p paths IH]; simpl; intros acc P Hok H.
  - now injection H as <-.
  - destruct (parsePackageJson load dirname p) as [info | |];
      try discriminate.
    apply (IH _ _ (map_set_Map_ok _ info _ Hok) H).
Qed.

(** C6.  In every graph that [buildDependencyGraph] returns, each node's
    [localDependencies] holds exactly its declared dependencies that are
    keys of the node map, the node's forward-edge set is its
    [localDependencies], and so [localDependencies] is included in the
    declared dependencies and each of its members is a key of the node
    map. *)
Theorem buildDependencyGraph_local_dependencies
  (loadPackageJson : string -> PackageJson + string)
  (dirname : string -> string)
  (packageJsonPaths : list string) (graph : DependencyGraph)
  (packageName : string) (node : PackageInfo) :
  buildDependencyGraph loadPackageJson dirname packageJsonPaths
    = Returns graph ->
  map_get packageName (packages graph) = Some node ->
  (forall d, In d (localDependencies node) <->
             In d (dependencies node) /\ In d (map_keys (packages graph))) /\
  map_get packageName (edges graph) = Some (localDependencies node) /\
  incl (localDependencies node) (dependencies node) /\
  (forall d, In d (localDependencies node) ->
             In d (map_keys (packages graph))).
Proof.
  unfold buildDependencyGraph.
  destruct (first_pass loadPackageJson dirname packageJsonPaths [])
    as [P | |] eqn:Hfirst; try discriminate.
  assert (Hok : Map_ok P).
  { apply (first_pass_Map_ok _ _ _ [] _) in Hfirst; [exact Hfirst |].
    constructor. }
  rewrite (second_pass_spec P Hok). intros [= <-]. cbn [packages edges].
  rewrite map_get_map_values.
  destruct (map_get packageName P) as [info |] eqn:Hg; [| discriminate].
  intros [= <-].
  unfold localized. cbn [localDependencies dependencies with_localDependencies].
  destruct (local_pass_spec P info) as [Heq Hin].
  assert (Hkeys : map_keys
            (map (fun e : string * PackageInfo =>
                    (fst e, with_localDependencies (snd e)
                              (fst (local_pass P (snd e))))) P)
          = map_keys P).
  { unfold map_keys. now rewrite map_map. }
  rewrite Hkeys.
  split; [exact Hin |]. split; [| split].
  - rewrite map_get_map_values, Hg.
    cbn [option_map]. unfold edge_set. now rewrite Heq.
  - intros d Hd. now apply Hin.
  - intros d Hd. now apply Hin.
Qed.

Lemma demo_graph_built :
  buildDependencyGraph demo_load demo_dirname demo_paths = Returns demo_graph.
Proof. reflexivity. Qed.

Lemma buildDependencyGraph_local_dependencies_witness :
  (forall d, In d (localDependencies demo_app) <->
             In d (dependencies demo_app) /\
             In d (map_keys (packages demo_graph))) /\
  map_get "app" (edges demo_graph) = Some (localDependencies demo_app) /\
  incl (localDependencies demo_app) (dependencies demo_app) /\
  (forall d, In d (localDependencies demo_app) ->
             In d (map_keys (packages demo_graph))).
Proof.
  apply (buildDependencyGraph_local_dependencies
           demo_load demo_dirname demo_paths demo_graph "app" demo_app).
  - reflexivity.
  - reflexivity.
Defined.

(* ================================================================== *)
(** ** The graphs this module makes *)
(* ================================================================== *)

Lemma edge_forward_pair E a b : edge E a b -> forward_pair E a b.
Proof.
  unfold edge, forward_pair. intros H. apply get_or_empty_In in H.
  destruct H as (s & Hg & Hin). exists s. split; [| exact Hin].
  now apply map_get_In.
Qed.

(** On a real [Map] the two readings of an edge agree. *)
Lemma forward_pair_edge E a b : Map_ok E -> forward_pair E a b -> edge E a b.
Proof.
  intros Hok (deps & Hin & Hb). unfold edge, get_or_empty.
  now rewrite (In_map_get a deps E Hok Hin).
Qed.

Lemma targets_are_nodes_known graph :
  targets_are_nodes graph -> targets_known graph.
Proof. intros H a b Hab. apply (H a b). now apply edge_forward_pair. Qed.

Lemma map_set_entries {V} (Q : string -> V -> Prop) k v m :
  (forall k' v', In (k', v') m -> Q k' v') -> Q k v ->
  forall k' v', In (k', v') (map_set k v m) -> Q k' v'.
Proof.
  intros Hm Hq. induction m as [| [k0 v0] m IH]; simpl.
  - intros k' v' [[= <- <-] | []]. exact Hq.
  - destruct (String.eqb_spec k k0) as [-> | Hn]; intros k' v' [He | Hin].
    + now injection He as <- <-.
    + apply Hm. now right.
    + apply Hm. now left.
    + apply IH; [| exact Hin]. intros a b Hab. apply Hm. now right.
Qed.

Lemma set_of_list_Set_ok l : Set_ok (set_of_list l).
Proof.
  unfold Set_ok, set_of_list.
  assert (H : forall acc, NoDup acc ->
                NoDup (fold_left (fun s x => set_add x s) l acc)).
  { induction l as [| x l IH]; simpl; intros acc Ha; [exact Ha |].
    apply IH. now apply set_add_NoDup. }
  apply H. constructor.
Qed.

Lemma fold_map_set_invariant {A V : Type} (Q : string -> V -> Prop)
  (f : JMap V -> A -> JMap V) (kv : A -> string * V) :
  (forall m a, f m a = map_set (fst (kv a)) (snd (kv a)) m) ->
  (forall a, Q (fst (kv a)) (snd (kv a))) ->
  forall l acc,
    Map_ok acc -> (forall k v, In (k, v) acc -> Q k v) ->
    Map_ok (fold_left f l acc) /\
    (forall k v, In (k, v) (fold_left f l acc) -> Q k v).
Proof.
  intros Hf Hq. induction l as [| a l IH]; simpl; intros acc Hok Hacc.
  - split; assumption.
  - apply IH; rewrite Hf.
    + now apply map_set_Map_ok.
    + apply map_set_entries; [exact Hacc | apply Hq].
Qed.

(** Whatever the checkpoint holds, the graph restored from it stores each
    package under its name and has the transpose of its edges as reverse
    edges. *)
Lemma deserializeGraph_made_by_module serialized :
  made_by_module (deserializeGraph serialized).
Proof.
  unfold made_by_module, Graph_ok, keyed_by_name, deserializeGraph. simpl.
  destruct (fold_map_set_invariant (fun k p => name p = k)
              (fun packages pkg =>
                 map_set (ser_name pkg) (restore_package pkg) packages)
              (fun pkg => (ser_name pkg, restore_package pkg))
              (fun m a => eq_refl) (fun a => eq_refl)
              (ser_packages serialized) [])
    as [Hp1 Hp2]; [constructor | intros k v [] |].
  destruct (fold_map_set_invariant (fun k deps => Set_ok deps)
              (fun edges (entry : string * list string) =>
                 let (pkg, deps) := entry in
                 map_set pkg (set_of_list deps) edges)
              (fun entry => (fst entry, set_of_list (snd entry))))
    with (l := ser_edges serialized) (acc := @nil (string * JSet))
    as [He1 He2].
  - intros m [k deps]. reflexivity.
  - intros [k deps]. simpl. apply set_of_list_Set_ok.
  - constructor.
  - intros k v [].
  - split; [split; [exact Hp1 | split; [exact He1 | exact He2]] |].
    split; [exact Hp2 | apply buildReverseGraph_transpose_of].
Qed.

Lemma first_pass_keyed load dirname paths : forall acc P,
  (forall k p, In (k, p) acc -> name p = k) ->
  first_pass load dirname paths acc = Returns P ->
  forall k p, In (k, p) P -> name p = k.
Proof.
  induction paths as [| x paths IH]; simpl; intros acc P Hacc H.
  - now injection H as <-.
  - destruct (parsePackageJson load dirname x) as [info | |];
      try discriminate.
    apply (IH _ _ (map_set_entries (fun k p => name p = k)
                     (name info) info acc Hacc eq_refl) H).
Qed.

Lemma local_pass_Set_ok P info : Set_ok (edge_set P info).
Proof.
  unfold edge_set, local_pass, Set_ok.
  assert (H : forall deps (acc : JSet * JSet),
            NoDup (snd acc) ->
            NoDup (snd (fold_left
                          (fun (acc : JSet * JSet) dep =>
                             if map_has dep P
                             then (set_add dep (fst acc),
                                   set_add dep (snd acc))
                             else acc) deps acc))).
  { induction deps as [| d deps IH]; simpl; intros acc Ha; [exact Ha |].
    apply IH. destruct (map_has d P); [| exact Ha].
    simpl. now apply set_add_NoDup. }
  apply H. constructor.
Qed.

(** A graph returned by [buildDependencyGraph] is of that kind too, and all
    its forward pairs end at nodes. *)
Lemma buildDependencyGraph_made_by_module load dirname paths graph :
  buildDependencyGraph load dirname paths = Returns graph ->
  made_by_module graph /\ targets_are_nodes graph.
Proof.
  unfold buildDependencyGraph.
  destruct (first_pass load dirname paths []) as [P | |] eqn:Hfirst;
    try discriminate.
  assert (Hok : Map_ok P).
  { apply (first_pass_Map_ok _ _ _ [] _) in Hfirst; [exact Hfirst |].
    constructor. }
  assert (Hkey : forall k p, In (k, p) P -> name p = k).
  { apply (first_pass_keyed load dirname paths [] P); [| exact Hfirst].
    intros k p []. }
  rewrite (second_pass_spec P Hok). intros [= <-].
  unfold made_by_module, Graph_ok, keyed_by_name, targets_are_nodes.
  cbn [packages edges reverseEdges].
  assert (Hk1 : forall g : PackageInfo -> PackageInfo,
            map_keys (map (fun e => (fst e, g (snd e))) P) = map_keys P).
  { intros g. unfold map_keys. now rewrite map_map. }
  assert (Hk2 : forall g : PackageInfo -> JSet,
            map_keys (map (fun e => (fst e, g (snd e))) P) = map_keys P).
  { intros g. unfold map_keys. now rewrite map_map. }
  split; [split; [split; [| split] | split] |].
  - unfold Map_ok. now rewrite Hk1.
  - unfold Map_ok. now rewrite Hk2.
  - intros k deps Hin. apply in_map_iff in Hin.
    destruct Hin as ([k0 info] & [= <- <-] & _). apply local_pass_Set_ok.
  - intros k pkg Hin. apply in_map_iff in Hin.
    destruct Hin as ([k0 info] & [= <- <-] & Hin). simpl.
    now apply Hkey.
  - apply buildReverseGraph_transpose_of.
  - intros source target (deps & Hin & Ht). apply in_map_iff in Hin.
    destruct Hin as ([k0 info] & [= <- <-] & _). rewrite Hk1.
    unfold edge_set in Ht. destruct (local_pass_spec P info) as [Heq Hl].
    rewrite <- Heq in Ht. now apply Hl in Ht.
Qed.

(* ================================================================== *)
(** ** The test suite, run on the embedding *)
(* ================================================================== *)

(** 'should sort packages in dependency order', 'should handle diamond
    dependencies', and the orders the pattern tests pin down. *)
Example test_topologicalSort_orders :
  topologicalSort graph_abc = Returns ["a"; "b"; "c"] /\
  topologicalSort pattern_diamond
    = Returns ["package-a"; "package-b"; "package-c"; "package-d"] /\
  topologicalSort pattern_linear4
    = Returns ["package-0"; "package-1"; "package-2"; "package-3"] /\
  topologicalSort pattern_complex
    = Returns ["package-a"; "package-b"; "package-c"; "package-d";
               "package-e"; "package-f"].
Proof. repeat split. Qed.

(** 'should detect circular dependencies' *)
Example test_topologicalSort_cycles :
  topologicalSort graph_cycle = Throws (cycle_message "a") /\
  topologicalSort pattern_circular = Throws (cycle_message "package-a").
Proof. repeat split. Qed.

(** 'should build reverse dependency graph' *)
Example test_buildReverseGraph :
  let reverse := buildReverseGraph [("a", []); ("b", ["a"]); ("c", ["a"; "b"])]
  in map_get "a" reverse = Some ["b"; "c"] /\
     map_get "b" reverse = Some ["c"] /\
     map_get "c" reverse = None.
Proof. repeat split. Qed.

(** 'should validate correct graph', 'should detect missing dependencies',
    'should detect circular dependencies' *)
Example test_validateGraph :
  validateGraph (createMockGraph [("a", []); ("b", ["a"])])
    = Returns {| valid := true; errors := [] |} /\
  validateGraph graph_missing
    = Returns {| valid := false;
                 errors := [missing_message "a" "nonexistent"] |} /\
  validateGraph graph_cycle
    = Returns {| valid := false; errors := [cycle_message "a"] |}.
Proof. repeat split. Qed.

(** 'should build complete graph from real files', on the demo workspace. *)
Example test_buildDependencyGraph :
  exists graph,
    buildDependencyGraph demo_load demo_dirname demo_paths = Returns graph /\
    map_keys (packages graph) = ["app"; "lib"] /\
    option_map localDependencies (map_get "app" (packages graph))
      = Some ["lib"].
Proof. exists demo_graph. repeat split. Qed.

(* ================================================================== *)
(** * Further properties of the module *)
(* ================================================================== *)

(* ================================================================== *)
(** ** topologicalSort: what is returned, and when *)
(* ================================================================== *)

Lemma topologicalSort_Returns_closed graph r a b :
  topologicalSort graph = Returns r ->
  In a r -> reaches_refl (edges graph) a b -> In b r.
Proof.
  intros H Ha Hr. induction Hr as [a b Hab | a | a b c _ IH1 _ IH2]; auto.
  apply (appears_before_In b a r).
  now apply (topologicalSort_Returns_before graph).
Qed.

Lemma topologicalSort_Returns_reach_before graph r a b :
  topologicalSort graph = Returns r ->
  In a r -> reaches (edges graph) a b -> appears_before b a r.
Proof.
  intros H Ha Hab. apply topologicalSort_Returns in H.
  destruct H as (_ & _ & Hf & _).
  apply in_split in Ha. destruct Ha as (l1 & l2 & ->).
  assert (Hin : In b (rev l1)).
  { apply (deps_first_reaches _ _ Hf a b Hab (rev l2)).
    rewrite rev_app_distr. simpl. now rewrite <- app_assoc. }
  apply in_rev in Hin. apply in_split in Hin. destruct Hin as (m1 & m2 & ->).
  exists m1, m2, l2. now rewrite <- app_assoc.
Qed.

(** X1.  Whatever the graph, an order that [topologicalSort] returns has
    no repetition and holds exactly the names that a package key reaches
    in zero or more forward-edge steps (package or not); and each name in
    it comes strictly after every name it reaches in one or more steps. *)
Theorem topologicalSort_returns_reachable_names
  (graph : DependencyGraph) (r : list string) :
  topologicalSort graph = Returns r ->
  NoDup r /\
  (forall y, In y r <->
             exists k, In k (map_keys (packages graph)) /\
                       reaches_refl (edges graph) k y) /\
  (forall a b, In a r -> reaches (edges graph) a b -> appears_before b a r).
Proof.
  intros H. destruct (topologicalSort_Returns _ _ H) as (Hn & Hk & _ & Hr).
  split; [exact Hn |]. split.
  - intros y. split; [apply Hr |]. intros (k & Hkey & Hreach).
    apply (topologicalSort_Returns_closed graph r k y H); auto.
  - intros a b. now apply topologicalSort_Returns_reach_before.
Qed.

Lemma topologicalSort_returns_reachable_names_witness :
  NoDup ["nonexistent"; "a"] /\
  (forall y, In y ["nonexistent"; "a"] <->
             exists k, In k (map_keys (packages graph_missing)) /\
                       reaches_refl (edges graph_missing) k y) /\
  (forall a b, In a ["nonexistent"; "a"] ->
               reaches (edges graph_missing) a b ->
               appears_before b a ["nonexistent"; "a"]).
Proof.
  apply (topologicalSort_returns_reachable_names graph_missing).
  reflexivity.
Defined.

(** X2.  [topologicalSort] throws exactly when a name that some package
    key reaches lies on a cycle of forward edges: the error then names such
    a name, and a returned order means that no cycle is within reach of the
    packages.  A cycle among names that no package reaches goes
    unnoticed. *)
Theorem topologicalSort_throws_iff_cycle_in_reach (graph : DependencyGraph) :
  (forall m, topologicalSort graph = Throws m ->
     exists k y, In k (map_keys (packages graph)) /\
                 reaches_refl (edges graph) k y /\
                 reaches (edges graph) y y /\
                 m = cycle_message y) /\
  (forall k y, In k (map_keys (packages graph)) ->
               reaches_refl (edges graph) k y ->
               reaches (edges graph) y y ->
     exists y', topologicalSort graph = Throws (cycle_message y')) /\
  ((forall k y, In k (map_keys (packages graph)) ->
                reaches_refl (edges graph) k y ->
                ~ reaches (edges graph) y y) ->
   exists r, topologicalSort graph = Returns r).
Proof.
  split; [| split].
  - apply topologicalSort_Throws_reach.
  - intros k y Hk Hky Hyy.
    destruct (topologicalSort graph) as [r | m |] eqn:Hs.
    + exfalso. apply (topologicalSort_Returns_no_cycle graph r y Hs); auto.
      apply (topologicalSort_Returns_closed graph r k y Hs); auto.
      apply topologicalSort_Returns in Hs. now apply Hs.
    + destruct (topologicalSort_Throws _ _ Hs) as (y' & -> & _). now exists y'.
    + exfalso. now apply (topologicalSort_fuel graph).
  - intros Hnone. destruct (topologicalSort graph) as [r | m |] eqn:Hs.
    + now exists r.
    + exfalso. apply topologicalSort_Throws_reach in Hs.
      destruct Hs as (k & y & Hk & Hky & Hyy & _). now apply (Hnone k y).
    + exfalso. now apply (topologicalSort_fuel graph).
Qed.

(** A cycle out of reach: the only package is [p], and [x -> y -> x] hangs
    off no package. *)
Example topologicalSort_unreached_cycle :
  topologicalSort
    {| packages := packages (createMockGraph [("p", [])]);
       edges := [("p", []); ("x", ["y"]); ("y", ["x"])];
       reverseEdges := [] |}
  = Returns ["p"].
Proof. reflexivity. Qed.

Lemma for_each_visited E fuel deps : forall st,
  (forall d, In d deps -> In d (visited st)) ->
  deps = [] \/ 1 <= fuel ->
  for_each (visit fuel E) deps st = Returns st.
Proof.
  induction deps as [| d deps IH]; simpl; intros st Hall Hf; [reflexivity |].
  destruct Hf as [Hf | Hf]; [discriminate |].
  destruct fuel as [| fuel]; [lia |]. simpl.
  assert (Hd : set_has d (visited st) = true)
    by (apply set_has_true, Hall; now left).
  rewrite Hd.
  destruct deps as [| d' deps]; [reflexivity |].
  apply (IH st); [| right; lia]. intros x Hx. apply Hall. now right.
Qed.

Lemma root_loop_in_order E fuel todo : forall done,
  length E < fuel ->
  NoDup (done ++ todo) ->
  deps_first E (rev (done ++ todo)) ->
  for_each (visit_root fuel E) todo
    {| visited := done; visiting := []; result := done |}
  = Returns {| visited := done ++ todo; visiting := [];
               result := done ++ todo |}.
Proof.
  induction todo as [| k todo IH]; intros done Hf Hn Hd.
  - simpl. now rewrite app_nil_r.
  - assert (Hk : ~ In k done).
    { apply NoDup_remove_2 in Hn. intros Hi. apply Hn, in_or_app. now left. }
    assert (Hdeps : forall b, edge E k b -> In b done).
    { rewrite rev_app_distr in Hd. simpl in Hd. rewrite <- app_assoc in Hd.
      apply deps_first_suffix in Hd. simpl in Hd. destruct Hd as [Hd _].
      intros b Hb. apply in_rev. now apply Hd. }
    simpl for_each. unfold visit_root at 1. simpl visited.
    apply set_has_false in Hk. rewrite Hk.
    destruct fuel as [| fuel]; [lia |]. simpl visit. rewrite Hk. simpl.
    rewrite for_each_visited.
    + simpl. apply set_has_false in Hk. rewrite (set_add_absent _ _ Hk).
      rewrite String.eqb_refl. simpl.
      replace (done ++ k :: todo) with ((done ++ [k]) ++ todo)
        by (rewrite <- app_assoc; reflexivity).
      apply IH; [lia | |]; rewrite <- app_assoc; assumption.
    + simpl. exact Hdeps.
    + destruct (get_or_empty k E) as [| d ds] eqn:Hg; [now left | right].
      assert (Hin : In k (map_keys E)).
      { apply (get_or_empty_key k d). rewrite Hg. now left. }
      unfold map_keys in Hin. destruct E; [destruct Hin | simpl in Hf; lia].
Qed.

(** X3.  When the package keys, in insertion order, already list every
    package after all of its forward-edge targets, [topologicalSort] returns
    them in that very order. *)
Theorem topologicalSort_keeps_sorted_order (graph : DependencyGraph) :
  Map_ok (packages graph) ->
  deps_first (edges graph) (rev (map_keys (packages graph))) ->
  topologicalSort graph = Returns (map_keys (packages graph)).
Proof.
  intros Hok Hd. unfold topologicalSort, sort_init.
  rewrite (root_loop_in_order (edges graph) (sort_fuel graph)
             (map_keys (packages graph)) []).
  - reflexivity.
  - unfold sort_fuel. lia.
  - exact Hok.
  - exact Hd.
Qed.

Lemma topologicalSort_keeps_sorted_order_witness :
  topologicalSort pattern_complex = Returns (map_keys (packages pattern_complex)).
Proof.
  apply (topologicalSort_keeps_sorted_order pattern_complex).
  - unfold Map_ok. simpl. nodup_literal.
  - simpl. repeat split; intros b H; edge_cases H; simpl; auto 10.
Defined.

(* ================================================================== *)
(** ** validateGraph: what [valid] means *)
(* ================================================================== *)

Lemma missing_targets_nil graph :
  missing_targets graph = [] <-> targets_are_nodes graph.
Proof.
  split.
  - intros Hnil s t Hst.
    destruct (in_dec string_dec t (map_keys (packages graph))) as [Hi | Hn];
      [exact Hi |].
    exfalso. assert (H : In (s, t) (missing_targets graph))
      by (apply missing_targets_In; auto).
    rewrite Hnil in H. destruct H.
  - intros Htn. destruct (missing_targets graph) as [| [s t] l] eqn:Hm;
      [reflexivity |].
    exfalso. assert (H : In (s, t) (missing_targets graph))
      by (rewrite Hm; now left).
    apply missing_targets_In in H. destruct H as [Hp Hn]. apply Hn, (Htn s t Hp).
Qed.

Lemma cycle_through_node graph x :
  targets_are_nodes graph -> reaches (edges graph) x x ->
  In x (map_keys (packages graph)).
Proof.
  intros Htn Hx. apply clos_trans_tn1 in Hx.
  destruct Hx as [y Hy | y z Hyz _].
  - apply (Htn x). now apply edge_forward_pair.
  - apply (Htn y). now apply edge_forward_pair.
Qed.

(** X4.  [validateGraph] answers [valid = true] exactly for the graphs in
    which every forward-edge target is a key of the node map and the forward
    edges have no cycle. *)
Theorem validateGraph_valid_iff (graph : DependencyGraph) :
  exists v,
    validateGraph graph = Returns v /\
    (valid v = true <->
     targets_are_nodes graph /\ acyclic (edges graph)).
Proof.
  unfold validateGraph. rewrite check_targets_missing.
  destruct (topologicalSort graph) as [r | m |] eqn:Hs.
  - eexists. split; [reflexivity |]. simpl.
    rewrite Nat.eqb_eq, length_zero_iff_nil. split.
    + intros Hnil. apply map_eq_nil in Hnil. apply missing_targets_nil in Hnil.
      split; [exact Hnil |]. intros x Hx.
      apply (topologicalSort_Returns_no_cycle graph r x Hs); [| exact Hx].
      apply topologicalSort_Returns in Hs. apply Hs.
      now apply cycle_through_node.
    + intros [Htn _]. apply missing_targets_nil in Htn. now rewrite Htn.
  - eexists. split; [reflexivity |]. simpl.
    rewrite Nat.eqb_eq, length_zero_iff_nil. split.
    + intros Hnil. apply app_eq_nil in Hnil. destruct Hnil as [_ Hnil].
      discriminate.
    + intros [_ Hac]. exfalso. apply topologicalSort_Throws in Hs.
      destruct Hs as (y & _ & Hy). now apply (Hac y).
  - exfalso. now apply (topologicalSort_fuel graph).
Qed.

(* ================================================================== *)
(** ** findAllDependents and the forward edges *)
(* ================================================================== *)

Lemma clos_trans_flip {A : Type} (R1 R2 : A -> A -> Prop) :
  (forall a b, R1 a b -> R2 b a) ->
  forall a b, clos_trans A R1 a b -> clos_trans A R2 b a.
Proof.
  intros H a b Hab. induction Hab as [a b Hab | a b c _ IH1 _ IH2].
  - apply t_step. now apply H.
  - eapply t_trans; eassumption.
Qed.

Lemma transpose_edge E R a b :
  Map_ok E -> transpose_of E R -> (edge R a b <-> edge E b a).
Proof.
  intros Hok [Htr _]. unfold edge at 1. rewrite Htr. split.
  - now apply forward_pair_edge.
  - apply edge_forward_pair.
Qed.

Lemma transpose_reaches E R a b :
  Map_ok E -> transpose_of E R -> (reaches R a b <-> reaches E b a).
Proof.
  intros Hok Htr. split; apply clos_trans_flip; intros x y Hxy.
  - now apply (transpose_edge E R x y).
  - now apply (transpose_edge E R y x).
Qed.

(** X5.  In a graph whose [reverseEdges] is the transpose of its [edges],
    [findAllDependents(name, graph)] is the set of names from which [name]
    is reached in one or more forward-edge steps: the packages that depend
    on [name], directly or through others. *)
Theorem findAllDependents_transitive_dependants
  (packageName : string) (graph : DependencyGraph) :
  Map_ok (edges graph) ->
  transpose_of (edges graph) (reverseEdges graph) ->
  exists ds,
    findAllDependents packageName graph = Returns ds /\
    (forall d, In d ds <-> reaches (edges graph) d packageName).
Proof.
  intros Hok Htr.
  destruct (findAllDependents_traverse packageName graph) as (st & Ht & Hf).
  exists (fd_dependents st). split; [exact Hf |]. intros d.
  rewrite (traverse_init_reaches _ _ _ _ Ht d).
  now apply transpose_reaches.
Qed.

Lemma graph_abc_edges_ok : Map_ok (edges graph_abc).
Proof. unfold Map_ok. simpl. nodup_literal. Qed.

Lemma findAllDependents_transitive_dependants_witness :
  exists ds,
    findAllDependents "a" graph_abc = Returns ds /\
    (forall d, In d ds <-> reaches (edges graph_abc) d "a").
Proof.
  apply (findAllDependents_transitive_dependants "a" graph_abc).
  - exact graph_abc_edges_ok.
  - exact (buildReverseGraph_transpose_of (edges graph_abc)).
Defined.

(** X6.  Dependents are closed under taking dependents: when [b] is among
    the dependents of [a], every dependent of [b] is a dependent of [a]. *)
Theorem findAllDependents_closed
  (graph : DependencyGraph) (a b : string) (da db : JSet) :
  findAllDependents a graph = Returns da ->
  findAllDependents b graph = Returns db ->
  In b da ->
  incl db da.
Proof.
  intros Ha Hb Hin d Hd.
  destruct (findAllDependents_traverse a graph) as (sa & Hta & Hfa).
  destruct (findAllDependents_traverse b graph) as (sb & Htb & Hfb).
  rewrite Hfa in Ha. injection Ha as <-.
  rewrite Hfb in Hb. injection Hb as <-.
  apply (traverse_init_reaches _ _ _ _ Hta).
  apply (traverse_init_reaches _ _ _ _ Hta) in Hin.
  apply (traverse_init_reaches _ _ _ _ Htb) in Hd.
  eapply t_trans; eassumption.
Qed.

Lemma findAllDependents_closed_witness : incl ["c"] ["b"; "c"].
Proof.
  apply (findAllDependents_closed graph_abc "a" "b" ["b"; "c"] ["c"]).
  - reflexivity.
  - reflexivity.
  - simpl. now left.
Defined.

(** X7.  In a graph whose [reverseEdges] is the transpose of its [edges],
    every order that [topologicalSort] returns places a package strictly
    before each of its dependents that the order contains. *)
Theorem dependents_come_later
  (graph : DependencyGraph) (a d : string) (r : list string) (ds : JSet) :
  Map_ok (edges graph) ->
  transpose_of (edges graph) (reverseEdges graph) ->
  topologicalSort graph = Returns r ->
  findAllDependents a graph = Returns ds ->
  In d ds -> In d r ->
  appears_before a d r.
Proof.
  intros Hok Htr Hs Hf Hd Hr.
  destruct (findAllDependents_traverse a graph) as (st & Ht & Hfa).
  rewrite Hfa in Hf. injection Hf as <-.
  apply (traverse_init_reaches _ _ _ _ Ht) in Hd.
  apply (transpose_reaches _ _ _ _ Hok Htr) in Hd.
  now apply (topologicalSort_Returns_reach_before graph r d a).
Qed.

Lemma dependents_come_later_witness :
  appears_before "a" "c" ["a"; "b"; "c"].
Proof.
  apply (dependents_come_later graph_abc "a" "c" ["a"; "b"; "c"] ["b"; "c"]).
  - exact graph_abc_edges_ok.
  - exact (buildReverseGraph_transpose_of (edges graph_abc)).
  - reflexivity.
  - reflexivity.
  - simpl. auto.
  - simpl. auto.
Defined.

(* ================================================================== *)
(** ** buildReverseGraph, twice *)
(* ================================================================== *)

Lemma add_dependent_Map_ok pkg R dep :
  Map_ok R -> Map_ok (add_dependent pkg R dep).
Proof.
  intros Hok. unfold add_dependent.
  assert (H1 : Map_ok (if map_has dep R then R else map_set dep [] R)).
  { destruct (map_has dep R); [exact Hok | now apply map_set_Map_ok]. }
  destruct (map_get dep _); [now apply map_set_Map_ok | exact H1].
Qed.

Lemma buildReverseGraph_Map_ok E : Map_ok (buildReverseGraph E).
Proof.
  unfold buildReverseGraph.
  assert (H : forall R, Map_ok R -> Map_ok (fold_left reverse_step E R)).
  { induction E as [| [pkg deps] E IH]; simpl; intros R HR; [exact HR |].
    apply IH. clear IH. revert R HR.
    induction deps as [| d deps IHd]; simpl; intros R HR; [exact HR |].
    apply IHd. now apply add_dependent_Map_ok. }
  apply H. constructor.
Qed.

(** X8.  Reversing twice gives back the forward pairs: [target] is in the
    set at [source] of [buildReverseGraph(buildReverseGraph(E))] exactly
    when [(source, target)] is a forward pair of [E].  What is lost is the
    entry of a source whose set is empty: it has no entry any more. *)
Theorem buildReverseGraph_twice (E : JMap JSet) :
  (forall source target,
      In target (get_or_empty source (buildReverseGraph (buildReverseGraph E)))
      <-> forward_pair E source target) /\
  (forall source,
      map_get source (buildReverseGraph (buildReverseGraph E)) = None <->
      forall target, ~ forward_pair E source target).
Proof.
  pose proof (buildReverseGraph_transpose_of E) as H1.
  pose proof (buildReverseGraph_transpose_of (buildReverseGraph E)) as H2.
  pose proof (buildReverseGraph_Map_ok E) as Hok.
  assert (Hm : forall source target,
             In target (get_or_empty source
                          (buildReverseGraph (buildReverseGraph E)))
             <-> forward_pair E source target).
  { intros s t. destruct H2 as [H2 _]. rewrite H2.
    destruct H1 as [H1 _]. rewrite <- H1. split.
    - now apply forward_pair_edge.
    - apply edge_forward_pair. }
  split; [exact Hm |].
  intros s. split.
  - intros Hnone t Hst. apply Hm in Hst. unfold get_or_empty in Hst.
    rewrite Hnone in Hst. destruct Hst.
  - intros Hno.
    destruct (map_get s (buildReverseGraph (buildReverseGraph E)))
      as [l |] eqn:Hg; [| reflexivity].
    destruct l as [| t l]; [destruct H2 as [_ H2]; now apply H2 in Hg |].
    exfalso. apply (Hno t), Hm. unfold get_or_empty. rewrite Hg. now left.
Qed.

(* ================================================================== *)
(** ** The codec and the analyses *)
(* ================================================================== *)

Lemma map_has_keys {V W : Type} k (m1 : JMap V) (m2 : JMap W) :
  map_keys m1 = map_keys m2 -> map_has k m1 = map_has k m2.
Proof.
  intros Hk. pose proof (map_has_true k m1) as H1.
  pose proof (map_has_true k m2) as H2. rewrite Hk in H1.
  destruct (map_has k m1), (map_has k m2); try reflexivity.
  - symmetry. apply H2, H1. reflexivity.
  - apply H1, H2. reflexivity.
Qed.

Lemma topologicalSort_same g1 g2 :
  map_keys (packages g1) = map_keys (packages g2) ->
  edges g1 = edges g2 ->
  topologicalSort g1 = topologicalSort g2.
Proof.
  intros Hk He. unfold topologicalSort, sort_fuel. now rewrite Hk, He.
Qed.

Lemma validateGraph_same g1 g2 :
  map_keys (packages g1) = map_keys (packages g2) ->
  edges g1 = edges g2 ->
  validateGraph g1 = validateGraph g2.
Proof.
  intros Hk He. unfold validateGraph.
  rewrite (topologicalSort_same g1 g2 Hk He), !check_targets_missing.
  unfold missing_targets. rewrite He.
  rewrite (filter_ext _ (fun p => negb (map_has (snd p) (packages g2))));
    [reflexivity |].
  intros p. f_equal. now apply map_has_keys.
Qed.

Lemma Map_equiv_edge R1 R2 a b :
  Map_equiv R1 R2 -> (edge R1 a b <-> edge R2 a b).
Proof.
  intros H. specialize (H a). unfold edge, get_or_empty.
  destruct (map_get a R1), (map_get a R2); try contradiction.
  - apply H.
  - reflexivity.
Qed.

Lemma Map_equiv_reaches R1 R2 a b :
  Map_equiv R1 R2 -> (reaches R1 a b <-> reaches R2 a b).
Proof.
  intros H. split; intros Hr; induction Hr as [x y Hxy | x y z _ IH1 _ IH2].
  - apply t_step. now apply (Map_equiv_edge R1 R2).
  - eapply t_trans; eassumption.
  - apply t_step. now apply (Map_equiv_edge R1 R2).
  - eapply t_trans; eassumption.
Qed.

(** X9.  Saving and restoring a graph changes none of the analyses.  For a
    graph that stores every package under its own name, the restored graph
    gives the same outcome of [topologicalSort] (the same order, or the
    same error) and the same report of [validateGraph]; and when
    [reverseEdges] is the transpose of [edges], [findAllDependents] returns
    sets with the same members. *)
Theorem analyses_survive_checkpoint (graph : DependencyGraph) :
  Graph_ok graph ->
  keyed_by_name graph ->
  let restored := deserializeGraph (serializeGraph graph) in
  topologicalSort restored = topologicalSort graph /\
  validateGraph restored = validateGraph graph /\
  (transpose_of (edges graph) (reverseEdges graph) ->
   forall packageName ds ds',
     findAllDependents packageName graph = Returns ds ->
     findAllDependents packageName restored = Returns ds' ->
     forall d, In d ds' <-> In d ds).
Proof.
  intros (Hp & He & Hs) Hkey restored.
  assert (HK : map_keys (packages restored) = map_keys (packages graph)).
  { unfold restored. rewrite deserialize_serialize_packages by assumption.
    unfold map_keys. now rewrite map_map. }
  assert (HE : edges restored = edges graph)
    by now apply deserialize_serialize_edges.
  split; [now apply topologicalSort_same |].
  split; [now apply validateGraph_same |].
  intros Htr n ds ds' Hd Hd' d.
  assert (HR : Map_equiv (reverseEdges restored) (reverseEdges graph)).
  { apply (transpose_of_unique (edges graph)); [| exact Htr].
    change (reverseEdges restored)
      with (buildReverseGraph (edges restored)).
    rewrite HE. apply buildReverseGraph_transpose_of. }
  destruct (findAllDependents_traverse n graph) as (s1 & Ht1 & Hf1).
  destruct (findAllDependents_traverse n restored) as (s2 & Ht2 & Hf2).
  rewrite Hf1 in Hd. injection Hd as <-.
  rewrite Hf2 in Hd'. injection Hd' as <-.
  rewrite (traverse_init_reaches _ _ _ _ Ht1 d).
  rewrite (traverse_init_reaches _ _ _ _ Ht2 d).
  now apply Map_equiv_reaches.
Qed.

Lemma analyses_survive_checkpoint_witness :
  let restored := deserializeGraph (serializeGraph graph_roundtrip) in
  topologicalSort restored = topologicalSort graph_roundtrip /\
  validateGraph restored = validateGraph graph_roundtrip /\
  (transpose_of (edges graph_roundtrip) (reverseEdges graph_roundtrip) ->
   forall packageName ds ds',
     findAllDependents packageName graph_roundtrip = Returns ds ->
     findAllDependents packageName restored = Returns ds' ->
     forall d, In d ds' <-> In d ds).
Proof.
  apply (analyses_survive_checkpoint graph_roundtrip).
  - exact graph_roundtrip_ok.
  - exact graph_roundtrip_keyed.
Defined.

Lemma graph_eta g1 g2 :
  packages g1 = packages g2 -> edges g1 = edges g2 ->
  reverseEdges g1 = reverseEdges g2 -> g1 = g2.
Proof.
  destruct g1, g2. simpl. now intros -> -> ->.
Qed.

Lemma restore_package_reloaded pkg :
  reload_package (restore_package pkg) = restore_package pkg.
Proof.
  unfold reload_package, restore_package. simpl. f_equal.
  apply set_of_list_NoDup, set_of_list_Set_ok.
Qed.

Lemma deserializeGraph_reloaded serialized k p :
  In (k, p) (packages (deserializeGraph serialized)) -> reload_package p = p.
Proof.
  unfold deserializeGraph. simpl.
  destruct (fold_map_set_invariant (fun _ p => reload_package p = p)
              (fun packages pkg =>
                 map_set (ser_name pkg) (restore_package pkg) packages)
              (fun pkg => (ser_name pkg, restore_package pkg))
              (fun m a => eq_refl) restore_package_reloaded
              (ser_packages serialized) [])
    as [_ H]; [constructor | intros a b [] |].
  apply H.
Qed.

(** X10.  A restored graph is a fixed point of the codec: saving it and
    restoring it again gives the very same graph, whatever the checkpoint
    it came from (repeated names and repeated list entries included). *)
Theorem deserializeGraph_fixed_point (serialized : SerializedGraph) :
  deserializeGraph (serializeGraph (deserializeGraph serialized))
  = deserializeGraph serialized.
Proof.
  destruct (deserializeGraph_made_by_module serialized)
    as ((Hp & He & Hs) & Hkey & _).
  assert (HE : edges (deserializeGraph
                        (serializeGraph (deserializeGraph serialized)))
               = edges (deserializeGraph serialized))
    by now apply deserialize_serialize_edges.
  apply graph_eta.
  - rewrite deserialize_serialize_packages by assumption.
    rewrite <- (map_id (packages (deserializeGraph serialized))) at 2.
    apply map_ext_in. intros [k p] Hin. simpl. f_equal.
    now apply (deserializeGraph_reloaded serialized k).
  - exact HE.
  - change (buildReverseGraph
              (edges (deserializeGraph
                        (serializeGraph (deserializeGraph serialized))))
            = buildReverseGraph (edges (deserializeGraph serialized))).
    now rewrite HE.
Qed.

Lemma map_set_keys {V} k (v : V) m :
  map_keys (map_set k v m) = set_add k (map_keys m).
Proof.
  unfold set_add. destruct (set_has k (map_keys m)) eqn:Hh.
  - apply map_set_keys_present. now apply set_has_true.
  - apply set_has_false in Hh. rewrite map_set_absent by assumption.
    unfold map_keys. now rewrite map_app.
Qed.

Lemma fold_map_set_keys {A V : Type}
  (f : JMap V -> A -> JMap V) (kv : A -> string * V) :
  (forall m a, f m a = map_set (fst (kv a)) (snd (kv a)) m) ->
  forall l acc,
    map_keys (fold_left f l acc) =
    fold_left (fun s x => set_add x s) (map (fun a => fst (kv a)) l)
              (map_keys acc).
Proof.
  intros Hf. induction l as [| a l IH]; simpl; intros acc; [reflexivity |].
  now rewrite IH, Hf, map_set_keys.
Qed.

Lemma fold_map_set_get {A V : Type}
  (f : JMap V -> A -> JMap V) (kv : A -> string * V) :
  (forall m a, f m a = map_set (fst (kv a)) (snd (kv a)) m) ->
  forall l acc n,
    map_get n (fold_left f l acc) =
    match find_last (fun a => String.eqb n (fst (kv a))) l with
    | Some a => Some (snd (kv a))
    | None => map_get n acc
    end.
Proof.
  intros Hf. induction l as [| a l IH]; simpl; intros acc n; [reflexivity |].
  rewrite IH. destruct (find_last _ l); [reflexivity |].
  rewrite Hf. destruct (String.eqb_spec n (fst (kv a))) as [-> | Hn].
  - apply map_get_set_eq.
  - apply map_get_set_neq. congruence.
Qed.

(** X11.  [deserializeGraph] on a checkpoint that repeats a name: the node
    map lists each name once, at the place of its first record, and holds
    under it the package restored from its last record; the same goes for
    repeated edge pairs. *)
Theorem deserializeGraph_last_record_wins (serialized : SerializedGraph) :
  map_keys (packages (deserializeGraph serialized))
    = set_of_list (map ser_name (ser_packages serialized)) /\
  (forall n,
      map_get n (packages (deserializeGraph serialized))
      = option_map restore_package
          (find_last (fun pkg => String.eqb n (ser_name pkg))
                     (ser_packages serialized))) /\
  map_keys (edges (deserializeGraph serialized))
    = set_of_list (map fst (ser_edges serialized)) /\
  (forall n,
      map_get n (edges (deserializeGraph serialized))
      = option_map (fun entry : string * list string => set_of_list (snd entry))
          (find_last (fun entry : string * list string =>
                        String.eqb n (fst entry))
                     (ser_edges serialized))).
Proof.
  unfold deserializeGraph. cbn [packages edges].
  split; [| split; [| split]].
  - now rewrite (fold_map_set_keys _
                   (fun pkg => (ser_name pkg, restore_package pkg))).
  - intros n.
    rewrite (fold_map_set_get _
               (fun pkg => (ser_name pkg, restore_package pkg)))
      by reflexivity.
    simpl. now destruct (find_last _ _).
  - rewrite (fold_map_set_keys _
               (fun entry : string * list string =>
                  (fst entry, set_of_list (snd entry))));
      [reflexivity | now intros m [k deps]].
  - intros n.
    rewrite (fold_map_set_get _
               (fun entry : string * list string =>
                  (fst entry, set_of_list (snd entry))));
      [| now intros m [k deps]].
    simpl. now destruct (find_last _ _).
Qed.

(** On [checkpoint_repeats]: one node [pkg], first in the map, restored
    from the second of its records, its repeated dependency kept once. *)
Example deserializeGraph_repeats :
  map_keys (packages (deserializeGraph checkpoint_repeats)) = ["pkg"; "other"] /\
  option_map version (map_get "pkg" (packages (deserializeGraph checkpoint_repeats)))
    = Some "2.0.0" /\
  option_map dependencies
    (map_get "pkg" (packages (deserializeGraph checkpoint_repeats)))
    = Some ["z"] /\
  edges (deserializeGraph checkpoint_repeats) = [("pkg", ["other"])].
Proof. repeat split. Qed.

(* ================================================================== *)
(** ** parsePackageJson *)
(* ================================================================== *)

Lemma collect_spec isDev field : forall acc : JSet * JSet,
  (forall d, In d (fst (collect isDev field acc)) <->
             In d (fst acc) \/ In d (field_keys field)) /\
  (forall d, In d (snd (collect isDev field acc)) <->
             In d (snd acc) \/ (isDev = true /\ In d (field_keys field))) /\
  (NoDup (fst acc) -> NoDup (fst (collect isDev field acc))) /\
  (NoDup (snd acc) -> NoDup (snd (collect isDev field acc))).
Proof.
  destruct field as [keys |]; simpl.
  - induction keys as [| k keys IH]; simpl; intros acc.
    + repeat split; auto; intuition.
    + destruct (IH (set_add k (fst acc),
                    if isDev then set_add k (snd acc) else snd acc))
        as (H1 & H2 & H3 & H4). simpl in *.
      split; [| split; [| split]].
      * intros d. rewrite H1, set_add_In. intuition.
      * intros d. rewrite H2. destruct isDev.
        -- rewrite set_add_In. intuition.
        -- intuition discriminate.
      * intros Hn. apply H3. now apply set_add_NoDup.
      * intros Hn. apply H4. destruct isDev; [now apply set_add_NoDup | exact Hn].
  - intros acc. repeat split; auto; intuition.
Qed.

Lemma parsePackageJson_Returns_spec
  (loadPackageJson : string -> PackageJson + string)
  (dirname : string -> string)
  (packageJsonPath : string) (info : PackageInfo) :
  parsePackageJson loadPackageJson dirname packageJsonPath = Returns info ->
  exists packageJson,
    loadPackageJson packageJsonPath = inl packageJson /\
    pj_name packageJson = Some (name info) /\
    name info <> EmptyString /\
    version info <> EmptyString /\
    (version info = "0.0.0" \/ pj_version packageJson = Some (version info)) /\
    path info = dirname packageJsonPath /\
    localDependencies info = [] /\
    (forall d, In d (dependencies info) <->
               In d (field_keys (pj_dependencies packageJson)) \/
               In d (field_keys (pj_devDependencies packageJson)) \/
               In d (field_keys (pj_peerDependencies packageJson)) \/
               In d (field_keys (pj_optionalDependencies packageJson))) /\
    (forall d, In d (devDependencies info) <->
               In d (field_keys (pj_devDependencies packageJson))) /\
    incl (devDependencies info) (dependencies info).
Proof.
  unfold parsePackageJson.
  destruct (loadPackageJson packageJsonPath) as [pj | msg]; [| discriminate].
  destruct (truthy (pj_name pj)) as [n |] eqn:Hn; [| discriminate].
  intros [= <-]. exists pj. cbn [name version path dependencies
                                  devDependencies localDependencies].
  assert (Hname : pj_name pj = Some n /\ n <> EmptyString).
  { unfold truthy in Hn. destruct (pj_name pj) as [[| c s] |];
      try discriminate; injection Hn as <-; split; [reflexivity | discriminate]. }
  destruct (collect_spec false (pj_dependencies pj) ([], []))
    as (A1 & A2 & _).
  destruct (collect_spec true (pj_devDependencies pj)
              (collect false (pj_dependencies pj) ([], [])))
    as (B1 & B2 & _).
  destruct (collect_spec false (pj_peerDependencies pj)
              (collect true (pj_devDependencies pj)
                 (collect false (pj_dependencies pj) ([], []))))
    as (C1 & C2 & _).
  destruct (collect_spec false (pj_optionalDependencies pj)
              (collect false (pj_peerDependencies pj)
                 (collect true (pj_devDependencies pj)
                    (collect false (pj_dependencies pj) ([], [])))))
    as (D1 & D2 & _).
  assert (Hdeps : forall d,
            In d (fst (collect false (pj_optionalDependencies pj)
                         (collect false (pj_peerDependencies pj)
                            (collect true (pj_devDependencies pj)
                               (collect false (pj_dependencies pj)
                                  ([], [])))))) <->
            In d (field_keys (pj_dependencies pj)) \/
            In d (field_keys (pj_devDependencies pj)) \/
            In d (field_keys (pj_peerDependencies pj)) \/
            In d (field_keys (pj_optionalDependencies pj))).
  { intros d. rewrite D1, C1, B1, A1. simpl. intuition. }
  assert (Hdev : forall d,
            In d (snd (collect false (pj_optionalDependencies pj)
                         (collect false (pj_peerDependencies pj)
                            (collect true (pj_devDependencies pj)
                               (collect false (pj_dependencies pj)
                                  ([], [])))))) <->
            In d (field_keys (pj_devDependencies pj))).
  { intros d. rewrite D2, C2, B2, A2. simpl. intuition discriminate. }
  split; [reflexivity |]. split; [apply Hname |]. split; [apply Hname |].
  split; [| split; [| split; [reflexivity | split; [reflexivity |]]]].
  - unfold truthy. destruct (pj_version pj) as [[| c s] |]; discriminate.
  - unfold truthy. destruct (pj_version pj) as [[| c s] |]; auto.
  - split; [exact Hdeps |]. split; [exact Hdev |].
    intros d Hd. apply Hdeps. right. left. now apply Hdev.
Qed.

(** X12.  What [parsePackageJson] returns: a non-empty name, a non-empty
    version (["0.0.0"] when the manifest has none or an empty one), the
    directory of the manifest as path, no local dependencies yet;
    [dependencies] holds exactly the keys of the four dependency fields,
    [devDependencies] exactly the keys of the [devDependencies] field, so
    the second is included in the first. *)
Theorem parsePackageJson_result
  (loadPackageJson : string -> PackageJson + string)
  (dirname : string -> string)
  (packageJsonPath : string) (info : PackageInfo) :
  parsePackageJson loadPackageJson dirname packageJsonPath = Returns info ->
  exists packageJson,
    loadPackageJson packageJsonPath = inl packageJson /\
    pj_name packageJson = Some (name info) /\
    name info <> EmptyString /\
    version info <> EmptyString /\
    (version info = "0.0.0" \/ pj_version packageJson = Some (version info)) /\
    path info = dirname packageJsonPath /\
    localDependencies info = [] /\
    (forall d, In d (dependencies info) <->
               In d (field_keys (pj_dependencies packageJson)) \/
               In d (field_keys (pj_devDependencies packageJson)) \/
               In d (field_keys (pj_peerDependencies packageJson)) \/
               In d (field_keys (pj_optionalDependencies packageJson))) /\
    (forall d, In d (devDependencies info) <->
               In d (field_keys (pj_devDependencies packageJson))) /\
    incl (devDependencies info) (dependencies info).
Proof. apply parsePackageJson_Returns_spec. Qed.

Lemma parsePackageJson_result_witness :
  exists packageJson,
    clash_load "/ws/c/package.json" = inl packageJson /\
    pj_name packageJson = Some "c" /\
    "c" <> EmptyString /\
    "0.0.0" <> EmptyString /\
    ("0.0.0" = "0.0.0" \/ pj_version packageJson = Some "0.0.0") /\
    "/ws/c" = "/ws/c" /\
    @nil string = [] /\
    (forall d, In d ["dup"; "fsevents"] <->
               In d (field_keys (pj_dependencies packageJson)) \/
               In d (field_keys (pj_devDependencies packageJson)) \/
               In d (field_keys (pj_peerDependencies packageJson)) \/
               In d (field_keys (pj_optionalDependencies packageJson))) /\
    (forall d, In d [] <->
               In d (field_keys (pj_devDependencies packageJson))) /\
    incl [] ["dup"; "fsevents"].
Proof.
  apply (parsePackageJson_result clash_load (fun _ => "/ws/c")
           "/ws/c/package.json"
           {| name := "c"; version := "0.0.0"; path := "/ws/c";
              dependencies := ["dup"; "fsevents"]; devDependencies := [];
              localDependencies := [] |}).
  reflexivity.
Defined.

(** X13.  When [parsePackageJson] fails.  An error of the reader is thrown
    on as it is; a manifest that loads but has no name, or an empty one, is
    refused with the message that carries the manifest path; every other
    manifest is accepted, whatever else it lacks. *)
Theorem parsePackageJson_errors
  (loadPackageJson : string -> PackageJson + string)
  (dirname : string -> string) (packageJsonPath : string) :
  (forall message,
      loadPackageJson packageJsonPath = inr message ->
      parsePackageJson loadPackageJson dirname packageJsonPath
      = Throws message) /\
  (forall packageJson,
      loadPackageJson packageJsonPath = inl packageJson ->
      pj_name packageJson = None \/ pj_name packageJson = Some EmptyString ->
      parsePackageJson loadPackageJson dirname packageJsonPath
      = Throws ("Package at " ++ packageJsonPath ++ " has no name field")%string) /\
  (forall packageJson n,
      loadPackageJson packageJsonPath = inl packageJson ->
      pj_name packageJson = Some n -> n <> EmptyString ->
      exists info,
        parsePackageJson loadPackageJson dirname packageJsonPath
        = Returns info /\ name info = n).
Proof.
  unfold parsePackageJson. split; [| split].
  - intros message ->. reflexivity.
  - intros pj -> [Hn | Hn]; rewrite Hn; reflexivity.
  - intros pj n -> Hn Hne. rewrite Hn.
    destruct n as [| c s]; [contradiction |]. simpl. eexists. split; reflexivity.
Qed.

(* ================================================================== *)
(** ** buildDependencyGraph: the first pass *)
(* ================================================================== *)

Section BuilderFacts.

Variable loadPackageJson : string -> PackageJson + string.
Variable dirname : string -> string.

Let parse := parsePackageJson loadPackageJson dirname.
Let first := first_pass loadPackageJson dirname.
Let build := buildDependencyGraph loadPackageJson dirname.

Lemma parsePackageJson_fuel p : parse p <> OutOfFuel.
Proof.
  unfold parse, parsePackageJson.
  destruct (loadPackageJson p); [| discriminate].
  destruct (truthy _); discriminate.
Qed.

Lemma first_pass_app l1 l2 acc :
  first (l1 ++ l2) acc =
  match first l1 acc with
  | Returns m => first l2 m
  | Throws e => Throws e
  | OutOfFuel => OutOfFuel
  end.
Proof.
  unfold first. revert acc. induction l1 as [| p l1 IH]; simpl; intros acc;
    [reflexivity |].
  destruct (parsePackageJson loadPackageJson dirname p); auto.
Qed.

Lemma first_pass_Returns_all paths : forall acc P,
  first paths acc = Returns P ->
  exists infos,
    Forall2 (fun p i => parse p = Returns i) paths infos /\
    map_keys P = fold_left (fun s x => set_add x s) (map name infos)
                           (map_keys acc).
Proof.
  unfold first, parse. induction paths as [| p paths IH]; simpl; intros acc P H.
  - injection H as <-. exists []. split; [constructor | reflexivity].
  - destruct (parsePackageJson loadPackageJson dirname p) as [info | |] eqn:Hp;
      try discriminate.
    destruct (IH _ _ H) as (infos & Hall & Hkeys).
    exists (info :: infos). split; [now constructor |].
    simpl. now rewrite Hkeys, map_set_keys.
Qed.

Lemma first_pass_total paths : forall acc,
  (forall p, In p paths -> exists info, parse p = Returns info) ->
  exists P, first paths acc = Returns P.
Proof.
  unfold first, parse. induction paths as [| p paths IH]; simpl; intros acc H.
  - now exists acc.
  - destruct (H p (or_introl eq_refl)) as [info Hp]. rewrite Hp.
    apply IH. intros q Hq. apply H. now right.
Qed.

Lemma first_pass_keeps paths : forall acc P n v,
  first paths acc = Returns P ->
  map_get n acc = Some v ->
  (forall q info, In q paths -> parse q = Returns info -> name info <> n) ->
  map_get n P = Some v.
Proof.
  unfold first, parse. induction paths as [| p paths IH]; simpl;
    intros acc P n v H Hg Hno.
  - now injection H as <-.
  - destruct (parsePackageJson loadPackageJson dirname p) as [info | |] eqn:Hp;
      try discriminate.
    apply (IH _ _ n v H).
    + rewrite map_get_set_neq; [exact Hg |].
      apply (Hno p info); [now left | exact Hp].
    + intros q i Hq. apply Hno. now right.
Qed.

Lemma build_Returns paths graph :
  build paths = Returns graph ->
  exists P,
    first paths [] = Returns P /\ Map_ok P /\
    packages graph = map (fun e => (fst e, localized P (snd e))) P /\
    edges graph = map (fun e => (fst e, edge_set P (snd e))) P /\
    reverseEdges graph = buildReverseGraph (edges graph).
Proof.
  unfold build, buildDependencyGraph, first.
  destruct (first_pass loadPackageJson dirname paths []) as [P | |] eqn:Hf;
    try discriminate.
  assert (Hok : Map_ok P).
  { apply (first_pass_Map_ok _ _ _ [] _) in Hf; [exact Hf | constructor]. }
  rewrite (second_pass_spec P Hok). intros [= <-]. exists P.
  repeat split; auto.
Qed.

(** X14.  [buildDependencyGraph] is all or nothing: it returns a graph
    exactly when every manifest parses, and otherwise throws the error of
    the first manifest, in the order given, that does not. *)
Theorem buildDependencyGraph_all_or_nothing (packageJsonPaths : list string) :
  (forall graph,
      build packageJsonPaths = Returns graph ->
      forall p, In p packageJsonPaths -> exists info, parse p = Returns info) /\
  ((forall p, In p packageJsonPaths -> exists info, parse p = Returns info) ->
   exists graph, build packageJsonPaths = Returns graph) /\
  (forall before p after message,
      packageJsonPaths = before ++ p :: after ->
      (forall q, In q before -> exists info, parse q = Returns info) ->
      parse p = Throws message ->
      build packageJsonPaths = Throws message).
Proof.
  split; [| split].
  - intros graph H p Hp. apply build_Returns in H.
    destruct H as (P & Hf & _). apply first_pass_Returns_all in Hf.
    destruct Hf as (infos & Hall & _).
    clear - Hall Hp. induction Hall as [| q i l l' Hq _ IH];
      [destruct Hp |].
    destruct Hp as [<- | Hp]; [now exists i | now apply IH].
  - intros Hall. destruct (first_pass_total packageJsonPaths [] Hall) as [P HP].
    unfold build, buildDependencyGraph. unfold first in HP. rewrite HP.
    destruct (second_pass P). eexists. reflexivity.
  - intros l1 p l2 m -> Hall Hp.
    destruct (first_pass_total l1 [] Hall) as [P HP].
    unfold build, buildDependencyGraph.
    fold (first (l1 ++ p :: l2) []). rewrite first_pass_app, HP.
    unfold first. simpl. unfold parse in Hp. now rewrite Hp.
Qed.

(** X15.  The nodes of a built graph.  The node map lists each declared
    name once, in the order of first appearance among the manifests, and
    [edges] has the same keys in the same order.  When several manifests
    declare one name, the node is the one parsed from the last of them
    (name, version, path and declared dependencies). *)
Theorem buildDependencyGraph_nodes
  (packageJsonPaths : list string) (graph : DependencyGraph) :
  build packageJsonPaths = Returns graph ->
  (exists infos,
      Forall2 (fun p i => parse p = Returns i) packageJsonPaths infos /\
      map_keys (packages graph) = set_of_list (map name infos)) /\
  map_keys (edges graph) = map_keys (packages graph) /\
  (forall before p after info,
      packageJsonPaths = before ++ p :: after ->
      parse p = Returns info ->
      (forall q info', In q after -> parse q = Returns info' ->
                       name info' <> name info) ->
      exists node,
        map_get (name info) (packages graph) = Some node /\
        name node = name info /\
        version node = version info /\
        path node = path info /\
        dependencies node = dependencies info /\
        devDependencies node = devDependencies info).
Proof.
  intros H. apply build_Returns in H.
  destruct H as (P & Hf & Hok & HP & HE & _).
  assert (Hk : map_keys (packages graph) = map_keys P).
  { rewrite HP. unfold map_keys. now rewrite map_map. }
  split; [| split].
  - destruct (first_pass_Returns_all _ _ _ Hf) as (infos & Hall & Hkeys).
    exists infos. split; [exact Hall |]. now rewrite Hk, Hkeys.
  - rewrite Hk, HE. unfold map_keys. now rewrite map_map.
  - intros l1 p l2 info -> Hp Hlast.
    exists (localized P info). split; [| now repeat split].
    rewrite HP, map_get_map_values.
    rewrite first_pass_app in Hf.
    destruct (first l1 []) as [m1 | |] eqn:H1; try discriminate.
    unfold first in Hf. simpl in Hf. unfold parse in Hp. rewrite Hp in Hf.
    now rewrite (first_pass_keeps l2 _ P (name info) info Hf
                   (map_get_set_eq _ _ _) Hlast).
Qed.

End BuilderFacts.

Lemma clash_graph_built :
  buildDependencyGraph clash_load clash_dirname clash_paths
  = Returns clash_graph.
Proof. reflexivity. Qed.

Lemma buildDependencyGraph_nodes_witness :
  (exists infos,
      Forall2 (fun p i => parsePackageJson clash_load clash_dirname p
                          = Returns i) clash_paths infos /\
      map_keys (packages clash_graph) = set_of_list (map name infos)) /\
  map_keys (edges clash_graph) = map_keys (packages clash_graph) /\
  (forall before p after info,
      clash_paths = before ++ p :: after ->
      parsePackageJson clash_load clash_dirname p = Returns info ->
      (forall q info', In q after ->
                       parsePackageJson clash_load clash_dirname q
                       = Returns info' ->
                       name info' <> name info) ->
      exists node,
        map_get (name info) (packages clash_graph) = Some node /\
        name node = name info /\
        version node = version info /\
        path node = path info /\
        dependencies node = dependencies info /\
        devDependencies node = devDependencies info).
Proof.
  apply (buildDependencyGraph_nodes clash_load clash_dirname clash_paths
           clash_graph).
  exact clash_graph_built.
Defined.

(** The clash workspace: the second manifest of [dup] wins, at the place of
    the first; a manifest with an empty name stops the build. *)
Example buildDependencyGraph_clash :
  option_map version (map_get "dup" (packages clash_graph)) = Some "2.0.0" /\
  map_keys (packages clash_graph) = ["dup"; "c"] /\
  buildDependencyGraph clash_load clash_dirname
    ["/ws/a/package.json"; "/ws/bad/package.json"; "/ws/zzz/package.json"]
  = Throws "Package at /ws/bad/package.json has no name field".
Proof. repeat split. Qed.

(* ================================================================== *)
(** ** buildDependencyGraph: the graph it returns, analysed *)
(* ================================================================== *)

Lemma built_edge load dirname paths graph n node d :
  buildDependencyGraph load dirname paths = Returns graph ->
  map_get n (packages graph) = Some node ->
  In d (localDependencies node) ->
  edge (edges graph) n d.
Proof.
  intros H Hn Hd. apply build_Returns in H.
  destruct H as (P & _ & _ & HP & HE & _).
  rewrite HP, map_get_map_values in Hn.
  destruct (map_get n P) as [info |] eqn:Hg; [| discriminate].
  injection Hn as <-. unfold edge, get_or_empty.
  rewrite HE, map_get_map_values, Hg. simpl. unfold edge_set.
  destruct (local_pass_spec P info) as [Heq _]. now rewrite <- Heq.
Qed.

Lemma built_keys load dirname paths graph :
  buildDependencyGraph load dirname paths = Returns graph ->
  map_keys (edges graph) = map_keys (packages graph).
Proof.
  intros H. apply build_Returns in H.
  destruct H as (P & _ & _ & HP & HE & _).
  rewrite HP, HE. unfold map_keys. now rewrite !map_map.
Qed.

(** X16.  A graph returned by [buildDependencyGraph] is consistent as
    built: its [reverseEdges] is [buildReverseGraph] of its [edges], every
    forward-edge target is a node, and [validateGraph] reports nothing but,
    at most, one circular dependency; it is valid exactly when the local
    dependencies have no cycle. *)
Theorem buildDependencyGraph_validates
  (loadPackageJson : string -> PackageJson + string)
  (dirname : string -> string)
  (packageJsonPaths : list string) (graph : DependencyGraph) :
  buildDependencyGraph loadPackageJson dirname packageJsonPaths
    = Returns graph ->
  reverseEdges graph = buildReverseGraph (edges graph) /\
  targets_are_nodes graph /\
  exists v,
    validateGraph graph = Returns v /\
    (forall e, In e (errors v) ->
               errors v = [e] /\
               exists y, e = cycle_message y /\ reaches (edges graph) y y) /\
    (valid v = true <-> acyclic (edges graph)).
Proof.
  intros H.
  destruct (buildDependencyGraph_made_by_module _ _ _ _ H) as [_ Htn].
  destruct (build_Returns _ _ _ _ H) as (P & _ & _ & _ & _ & HR).
  split; [exact HR |]. split; [exact Htn |].
  unfold validateGraph. rewrite check_targets_missing.
  rewrite (proj2 (missing_targets_nil graph) Htn). simpl.
  destruct (topologicalSort graph) as [r | m |] eqn:Hs.
  - eexists. split; [reflexivity |]. simpl. split; [intros e [] |].
    split; [intros _ | reflexivity].
    intros x Hx. apply (topologicalSort_Returns_no_cycle graph r x Hs);
      [| exact Hx].
    apply topologicalSort_Returns in Hs. apply Hs.
    now apply cycle_through_node.
  - eexists. split; [reflexivity |]. simpl.
    destruct (topologicalSort_Throws _ _ Hs) as (y & -> & Hy). split.
    + intros e [<- | []]. split; [reflexivity |]. now exists y.
    + split; [discriminate |]. intros Hac. exfalso. now apply (Hac y).
  - exfalso. now apply (topologicalSort_fuel graph).
Qed.

Lemma buildDependencyGraph_validates_witness :
  reverseEdges clash_graph = buildReverseGraph (edges clash_graph) /\
  targets_are_nodes clash_graph /\
  exists v,
    validateGraph clash_graph = Returns v /\
    (forall e, In e (errors v) ->
               errors v = [e] /\
               exists y, e = cycle_message y /\
                         reaches (edges clash_graph) y y) /\
    (valid v = true <-> acyclic (edges clash_graph)).
Proof.
  apply (buildDependencyGraph_validates clash_load clash_dirname clash_paths).
  exact clash_graph_built.
Defined.

(** X17.  The build order of a built workspace.  When the local
    dependencies of a graph returned by [buildDependencyGraph] have no
    cycle, [topologicalSort] returns a permutation of the package names in
    which every package comes strictly after each of its
    [localDependencies]. *)
Theorem buildDependencyGraph_build_order
  (loadPackageJson : string -> PackageJson + string)
  (dirname : string -> string)
  (packageJsonPaths : list string) (graph : DependencyGraph) :
  buildDependencyGraph loadPackageJson dirname packageJsonPaths
    = Returns graph ->
  acyclic (edges graph) ->
  exists r,
    topologicalSort graph = Returns r /\
    Permutation (map_keys (packages graph)) r /\
    (forall n node d,
        map_get n (packages graph) = Some node ->
        In d (localDependencies node) ->
        appears_before d n r).
Proof.
  intros H Hac.
  destruct (buildDependencyGraph_made_by_module _ _ _ _ H)
    as [((Hok & _) & _) Htn].
  destruct (topologicalSort graph) as [r | m |] eqn:Hs.
  - exists r. split; [reflexivity |].
    destruct (topologicalSort_Returns _ _ Hs) as (Hn & Hk & _ & Hr).
    split.
    + apply NoDup_Permutation; [exact Hok | exact Hn |].
      intros k. split; [apply Hk |].
      intros Hy. destruct (Hr k Hy) as (k0 & Hk0 & Hreach).
      apply (reaches_refl_known graph (targets_are_nodes_known _ Htn) k0);
        assumption.
    + intros n node d Hg Hd.
      apply (topologicalSort_Returns_before graph r n d Hs).
      * apply Hk. apply map_has_true. unfold map_has. now rewrite Hg.
      * now apply (built_edge _ _ _ _ _ _ _ H Hg).
  - exfalso. apply topologicalSort_Throws in Hs.
    destruct Hs as (y & _ & Hy). now apply (Hac y).
  - exfalso. now apply (topologicalSort_fuel graph).
Qed.

Lemma demo_graph_acyclic : acyclic (edges demo_graph).
Proof.
  apply (acyclic_by_rank _ (fun s => if String.eqb s "app" then 1 else 0)).
  intros a b H. edge_cases H; simpl; lia.
Qed.

Lemma buildDependencyGraph_build_order_witness :
  exists r,
    topologicalSort demo_graph = Returns r /\
    Permutation (map_keys (packages demo_graph)) r /\
    (forall n node d,
        map_get n (packages demo_graph) = Some node ->
        In d (localDependencies node) ->
        appears_before d n r).
Proof.
  apply (buildDependencyGraph_build_order demo_load demo_dirname demo_paths).
  - exact demo_graph_built.
  - exact demo_graph_acyclic.
Defined.

(** X18.  Dependents in a built workspace.  On a graph returned by
    [buildDependencyGraph], [findAllDependents(name)] returns packages of
    the workspace only, namely those that reach [name] through one or more
    local dependencies; for a name that is not a package it is empty. *)
Theorem buildDependencyGraph_dependents
  (loadPackageJson : string -> PackageJson + string)
  (dirname : string -> string)
  (packageJsonPaths : list string) (graph : DependencyGraph)
  (packageName : string) :
  buildDependencyGraph loadPackageJson dirname packageJsonPaths
    = Returns graph ->
  exists ds,
    findAllDependents packageName graph = Returns ds /\
    incl ds (map_keys (packages graph)) /\
    (forall d, In d ds <-> reaches (edges graph) d packageName) /\
    (~ In packageName (map_keys (packages graph)) -> ds = []).
Proof.
  intros H.
  destruct (buildDependencyGraph_made_by_module _ _ _ _ H)
    as [((_ & Hok & _) & _ & Htr) Htn].
  destruct (findAllDependents_traverse packageName graph) as (st & Ht & Hf).
  exists (fd_dependents st). split; [exact Hf |].
  assert (Hiff : forall d, In d (fd_dependents st) <->
                           reaches (edges graph) d packageName).
  { intros d. rewrite (traverse_init_reaches _ _ _ _ Ht d).
    now apply transpose_reaches. }
  split; [| split; [exact Hiff |]].
  - intros d Hd. apply Hiff in Hd. rewrite <- (built_keys _ _ _ _ H).
    destruct (reaches_first_edge _ _ _ Hd) as [y Hy].
    now apply (get_or_empty_key d y).
  - intros Hunknown. destruct (fd_dependents st) as [| d ds] eqn:Hds;
      [reflexivity |].
    exfalso. apply Hunknown.
    assert (Hd : reaches (edges graph) d packageName)
      by (apply Hiff; now left).
    destruct (reaches_last_edge _ _ _ Hd) as [y Hy].
    apply (Htn y). now apply edge_forward_pair.
Qed.

Lemma buildDependencyGraph_dependents_witness :
  exists ds,
    findAllDependents "lib" demo_graph = Returns ds /\
    incl ds (map_keys (packages demo_graph)) /\
    (forall d, In d ds <-> reaches (edges demo_graph) d "lib") /\
    (~ In "lib" (map_keys (packages demo_graph)) -> ds = []).
Proof.
  apply (buildDependencyGraph_dependents demo_load demo_dirname demo_paths).
  exact demo_graph_built.
Defined.

(* ================================================================== *)
(** ** matchesPattern: the regular expression it builds *)
(* ================================================================== *)

Lemma replace_char_app c r x y :
  replace_char c r (x ++ y)%string
  = (replace_char c r x ++ replace_char c r y)%string.
Proof.
  induction x as [| a x IH]; simpl; [reflexivity |].
  destruct (Ascii.eqb a c); rewrite IH; [| reflexivity].
  now rewrite string_append_assoc.
Qed.

Lemma replace_char_cons c r a s :
  replace_char c r (String a s)
  = ((if Ascii.eqb a c then r else String a EmptyString)
     ++ replace_char c r s)%string.
Proof. simpl. destruct (Ascii.eqb a c); reflexivity. Qed.

Lemma string_app_split b t pre c post :
  (b ++ t = pre ++ String c post)%string ->
  (exists post', b = (pre ++ String c post')%string) \/
  (exists pre1, pre = (b ++ pre1)%string /\ t = (pre1 ++ String c post)%string).
Proof.
  revert pre. induction b as [| a b IH]; simpl; intros pre H.
  - right. now exists pre.
  - destruct pre as [| a' pre]; simpl in H.
    + injection H as -> _. left. now exists b.
    + injection H as -> H. destruct (IH pre H) as [[post' ->] | (pre1 & -> & ->)].
      * left. now exists post'.
      * right. now exists pre1.
Qed.

Lemma absent_app c b t : absent c b -> absent c t -> absent c (b ++ t).
Proof.
  intros Hb Ht pre post H. apply string_app_split in H.
  destruct H as [[post' H] | (pre1 & _ & H)].
  - now apply (Hb pre post').
  - now apply (Ht pre1 post).
Qed.

Lemma preceded_by_app c g b t :
  preceded_by c g b -> preceded_by c g t -> preceded_by c g (b ++ t).
Proof.
  intros Hb Ht pre post H. apply string_app_split in H.
  destruct H as [[post' H] | (pre1 & -> & H)].
  - now apply (Hb pre post').
  - destruct (Ht pre1 post H) as [pre' ->]. exists (b ++ pre')%string.
    now rewrite string_append_assoc.
Qed.

Lemma absent_one c a : a <> c -> absent c (String a EmptyString).
Proof.
  intros Hn pre post H. destruct pre as [| a' pre]; simpl in H.
  - injection H as -> _. now apply Hn.
  - injection H as _ H. destruct pre; discriminate.
Qed.

Lemma preceded_by_absent c g s : absent c s -> preceded_by c g s.
Proof. intros Ha pre post H. now apply Ha in H. Qed.

Lemma absent_escaped_dot c : c <> "."%char -> c <> "\"%char -> absent c "\.".
Proof.
  intros H1 H2. change "\."%string with ("\" ++ ".")%string.
  apply absent_app; now apply absent_one.
Qed.

Lemma absent_class_star c :
  c <> "["%char -> c <> "^"%char -> c <> "/"%char -> c <> "]"%char ->
  c <> "*"%char -> absent c "[^/]*".
Proof.
  intros H1 H2 H3 H4 H5.
  change "[^/]*"%string with ("[" ++ "^" ++ "/" ++ "]" ++ "*")%string.
  repeat (apply absent_app; [now apply absent_one |]). now apply absent_one.
Qed.

Lemma escaped_dot_preceded : preceded_by "."%char "\" "\.".
Proof.
  intros pre post H.
  destruct pre as [| a1 pre]; simpl in H; [discriminate |].
  injection H as <- H.
  destruct pre as [| a2 pre]; simpl in H.
  - now exists EmptyString.
  - injection H as _ H. destruct pre; discriminate.
Qed.

Lemma class_star_preceded : preceded_by "*"%char "[^/]" "[^/]*".
Proof.
  intros pre post H.
  do 4 (destruct pre as [| ? pre]; simpl in H; [discriminate |];
        injection H as <- H).
  destruct pre as [| a5 pre]; simpl in H.
  - now exists EmptyString.
  - injection H as _ H. destruct pre; discriminate.
Qed.

(** What the last three [replace] calls make of one character. *)
Lemma last_three_passes a s :
  replace_char "."%char "\."
    (replace_char "?"%char "." (replace_char "*"%char "[^/]*" (String a s)))
  = ((if Ascii.eqb a "*"%char then "[^/]*"
      else if Ascii.eqb a "?"%char then "\."
      else if Ascii.eqb a "."%char then "\."
      else String a EmptyString)
     ++ replace_char "."%char "\."
          (replace_char "?"%char "."
             (replace_char "*"%char "[^/]*" s)))%string.
Proof.
  rewrite (replace_char_cons "*"%char "[^/]*" a s), !replace_char_app.
  f_equal.
  destruct (Ascii.eqb_spec a "*"%char) as [-> | Hstar]; [reflexivity |].
  rewrite (replace_char_cons "?"%char "." a EmptyString).
  destruct (Ascii.eqb_spec a "?"%char) as [-> | Hq]; [reflexivity |].
  simpl. destruct (Ascii.eqb_spec a "."%char) as [-> | Hd]; reflexivity.
Qed.

Lemma last_three_passes_shape s :
  let out := replace_char "."%char "\."
               (replace_char "?"%char "."
                  (replace_char "*"%char "[^/]*" s)) in
  absent "?"%char out /\
  preceded_by "."%char "\" out /\
  preceded_by "*"%char "[^/]" out.
Proof.
  induction s as [| a s (IH1 & IH2 & IH3)].
  - simpl. repeat split; intros [| ? ?] post H; discriminate.
  - cbv zeta. rewrite last_three_passes.
    destruct (Ascii.eqb_spec a "*"%char) as [-> | Hstar];
      [| destruct (Ascii.eqb_spec a "?"%char) as [-> | Hq];
         [| destruct (Ascii.eqb_spec a "."%char) as [-> | Hd]]].
    + split; [| split].
      * apply absent_app; [apply absent_class_star; discriminate | exact IH1].
      * apply preceded_by_app; [| exact IH2].
        apply preceded_by_absent, absent_class_star; discriminate.
      * apply preceded_by_app; [apply class_star_preceded | exact IH3].
    + split; [| split].
      * apply absent_app; [apply absent_escaped_dot; discriminate | exact IH1].
      * apply preceded_by_app; [apply escaped_dot_preceded | exact IH2].
      * apply preceded_by_app; [| exact IH3].
        apply preceded_by_absent, absent_escaped_dot; discriminate.
    + split; [| split].
      * apply absent_app; [apply absent_escaped_dot; discriminate | exact IH1].
      * apply preceded_by_app; [apply escaped_dot_preceded | exact IH2].
      * apply preceded_by_app; [| exact IH3].
        apply preceded_by_absent, absent_escaped_dot; discriminate.
    + split; [| split].
      * apply absent_app; [now apply absent_one | exact IH1].
      * apply preceded_by_app; [| exact IH2].
        now apply preceded_by_absent, absent_one.
      * apply preceded_by_app; [| exact IH3].
        now apply preceded_by_absent, absent_one.
Qed.

Lemma replace_double_star_other a s :
  a <> "*"%char ->
  replace_double_star (String a s) = String a (replace_double_star s).
Proof.
  intros Ha. destruct s as [| b s]; [reflexivity |].
  cbn [replace_double_star].
  destruct (Ascii.eqb_spec a "*"%char) as [-> | _]; [now destruct Ha |].
  reflexivity.
Qed.

Lemma replace_double_star_single s :
  (forall t, s <> String "*"%char t) ->
  replace_double_star (String "*"%char s)
  = String "*"%char (replace_double_star s).
Proof.
  intros Hs. destruct s as [| b s]; [reflexivity |].
  cbn [replace_double_star].
  destruct (Ascii.eqb_spec b "*"%char) as [-> | _]; [now destruct (Hs s) |].
  reflexivity.
Qed.

Lemma escaped_backslash_head s :
  (forall t, s <> String "*"%char t) ->
  forall t, replace_char "\"%char "\\" s <> String "*"%char t.
Proof.
  intros Hs t. destruct s as [| b s]; simpl; [discriminate |].
  destruct (Ascii.eqb_spec b "\"%char) as [-> | _]; simpl; [discriminate |].
  intros H. injection H as -> _. now apply (Hs s).
Qed.

(** What the five [replace] calls make of the first character of a
    pattern, or of its first two when both are stars. *)
Lemma regexPattern_pair s :
  regexPattern (String "*"%char (String "*"%char s))
  = ("\.[^/]*" ++ regexPattern s)%string.
Proof. reflexivity. Qed.

Lemma regexPattern_star s :
  (forall t, s <> String "*"%char t) ->
  regexPattern (String "*"%char s) = ("[^/]*" ++ regexPattern s)%string.
Proof.
  intros Hs. unfold regexPattern.
  rewrite (replace_char_cons "\"%char "\\" "*"%char s).
  change ((if Ascii.eqb "*"%char "\"%char then "\\"%string
           else String "*"%char EmptyString)
          ++ replace_char "\"%char "\\" s)%string
    with (String "*"%char (replace_char "\"%char "\\" s)).
  rewrite replace_double_star_single by now apply escaped_backslash_head.
  now rewrite last_three_passes.
Qed.

Lemma regexPattern_backslash s :
  regexPattern (String "\"%char s) = ("\\" ++ regexPattern s)%string.
Proof.
  unfold regexPattern.
  change (replace_char "\"%char "\\" (String "\"%char s))
    with (String "\"%char (String "\"%char (replace_char "\"%char "\\" s))).
  rewrite !replace_double_star_other by discriminate.
  now rewrite !last_three_passes.
Qed.

Lemma regexPattern_other a s :
  a <> "*"%char -> a <> "\"%char ->
  regexPattern (String a s)
  = ((if Ascii.eqb a "?"%char then "\."
      else if Ascii.eqb a "."%char then "\."
      else String a EmptyString) ++ regexPattern s)%string.
Proof.
  intros Hstar Hback. unfold regexPattern.
  rewrite (replace_char_cons "\"%char "\\" a s).
  destruct (Ascii.eqb_spec a "\"%char) as [-> | _]; [now destruct Hback |].
  cbn [String.append].
  rewrite replace_double_star_other by exact Hstar.
  rewrite last_three_passes.
  destruct (Ascii.eqb_spec a "*"%char) as [-> | _]; [now destruct Hstar |].
  reflexivity.
Qed.

Lemma regexPattern_step a s :
  regexPattern s = rewrite_glob s ->
  (forall t, s = String "*"%char t -> regexPattern t = rewrite_glob t) ->
  regexPattern (String a s) = rewrite_glob (String a s).
Proof.
  intros Hs Ht. cbn [rewrite_glob].
  destruct (Ascii.eqb_spec a "*"%char) as [-> | Hstar].
  - destruct s as [| b s]; [reflexivity |].
    destruct (Ascii.eqb_spec b "*"%char) as [-> | Hb].
    + rewrite regexPattern_pair. f_equal. now apply Ht.
    + rewrite regexPattern_star, Hs; [reflexivity |].
      intros t H. injection H as -> _. now apply Hb.
  - destruct (Ascii.eqb_spec a "\"%char) as [-> | Hback].
    + now rewrite regexPattern_backslash, Hs.
    + rewrite regexPattern_other, Hs by assumption.
      destruct (Ascii.eqb a "?"%char); [reflexivity |].
      destruct (Ascii.eqb a "."%char); reflexivity.
Qed.

Lemma regexPattern_rewrite_glob s : regexPattern s = rewrite_glob s.
Proof.
  enough (H : regexPattern s = rewrite_glob s /\
              forall a, regexPattern (String a s) = rewrite_glob (String a s))
    by apply H.
  induction s as [| b s [IH1 IH2]].
  - split; [reflexivity |]. intros a.
    apply regexPattern_step; [reflexivity | discriminate].
  - split; [apply IH2 |]. intros a.
    apply regexPattern_step; [apply IH2 |].
    intros t H. injection H as _ <-. exact IH1.
Qed.

Lemma absent_cons_inv c a s :
  absent c (String a s) -> a <> c /\ absent c s.
Proof.
  intros H. split.
  - intros ->. now apply (H EmptyString s).
  - intros pre post ->. now apply (H (String a pre) post).
Qed.

Lemma rewrite_glob_plain s :
  absent "\"%char s -> absent "*"%char s ->
  absent "?"%char s -> absent "."%char s ->
  rewrite_glob s = s.
Proof.
  induction s as [| a s IH]; [reflexivity |].
  intros Hb Hs Hq Hd.
  apply absent_cons_inv in Hb, Hs, Hq, Hd.
  destruct Hb as [Hb Hb'], Hs as [Hs Hs'], Hq as [Hq Hq'], Hd as [Hd Hd'].
  cbn [rewrite_glob].
  destruct (Ascii.eqb_spec a "*"%char); [contradiction |].
  destruct (Ascii.eqb_spec a "\"%char); [contradiction |].
  destruct (Ascii.eqb_spec a "?"%char); [contradiction |].
  destruct (Ascii.eqb_spec a "."%char); [contradiction |].
  now rewrite IH.
Qed.

(** X19.  The regular expression [matchesPattern] builds from a glob, for
    every pattern.  Its source is the pattern rewritten in one pass from
    the left: a backslash becomes two backslashes; a pair of stars becomes
    an escaped dot followed by [[^/]*]; a star that is left becomes
    [[^/]*]; [?] and [.] each become an escaped dot; and every other
    character is copied as it is.  Hence no [?] is left in the source,
    every [.] of the source comes right after a backslash, every [*] of the
    source closes a [[^/]*], and a pattern with no backslash, star, [?] or
    [.] is its own source. *)
Theorem regexPattern_one_pass (pattern : string) :
  regexPattern pattern = rewrite_glob pattern /\
  absent "?"%char (regexPattern pattern) /\
  preceded_by "."%char "\" (regexPattern pattern) /\
  preceded_by "*"%char "[^/]" (regexPattern pattern) /\
  (absent "\"%char pattern -> absent "*"%char pattern ->
   absent "?"%char pattern -> absent "."%char pattern ->
   regexPattern pattern = pattern).
Proof.
  split; [apply regexPattern_rewrite_glob |].
  destruct (last_three_passes_shape
              (replace_double_star (replace_char "\"%char "\\" pattern)))
    as (H1 & H2 & H3).
  split; [exact H1 |]. split; [exact H2 |]. split; [exact H3 |].
  intros Hb Hs Hq Hd.
  rewrite regexPattern_rewrite_glob. now apply rewrite_glob_plain.
Qed.

(** The patterns of the README, as built: [**] has become an escaped dot
    followed by [[^/]*], and [?] an escaped dot. *)
Example regexPattern_examples :
  regexPattern "**/node_modules/**" = "\.[^/]*/node_modules/\.[^/]*" /\
  regexPattern "*.json" = "[^/]*\.json" /\
  regexPattern "file?.ts" = "file\.\.ts".
Proof. repeat split. Qed.

(** Characters that mean something to [RegExp] and are none of the four
    the [replace] calls look for reach the constructor as written; a star
    after [[] opens a class of its own. *)
Example regexPattern_metacharacters :
  regexPattern "lib+[a-z]|x{2}" = "lib+[a-z]|x{2}" /\
  regexPattern "[*" = "[[^/]*".
Proof. repeat split. Qed.

(* ================================================================== *)
(** ** shouldExclude and scanForPackageJsonFiles *)
(* ================================================================== *)

Section ScannerFacts.

Variable compileRegExp : string -> (string -> bool) + string.
Variable basename : string -> string.
Variable dirname : string -> string.
Variable relative : string -> string.
Variable join : string -> string -> string.
Variable access : string -> bool.
Variable readdir : string -> list (string * bool) + string.

Lemma try_candidate_kept pats p found :
  try_candidate compileRegExp basename dirname relative access pats p found
  = found ++ (if kept compileRegExp basename dirname relative access pats p
              then [p] else []).
Proof.
  unfold try_candidate, kept. destruct (access p); simpl.
  - destruct (shouldExclude _ _ _ _ p pats) as [[|] | |]; simpl;
      now rewrite ?app_nil_r.
  - now rewrite app_nil_r.
Qed.

Lemma scan_loop directory pats entries : forall found,
  fold_left
    (fun packageJsonPaths (entry : string * bool) =>
       if snd entry then
         try_candidate compileRegExp basename dirname relative access pats
           (join (join directory (fst entry)) "package.json")
           packageJsonPaths
       else packageJsonPaths)
    entries found
  = found ++
    filter (kept compileRegExp basename dirname relative access pats)
      (map (fun entry : string * bool =>
              join (join directory (fst entry)) "package.json")
           (filter (fun entry : string * bool => snd entry) entries)).
Proof.
  induction entries as [| [n d] entries IH]; simpl; intros found.
  - now rewrite app_nil_r.
  - rewrite IH. destruct d; simpl; [| reflexivity].
    rewrite try_candidate_kept.
    destruct (kept _ _ _ _ _ pats _); simpl.
    + now rewrite <- app_assoc.
    + now rewrite app_nil_r.
Qed.

Lemma scan_filter directory pats :
  scanForPackageJsonFiles compileRegExp basename dirname relative join
    access readdir directory pats
  = match readdir directory with
    | inr error => Throws error
    | inl entries =>
        Returns (filter (kept compileRegExp basename dirname relative access
                           pats)
                        (candidates join directory entries))
    end.
Proof.
  unfold scanForPackageJsonFiles.
  destruct (readdir directory) as [entries | e]; [| reflexivity].
  rewrite scan_loop, try_candidate_kept. unfold candidates. simpl.
  now destruct (kept _ _ _ _ _ pats _).
Qed.

(** X20.  [scanForPackageJsonFiles] fails only when [readdir] does, with
    that error; a missing manifest and an error thrown while matching a
    pattern are swallowed.  Otherwise it returns, in this order, the
    manifest of the directory itself and those of its immediate
    subdirectories (one level, in the order of [readdir]), keeping exactly
    the ones that are accessible and for which [shouldExclude] answers
    [false]. *)
Theorem scanForPackageJsonFiles_result
  (directory : string) (excludedPatterns : list string) :
  scanForPackageJsonFiles compileRegExp basename dirname relative join
    access readdir directory excludedPatterns
  = match readdir directory with
    | inr error => Throws error
    | inl entries =>
        Returns (filter (kept compileRegExp basename dirname relative access
                           excludedPatterns)
                        (candidates join directory entries))
    end /\
  (forall paths p,
      scanForPackageJsonFiles compileRegExp basename dirname relative join
        access readdir directory excludedPatterns = Returns paths ->
      In p paths ->
      access p = true /\
      shouldExclude compileRegExp basename dirname relative p
        excludedPatterns = Returns false /\
      (p = join directory "package.json" \/
       exists entries subdirectory,
         readdir directory = inl entries /\
         In (subdirectory, true) entries /\
         p = join (join directory subdirectory) "package.json")).
Proof.
  split; [apply scan_filter |].
  intros paths p. rewrite scan_filter.
  destruct (readdir directory) as [entries | e]; [| discriminate].
  set (found := filter _ (candidates join directory entries)).
  intros [= <-] Hin. unfold found in Hin.
  apply filter_In in Hin. destruct Hin as [Hc Hk].
  unfold kept in Hk. apply andb_true_iff in Hk. destruct Hk as [Ha Hs].
  split; [exact Ha |]. split.
  - destruct (shouldExclude _ _ _ _ p excludedPatterns) as [[|] | |];
      try discriminate. reflexivity.
  - destruct Hc as [<- | Hc]; [now left | right].
    apply in_map_iff in Hc. destruct Hc as ([n d] & <- & He).
    apply filter_In in He. destruct He as [He Hd]. simpl in Hd. subst d.
    exists entries, n. auto.
Qed.

Lemma some_pattern_app_false f l1 l2 :
  some_pattern f (l1 ++ l2) = Returns false ->
  some_pattern f l1 = Returns false.
Proof.
  induction l1 as [| x l1 IH]; simpl; intros H; [reflexivity |].
  destruct (f x) as [[|] | |]; try discriminate; auto.
Qed.

Lemma shouldExclude_app_false p pats more :
  shouldExclude compileRegExp basename dirname relative p (pats ++ more)
    = Returns false ->
  shouldExclude compileRegExp basename dirname relative p pats
    = Returns false.
Proof.
  destruct pats as [| x pats]; [reflexivity |].
  unfold shouldExclude. simpl app. apply (some_pattern_app_false _ (x :: pats)).
Qed.

(** X21.  Exclusion patterns only take away: with more patterns appended,
    [scanForPackageJsonFiles] fails in the same way or returns a list whose
    members were all returned without them. *)
Theorem scanForPackageJsonFiles_more_patterns
  (directory : string) (excludedPatterns more : list string) :
  match scanForPackageJsonFiles compileRegExp basename dirname relative join
          access readdir directory (excludedPatterns ++ more),
        scanForPackageJsonFiles compileRegExp basename dirname relative join
          access readdir directory excludedPatterns
  with
  | Returns fewer, Returns paths => incl fewer paths
  | Throws e1, Throws e2 => e1 = e2
  | _, _ => False
  end.
Proof.
  rewrite !scan_filter.
  destruct (readdir directory) as [entries | e]; [| reflexivity].
  intros p Hp. apply filter_In in Hp. destruct Hp as [Hc Hk].
  apply filter_In. split; [exact Hc |].
  unfold kept in *. apply andb_true_iff in Hk. destruct Hk as [Ha Hs].
  rewrite Ha. simpl.
  destruct (shouldExclude _ _ _ _ p (excludedPatterns ++ more))
    as [[|] | |] eqn:He; try discriminate.
  now rewrite (shouldExclude_app_false _ _ _ He).
Qed.

(** X22.  A pattern that the run time refuses to compile.  When it stands
    first in the list, [shouldExclude] throws the [SyntaxError] for every
    path; inside the scan that error is swallowed with the candidate, so
    [scanForPackageJsonFiles] returns the empty list for a readable
    directory, without any error. *)
Theorem scanForPackageJsonFiles_refused_pattern
  (directory pattern message : string) (others : list string)
  (entries : list (string * bool)) :
  compileRegExp ("^" ++ regexPattern pattern ++ "$")%string = inr message ->
  readdir directory = inl entries ->
  (forall p,
      shouldExclude compileRegExp basename dirname relative p
        (pattern :: others) = Throws message) /\
  scanForPackageJsonFiles compileRegExp basename dirname relative join
    access readdir directory (pattern :: others) = Returns [].
Proof.
  intros Hc Hr.
  assert (Hs : forall p,
             shouldExclude compileRegExp basename dirname relative p
               (pattern :: others) = Throws message).
  { intros p. unfold shouldExclude. simpl. unfold matchesPattern at 1.
    now rewrite Hc. }
  split; [exact Hs |].
  rewrite scan_filter, Hr. f_equal.
  induction (candidates join directory entries) as [| c l IH];
    [reflexivity |].
  simpl. unfold kept at 1. rewrite Hs, andb_false_r. exact IH.
Qed.

End ScannerFacts.

Lemma scanForPackageJsonFiles_refused_pattern_witness :
  (forall p,
      shouldExclude refuse_all (fun p => p) demo_dirname (fun p => p) p
        ["**/node_modules/**"; "**/dist/**"]
      = Throws "Invalid regular expression") /\
  scanForPackageJsonFiles refuse_all (fun p => p) demo_dirname (fun p => p)
    demo_join demo_access demo_readdir "/ws"
    ["**/node_modules/**"; "**/dist/**"] = Returns [].
Proof.
  apply (scanForPackageJsonFiles_refused_pattern refuse_all (fun p => p)
           demo_dirname (fun p => p) demo_join demo_access demo_readdir
           "/ws" "**/node_modules/**" "Invalid regular expression"
           ["**/dist/**"]
           [("app", true); ("README.md", false); ("lib", true);
            ("docs", true)]).
  - reflexivity.
  - reflexivity.
Defined.

(** The demo workspace, scanned without patterns: the two manifests, in the
    order of [readdir]; then built and sorted.  A directory that cannot be
    read makes the scan fail. *)
Example scan_build_sort_demo :
  scanForPackageJsonFiles refuse_all (fun p => p) demo_dirname (fun p => p)
    demo_join demo_access demo_readdir "/ws" []
  = Returns demo_paths /\
  buildDependencyGraph demo_load demo_dirname demo_paths = Returns demo_graph /\
  topologicalSort demo_graph = Returns ["lib"; "app"] /\
  scanForPackageJsonFiles refuse_all (fun p => p) demo_dirname (fun p => p)
    demo_join demo_access demo_readdir "/nowhere" []
  = Throws "ENOENT: no such file or directory, scandir".
Proof. repeat split. Qed.

(* ================================================================== *)
(** ** buildDependencyGraph: where the edges come from *)
(* ================================================================== *)

Lemma first_pass_origin load dirname paths : forall acc P n info,
  first_pass load dirname paths acc = Returns P ->
  map_get n P = Some info ->
  map_get n acc = Some info \/
  exists p, In p paths /\
            parsePackageJson load dirname p = Returns info /\
            name info = n.
Proof.
  induction paths as [| q paths IH]; simpl; intros acc P n info H Hg.
  - injection H as <-. now left.
  - destruct (parsePackageJson load dirname q) as [i | |] eqn:Hq;
      try discriminate.
    destruct (IH _ _ n info H Hg) as [Hacc | (p & Hp & Hparse & Hname)].
    + destruct (String.eqb_spec (name i) n) as [He | Hn].
      * subst n. rewrite map_get_set_eq in Hacc. injection Hacc as ->.
        right. exists q. auto.
      * rewrite map_get_set_neq in Hacc by assumption. now left.
    + right. exists p. auto.
Qed.

(** X23.  Where the edges of a built graph come from.  The forward-edge
    set of a node is read from one manifest among those given, the one
    that declares the node's name: it holds exactly the names listed in any
    of that manifest's four dependency fields ([dependencies],
    [devDependencies], [peerDependencies], [optionalDependencies]) that are
    names of packages of the workspace. *)
Theorem buildDependencyGraph_edges_from_manifest
  (loadPackageJson : string -> PackageJson + string)
  (dirname : string -> string)
  (packageJsonPaths : list string) (graph : DependencyGraph)
  (packageName : string) (deps : JSet) :
  buildDependencyGraph loadPackageJson dirname packageJsonPaths
    = Returns graph ->
  map_get packageName (edges graph) = Some deps ->
  exists p packageJson,
    In p packageJsonPaths /\
    loadPackageJson p = inl packageJson /\
    pj_name packageJson = Some packageName /\
    (forall d,
        In d deps <->
        (In d (field_keys (pj_dependencies packageJson)) \/
         In d (field_keys (pj_devDependencies packageJson)) \/
         In d (field_keys (pj_peerDependencies packageJson)) \/
         In d (field_keys (pj_optionalDependencies packageJson))) /\
        In d (map_keys (packages graph))).
Proof.
  intros H Hg. destruct (build_Returns _ _ _ _ H) as (P & Hf & _ & HP & HE & _).
  rewrite HE, map_get_map_values in Hg.
  destruct (map_get packageName P) as [info |] eqn:Hinfo; [| discriminate].
  injection Hg as <-.
  destruct (first_pass_origin _ _ _ _ _ _ _ Hf Hinfo)
    as [Hnil | (p & Hp & Hparse & Hname)]; [discriminate |].
  destruct (parsePackageJson_Returns_spec _ _ _ _ Hparse)
    as (pj & Hload & Hpn & _ & _ & _ & _ & _ & Hdeps & _).
  exists p, pj. split; [exact Hp |]. split; [exact Hload |].
  split; [now rewrite Hpn, Hname |].
  intros d. unfold edge_set.
  destruct (local_pass_spec P info) as [Heq Hl]. rewrite <- Heq, Hl, Hdeps.
  assert (Hk : map_keys (packages graph) = map_keys P).
  { rewrite HP. unfold map_keys. now rewrite map_map. }
  now rewrite Hk.
Qed.

Lemma buildDependencyGraph_edges_from_manifest_witness :
  exists p packageJson,
    In p clash_paths /\
    clash_load p = inl packageJson /\
    pj_name packageJson = Some "c" /\
    (forall d,
        In d ["dup"] <->
        (In d (field_keys (pj_dependencies packageJson)) \/
         In d (field_keys (pj_devDependencies packageJson)) \/
         In d (field_keys (pj_peerDependencies packageJson)) \/
         In d (field_keys (pj_optionalDependencies packageJson))) /\
        In d (map_keys (packages clash_graph))).
Proof.
  apply (buildDependencyGraph_edges_from_manifest clash_load clash_dirname
           clash_paths clash_graph "c" ["dup"]).
  - exact clash_graph_built.
  - reflexivity.
Defined.
